(** * SUSI state machine: control loop, capture pipeline and reply dispatch

    A shallow embedding of [main/states/susi_state_machine_simple.py]
    ([SusiStateMachine]) and the properties of its dispatch protocol.

    The Python methods are embedded as computations in a state-and-exception
    monad over a [World] that holds the mutable configuration, the event
    queue, the log and the chronological list of calls made to the external
    collaborators (player, lights, TTS, STT, renderer, scheduler, GPIO,
    microphone, hotword detector, dialogue service).  Whether a collaborator
    call raises, and what it returns, is decided by an [Env] that sees the
    history of calls made so far.

    The file has three parts: the embedding of the module, the vocabulary
    the statements are written in, and the lemmas and theorems. *)

From Stdlib Require Import String Ascii List ZArith QArith Qabs Lia Bool.
Import ListNotations.
Local Open Scope string_scope.
Local Open Scope list_scope.

Set Implicit Arguments.

(** ** Exceptions *)

(** The exception classes the module distinguishes.  [ConnectionError] is
    [requests.exceptions.ConnectionError] (line 10); [OtherException] stands
    for any further subclass of [Exception]; [BaseOnly] for the classes that
    derive from [BaseException] only ([KeyboardInterrupt], [SystemExit]). *)
Inductive Exn : Type :=
| ConnectionError
| WaitTimeoutError
| UnknownValueError
| RuntimeError
| AttributeError
| NameError
| KeyError
| OtherException (name : string)
| BaseOnly (name : string).

(** [isinstance(e, Exception)], the test of [except Exception]. *)
Definition is_Exception (e : Exn) : bool :=
  match e with
  | BaseOnly _ => false
  | _ => true
  end.

(** ** Replies *)

Record Table : Type := mkTable {
  head : list string;
  data : list (list string) }.

Record Entity : Type := mkEntity { title : string }.

Record Rss : Type := mkRss {
  entities : list Entity;
  count : Z }.

(** A reply is a dictionary; a field is [Some v] when its key is in
    [reply.keys()].  The entries of [planned_actions] are dictionaries of the
    same shape that carry a [plan_delay] (comment at line 310). *)
#[warnings="-register-all"]
Inductive Reply : Type := mkReply {
  planned_actions : option (list Reply);
  plan_delay : option Z;
  volume : option string;
  media_action : option string;
  stop : option unit;
  answer : option string;
  language : option string;
  identifier : option string;
  table : option Table;
  rss : option Rss }.

(** ['key' in reply.keys()] *)
Definition has_key {A} (field : option A) : bool :=
  match field with
  | Some _ => true
  | None => false
  end.

(** What [deal_with_answer] can be handed: recognised text, a dictionary
    delivered by the scheduler, or [None] (what [recognize_audio] returns for
    an unknown provider). *)
Inductive Payload : Type :=
| PText (text : string)
| PReply (reply : Reply)
| PNone.

(** ** Calls to the collaborators *)

Definition Audio := nat.

Inductive Sound : Type :=
| detection_bell_sound
| recognition_error_sound
| problem_sound.

Inductive PlayerOp : Type :=
| beep (s : Sound)
| say (s : Sound)
| set_volume (v : string)
| pause
| resume
| restart
| next
| previous
| shuffle
| player_stop
| playytb (key : string)
| play (url : string)
| restore_softvolume.

Inductive LightsOp : Type :=
| lights_off
| lights_speak
| lights_think
| lights_wakeup.

Inductive TtsOp : Type :=
| speak_google_tts (text : string)
| speak_flite_tts (text : string)
| speak_watson_tts (text : string).

Inductive SttOp : Type :=
| recognize_google (audio : Audio) (lang : string)
| recognize_ibm (username password lang : string) (audio : Audio)
| recognize_sphinx (audio : Audio) (lang : string)
| recognize_bing (audio : Audio) (key lang : string)
| recognize_deepspeech (audio : Audio) (lang : string).

(** Second argument of [renderer.receive_message]. *)
Inductive NotePayload : Type :=
| NoPayload
| StrPayload (s : string)
| ReplyPayload (susi_reply : option Reply).

Inductive Ev : Type :=
| Player (op : PlayerOp)
| Lights (op : LightsOp)
| TTS (op : TtsOp)
| Recognize (op : SttOp)
| GPIO_output (pin : Z) (level : bool)
| Renderer_receive_message (message : string) (payload : NotePayload)
| Scheduler_add_event (delay : Q) (plan : Reply)
| Susi_ask (query : string)
| Internet_on
| Detector_start
| Detector_stop
| Microphone_enter
| Microphone_exit
| Recognizer_listen.

(** ** The world *)

Inductive Level : Type := DEBUG | INFO | ERROR | STDOUT.

Record World : Type := mkWorld {
  trace : list Ev;                 (* collaborator calls, oldest first *)
  log : list (Level * string);     (* logger records and printed lines *)
  default_stt : string;            (* components.config['default_stt'] *)
  default_tts : string;            (* components.config['default_tts'] *)
  susi_language : string;          (* susi_config["language"] *)
  event_queue : list Payload }.    (* self.event_queue, front first *)

(** The parts of the device that never change while the loop runs. *)
Record Device : Type := mkDevice {
  has_GPIO : bool;                 (* the module global GPIO is not None *)
  has_renderer : bool;             (* components.renderer is not None *)
  watson_username : string;
  watson_password : string;
  bing_speech_api_key : string }.

(** The collaborators: given the calls made so far, does the next call raise,
    and what do the value-returning calls return. *)
Record Env : Type := mkEnv {
  raises : list Ev -> Ev -> option Exn;
  ask_result : list Ev -> string -> Reply;
  listen_result : list Ev -> Audio;
  stt_result : list Ev -> SttOp -> string;
  internet : list Ev -> bool }.

Definition record_call (e : Ev) (w : World) : World :=
  mkWorld (trace w ++ [e]) (log w) (default_stt w) (default_tts w)
          (susi_language w) (event_queue w).

Definition record_log (lvl : Level) (msg : string) (w : World) : World :=
  mkWorld (trace w) (log w ++ [(lvl, msg)]) (default_stt w) (default_tts w)
          (susi_language w) (event_queue w).

Definition with_default_stt (s : string) (w : World) : World :=
  mkWorld (trace w) (log w) s (default_tts w) (susi_language w) (event_queue w).

Definition with_language (s : string) (w : World) : World :=
  mkWorld (trace w) (log w) (default_stt w) (default_tts w) s (event_queue w).

Definition with_queue (q : list Payload) (w : World) : World :=
  mkWorld (trace w) (log w) (default_stt w) (default_tts w) (susi_language w) q.

(** ** The monad: state plus Python exceptions *)

Inductive Res (A : Type) : Type :=
| Ret (a : A)
| Raise (e : Exn).
Arguments Ret {A} a.
Arguments Raise {A} e.

Definition M (A : Type) : Type := World -> Res A * World.

Definition ret {A} (a : A) : M A := fun w => (Ret a, w).

Definition raise {A} (e : Exn) : M A := fun w => (Raise e, w).

Definition bind {A B} (m : M A) (k : A -> M B) : M B :=
  fun w =>
    match m w with
    | (Ret a, w') => k a w'
    | (Raise e, w') => (Raise e, w')
    end.

(** [try: m  except ...:]  the handler table answers [Some h] for the
    exceptions some [except] clause matches.  An exception raised by a
    handler is not offered to the sibling clauses. *)
Definition try_except {A} (m : M A) (handler : Exn -> option (M A)) : M A :=
  fun w =>
    match m w with
    | (Ret a, w') => (Ret a, w')
    | (Raise e, w') =>
        match handler e with
        | Some h => h w'
        | None => (Raise e, w')
        end
    end.

(** [with ctx: body]: [leave] runs however [body] exits; the context
    managers used here do not suppress the exception of the body. *)
Definition with_context {A} (enter leave : M unit) (body : M A) : M A :=
  fun w =>
    match enter w with
    | (Raise e, w1) => (Raise e, w1)
    | (Ret _, w1) =>
        match body w1 with
        | (r, w2) =>
            match leave w2 with
            | (Raise e, w3) => (Raise e, w3)
            | (Ret _, w3) => (r, w3)
            end
        end
    end.

Definition gets {A} (f : World -> A) : M A := fun w => (Ret (f w), w).

Definition modify (f : World -> World) : M unit := fun w => (Ret tt, f w).

Declare Scope monad_scope.
Delimit Scope monad_scope with monad.
Notation "x <- m ;; k" := (bind m (fun x => k))
  (at level 61, m at next level, right associativity) : monad_scope.
Notation "m ;; k" := (bind m (fun _ => k))
  (at level 61, right associativity) : monad_scope.
Local Open Scope monad_scope.

(** [for x in l: f x] *)
Fixpoint for_each {A} (l : list A) (f : A -> M unit) : M unit :=
  match l with
  | [] => ret tt
  | x :: l' => f x ;; for_each l' f
  end.

Definition when (b : bool) (m : M unit) : M unit :=
  if b then m else ret tt.

(** ** Python string and list slices *)

(** [s[:n]] *)
Fixpoint str_take (n : nat) (s : string) : string :=
  match n, s with
  | S n', String c s' => String c (str_take n' s')
  | _, _ => EmptyString
  end.

(** [s[n:]] *)
Fixpoint str_drop (n : nat) (s : string) : string :=
  match n, s with
  | S n', String _ s' => str_drop n' s'
  | _, _ => s
  end.

(** [s.replace("_", "-")] *)
Fixpoint replace_underscore (s : string) : string :=
  match s with
  | EmptyString => EmptyString
  | String c s' =>
      String (if Ascii.eqb c "_"%char then "-"%char else c) (replace_underscore s')
  end.

(** [l[0:k]] for an integer [k]: a negative [k] counts from the end. *)
Definition slice_to {A} (k : Z) (l : list A) : list A :=
  if (0 <=? k)%Z then firstn (Z.to_nat k) l
  else firstn (Z.to_nat (Z.of_nat (length l) + k)) l.

(** ** Python's true division of two integers *)

(** The integer nearest to [n / d], the even one of two that are equally
    near ([0 <= n], [0 < d]). *)
Definition round_half_even (n d : Z) : Z :=
  let q := (n / d)%Z in
  let r := (n mod d)%Z in
  if (2 * r <? d)%Z then q
  else if (d <? 2 * r)%Z then (q + 1)%Z
  else if Z.even q then q else (q + 1)%Z.

(** [2 ^ e] as a rational, for an exponent of either sign. *)
Definition pow2 (e : Z) : Q :=
  (2 ^ Z.max 0 e)%Z # Z.to_pos (2 ^ Z.max 0 (- e)).

(** Numerator and denominator of [n / (b * 2 ^ e)]. *)
Definition scaled_num (n e : Z) : Z := (n * 2 ^ Z.max 0 (- e))%Z.
Definition scaled_den (b e : Z) : Z := (b * 2 ^ Z.max 0 e)%Z.

(** The exponent [e] of the double nearest to [n / b] ([0 < n], [0 < b]):
    the one with [2 ^ 52 <= n / (b * 2 ^ e) < 2 ^ 53]. *)
Definition double_exponent (n b : Z) : Z :=
  let e := (Z.log2 n - Z.log2 b - 53)%Z in
  if (scaled_num n e <? 2 ^ 53 * scaled_den b e)%Z then e else (e + 1)%Z.

(** [a / b] for two [int]s with [0 < b]: Python returns the double nearest
    to the quotient (ties to even), here kept as the rational number that
    double is, and raises [OverflowError] ("integer division result too
    large for a float"), here [None], when that double would reach
    [2 ^ 1024].  With the divisor 1000 of line 312 a quotient other than 0
    is at least 1/1000 in magnitude, far above the subnormal doubles. *)
Definition int_true_divide (a b : Z) : option Q :=
  if (a =? 0)%Z then Some 0
  else
    let n := Z.abs a in
    let e := double_exponent n b in
    let m := round_half_even (scaled_num n e) (scaled_den b e) in
    if (2 ^ 1024 * 2 ^ Z.max 0 (- e) <=? m * 2 ^ Z.max 0 e)%Z then None
    else Some (Qred (inject_Z (Z.sgn a * m) * pow2 e)).

(** [int(plan['plan_delay']) / 1000] (line 312). *)
Definition plan_seconds (delay_ms : Z) : option Q := int_true_divide delay_ms 1000.

Definition fallback_phrase : string := "I don't have an answer to this".

(** ** The methods of [SusiStateMachine] *)

Section StateMachine.

Variable env : Env.
Variable dev : Device.

(** A call to a collaborator: it is recorded, then it raises or returns. *)
Definition call_for {A} (e : Ev) (result : list Ev -> A) : M A :=
  fun w =>
    match raises env (trace w) e with
    | Some x => (Raise x, record_call e w)
    | None => (Ret (result (trace w)), record_call e w)
    end.

Definition call (e : Ev) : M unit := call_for e (fun _ => tt).

Definition logger (lvl : Level) (msg : string) : M unit :=
  modify (record_log lvl msg).

(** [print(...)] *)
Definition print (line : string) : M unit := logger STDOUT line.

(** [if GPIO: GPIO.output(pin, level)] *)
Definition GPIO_if_present (pin : Z) (level : bool) : M unit :=
  when (has_GPIO dev) (call (GPIO_output pin level)).

(** Lines 162-164. *)
Definition notify_renderer (message : string) (payload : NotePayload) : M unit :=
  when (has_renderer dev) (call (Renderer_receive_message message payload)).

(** Lines 169-170. *)
Definition stop_detector : M unit := call Detector_stop.

(** Lines 215-224, [__speak]: an [if] followed by an [if]/[elif]. *)
Definition __speak (text : string) : M unit :=
  tts <- gets default_tts ;;
  when (tts =? "google") (call (TTS (speak_google_tts text))) ;;
  tts <- gets default_tts ;;
  if tts =? "flite" then
    logger INFO "Using flite for TTS" ;;
    call (TTS (speak_flite_tts text))
  else
    tts <- gets default_tts ;;
    when (tts =? "watson") (call (TTS (speak_watson_tts text))).

Definition recognize (op : SttOp) : M (option string) :=
  text <- call_for (Recognize op) (fun history => stt_result env history op) ;;
  ret (Some text).

(** [internet_on()] of [internet_test]: a reachability probe. *)
Definition internet_on : M bool := call_for Internet_on (internet env).

(** Lines 226-253.  Falling off the end of the chain returns [None]. *)
Definition recognize_audio (audio : Audio) : M (option string) :=
  logger INFO "Trying to recognize audio" ;;
  stt <- gets default_stt ;;
  if stt =? "google" then
    lang <- gets susi_language ;;
    recognize (recognize_google audio lang)
  else if stt =? "watson" then
    lang <- gets susi_language ;;
    recognize (recognize_ibm (watson_username dev) (watson_password dev) lang audio)
  else if stt =? "pocket_sphinx" then
    lang <- gets (fun w => replace_underscore (susi_language w)) ;;
    online <- internet_on ;;
    if online then
      modify (with_default_stt "google") ;;
      recognize (recognize_google audio lang)
    else
      recognize (recognize_sphinx audio lang)
  else if stt =? "bing" then
    lang <- gets susi_language ;;
    recognize (recognize_bing audio (bing_speech_api_key dev) lang)
  else if stt =? "deepspeech-local" then
    lang <- gets (fun w => replace_underscore (susi_language w)) ;;
    recognize (recognize_deepspeech audio lang)
  else
    ret None.

(** [config[key] = value] at lines 266-267.  The module binds no global
    [config] (it imports [susi_config], and the device configuration is
    [self.components.config]); evaluating the name raises [NameError]. *)
Definition global_config_setitem (key value : string) : M unit :=
  raise NameError.

(** Lines 256-285. *)
Definition deal_with_error (payload : string) : M unit :=
  if payload =? "RecognitionError" then
    logger DEBUG "ErrorState Recognition Error" ;;
    notify_renderer "error" (StrPayload "recognition") ;;
    call (Lights lights_speak) ;;
    call (Player (say recognition_error_sound)) ;;
    call (Lights lights_off)
  else if payload =? "ConnectionError" then
    notify_renderer "error" (StrPayload "connection") ;;
    global_config_setitem "default_tts" "flite" ;;
    global_config_setitem "default_stt" "pocket_sphinx" ;;
    print "Internet Connection not available" ;;
    call (Lights lights_speak) ;;
    call (Lights lights_off) ;;
    logger INFO "Changed to offline providers"
  else if payload =? "ListenTimeout" then
    notify_renderer "error" (StrPayload "timeout") ;;
    call (Lights lights_speak) ;;
    call (Lights lights_off)
  else
    print "Error: payload" ;;
    notify_renderer "error" NoPayload ;;
    call (Lights lights_speak) ;;
    call (Player (say problem_sound)) ;;
    call (Lights lights_off).

(** [self.to_error(...)] at line 405.  [SusiStateMachine] defines no
    attribute [to_error] (neither the class nor [__init__]); the attribute
    lookup raises [AttributeError]. *)
Definition to_error (payload : string) : M bool :=
  raise AttributeError.

(** *** [deal_with_answer], lines 288-410, block by block *)

(** Lines 292-297. *)
Definition obtain_reply (payload : Payload) : M (option Reply) :=
  match payload with
  | PText text =>
      logger DEBUG "Sending payload to susi server" ;;
      reply <- call_for (Susi_ask text) (fun history => ask_result env history text) ;;
      ret (Some reply)
  | PReply reply =>
      logger DEBUG "Executing planned action response" ;;
      ret (Some reply)
  | PNone =>
      logger DEBUG "Executing planned action response" ;;
      ret None
  end.

(** Lines 306-313, the body of the loop over the plans: the key lookup
    ([KeyError]) and the division ([OverflowError]) come before the call. *)
Definition schedule_plan (plan : Reply) : M unit :=
  logger DEBUG "plan" ;;
  match plan_delay plan with
  | None => raise KeyError
  | Some delay =>
      match plan_seconds delay with
      | None => raise (OtherException "OverflowError")
      | Some seconds => call (Scheduler_add_event seconds plan)
      end
  end.

(** Lines 304-313. *)
Definition dispatch_planned_actions (reply : Reply) : M unit :=
  match planned_actions reply with
  | Some plans =>
      logger DEBUG "planning action: " ;;
      for_each plans schedule_plan
  | None => ret tt
  end.

(** Lines 318-322.  Each block returns the new [no_answer_needed]. *)
Definition dispatch_volume (reply : Reply) (no_answer_needed : bool) : M bool :=
  match volume reply with
  | Some v =>
      call (Player (set_volume v)) ;;
      call (Player (say detection_bell_sound)) ;;
      ret true
  | None => ret no_answer_needed
  end.

(** Lines 324-347. *)
Definition dispatch_media_action (reply : Reply) (no_answer_needed : bool) : M bool :=
  match media_action reply with
  | Some action =>
      if action =? "pause" then
        call (Player pause) ;;
        call (Lights lights_off) ;;
        call (Lights lights_wakeup) ;;
        ret true
      else if action =? "resume" then
        call (Player resume) ;; ret true
      else if action =? "restart" then
        call (Player restart) ;; ret true
      else if action =? "next" then
        call (Player next) ;; ret true
      else if action =? "previous" then
        call (Player previous) ;; ret true
      else if action =? "shuffle" then
        call (Player shuffle) ;; ret true
      else
        logger ERROR "Unknown media action" ;;
        ret no_answer_needed
  | None => ret no_answer_needed
  end.

(** Lines 350-352. *)
Definition dispatch_stop (reply : Reply) (no_answer_needed : bool) : M bool :=
  match stop reply with
  | Some _ => call (Player player_stop) ;; ret true
  | None => ret no_answer_needed
  end.

(** Lines 354-365. *)
Definition dispatch_answer (reply : Reply) (no_answer_needed : bool) : M unit :=
  match answer reply with
  | Some text =>
      logger INFO "Susi: answer" ;;
      call (Lights lights_off) ;;
      call (Lights lights_speak) ;;
      __speak text ;;
      call (Lights lights_off)
  | None =>
      if negb no_answer_needed && negb (has_key (identifier reply)) then
        call (Lights lights_off) ;;
        call (Lights lights_speak) ;;
        __speak fallback_phrase ;;
        call (Lights lights_off)
      else ret tt
  end.

(** Lines 367-372. *)
Definition dispatch_language (reply : Reply) : M unit :=
  match language reply with
  | Some answer_lang =>
      current <- gets susi_language ;;
      if negb (answer_lang =? current) then
        logger INFO "Switching language" ;;
        modify (with_language answer_lang)
      else ret tt
  | None => ret tt
  end.

(** Lines 376-382. *)
Definition dispatch_identifier (reply : Reply) : M unit :=
  match identifier reply with
  | Some url =>
      logger DEBUG "Playing url" ;;
      if str_take 3 url =? "ytd" then call (Player (playytb (str_drop 4 url)))
      else call (Player (play url))
  | None => ret tt
  end.

(** Lines 384-394. *)
Definition dispatch_table (reply : Reply) : M unit :=
  match table reply with
  | Some t =>
      for_each (head t) (fun h => print h ;; __speak h) ;;
      print "" ;;
      for_each (firstn 4 (data t)) (fun datum =>
        for_each datum (fun value => print value ;; __speak value) ;;
        print "")
  | None => ret tt
  end.

(** Lines 396-402. *)
Definition dispatch_rss (reply : Reply) : M unit :=
  match rss reply with
  | Some feed =>
      for_each (slice_to (count feed) (entities feed)) (fun entity =>
        logger DEBUG (title entity) ;;
        __speak (title entity))
  | None => ret tt
  end.

(** Lines 292-302. *)
Definition open_dispatch (payload : Payload) : M (option Reply) :=
  reply <- obtain_reply payload ;;
  GPIO_if_present 27 true ;;
  when (has_renderer dev) (notify_renderer "speaking" (ReplyPayload reply)) ;;
  ret reply.

(** Lines 290-402, the body of the [try]. *)
Definition deal_with_answer_try (payload : Payload) : M bool :=
  reply <- open_dispatch payload ;;
  match reply with
  | None => raise AttributeError            (* None.keys() *)
  | Some reply =>
      dispatch_planned_actions reply ;;
      no_answer_needed <- dispatch_volume reply false ;;
      no_answer_needed <- dispatch_media_action reply no_answer_needed ;;
      no_answer_needed <- dispatch_stop reply no_answer_needed ;;
      dispatch_answer reply no_answer_needed ;;
      dispatch_language reply ;;
      dispatch_identifier reply ;;
      dispatch_table reply ;;
      dispatch_rss reply ;;
      ret true
  end.

(** Lines 404-408, the two [except] clauses. *)
Definition deal_with_answer_except (e : Exn) : option (M bool) :=
  match e with
  | ConnectionError => Some (to_error "ConnectionError")
  | _ =>
      if is_Exception e then Some (logger ERROR "Got error" ;; ret false)
      else None
  end.

(** Lines 288-410. *)
Definition deal_with_answer (payload : Payload) : M bool :=
  try_except (deal_with_answer_try payload) deal_with_answer_except.

(** *** The capture cycle *)

Definition listen : M Audio := call_for Recognizer_listen (listen_result env).

(** Lines 186-193.  [None] is the early [return] of line 193. *)
Definition capture : M (option Audio) :=
  with_context (call Microphone_enter) (call Microphone_exit)
    (try_except
       (logger DEBUG "listening to voice command" ;;
        audio <- listen ;;
        ret (Some audio))
       (fun e =>
          match e with
          | WaitTimeoutError =>
              Some (logger DEBUG "timeout reached waiting for voice command" ;;
                    deal_with_error "ListenTimeout" ;;
                    ret None)
          | _ => None
          end)).

Definition payload_of (value : option string) : Payload :=
  match value with
  | Some text => PText text
  | None => PNone
  end.

Definition note_of (value : option string) : NotePayload :=
  match value with
  | Some text => StrPayload text
  | None => NoPayload
  end.

(** Lines 199-211. *)
Definition recognize_and_answer (audio : Audio) : M unit :=
  try_except
    (logger DEBUG "Converting audio to text" ;;
     value <- recognize_audio audio ;;
     logger DEBUG "recognize_audio => value" ;;
     notify_renderer "recognized" (note_of value) ;;
     ok <- deal_with_answer (payload_of value) ;;
     if ok then ret tt else logger ERROR "Error dealing with answer")
    (fun e =>
       match e with
       | UnknownValueError =>
           Some (logger ERROR "UnknownValueError from SpeechRecognition" ;;
                 deal_with_error "RecognitionError")
       | _ => None
       end).

(** Lines 173-213. *)
Definition hotword_detected_callback : M unit :=
  call (Player (beep detection_bell_sound)) ;;
  logger DEBUG "stopping hotword detector" ;;
  stop_detector ;;
  GPIO_if_present 22 true ;;
  logger DEBUG "notify renderer for listening" ;;
  notify_renderer "listening" NoPayload ;;
  captured <- capture ;;
  match captured with
  | None => ret tt
  | Some audio =>
      GPIO_if_present 22 false ;;
      call (Lights lights_off) ;;
      call (Lights lights_think) ;;
      recognize_and_answer audio
  end.

(** *** The control loop *)

(** Modelled from the spec: the hotword detector is not part of this module;
    its [start()] blocks until a wake trigger is signalled, and the
    subscription made at lines 126-128 then runs
    [hotword_detected_callback] before [start()] returns. *)
Definition start_detector : M unit :=
  call Detector_start ;;
  hotword_detected_callback.


(** Lines 145-150: the handling step of one cycle. *)
Definition handle_trigger : M unit :=
  logger DEBUG "starting detector" ;;
  queue <- gets event_queue ;;
  match queue with
  | [] => start_detector
  | ev :: rest =>
      modify (with_queue rest) ;;
      deal_with_answer ev ;;
      ret tt
  end.

(** Lines 153-159. *)
Definition restore_baseline : M unit :=
  call (Player restore_softvolume) ;;
  when (has_GPIO dev)
    (try_except
       (call (GPIO_output 27 false) ;;
        call (GPIO_output 22 false))
       (fun e =>
          match e with
          | RuntimeError => Some (ret tt)
          | _ => None
          end)).

(** Lines 145-159: one turn of [while True]. *)
Definition start_cycle : M unit :=
  handle_trigger ;;
  logger DEBUG "after starting detector" ;;
  restore_baseline.

(** Lines 143-159, [start], unrolled for a number of turns: the loop has no
    exit of its own, a turn that raises ends it. *)
Fixpoint start (turns : nat) : M unit :=
  match turns with
  | O => ret tt
  | S turns' => start_cycle ;; start turns'
  end.

End StateMachine.

(** * Vocabulary of the statements *)

Unset Implicit Arguments.

(** ** Calls and frames *)

(** The calls made between two worlds. *)
Definition new_calls (w w' : World) : list Ev :=
  skipn (length (trace w)) (trace w').

(** A property of worlds that survives every update the methods perform,
    the recorded calls being restricted to the [allowed] ones.  The only
    value ever stored into [default_stt] is ["google"] (line 242). *)
Record stable (allowed : Ev -> Prop) (I : World -> Prop) : Prop := mkStable {
  stable_call : forall e w, allowed e -> I w -> I (record_call e w);
  stable_log : forall lvl msg w, I w -> I (record_log lvl msg w);
  stable_stt : forall w, I w -> I (with_default_stt "google" w);
  stable_language : forall s w, I w -> I (with_language s w);
  stable_queue : forall q w, I w -> I (with_queue q w) }.

Definition frames (allowed : Ev -> Prop) {A} (m : M A) : Prop :=
  forall I, stable allowed I -> forall w, I w -> I (snd (m w)).

(** ** Classes of calls *)

Definition tts_text (op : TtsOp) : string :=
  match op with
  | speak_google_tts text => text
  | speak_flite_tts text => text
  | speak_watson_tts text => text
  end.

Definition any_call (e : Ev) : Prop := True.

Definition says (texts : list string) (e : Ev) : Prop :=
  match e with
  | TTS op => In (tts_text op) texts
  | _ => False
  end.

Definition lights_or_says (texts : list string) (e : Ev) : Prop :=
  match e with
  | Lights _ => True
  | TTS op => In (tts_text op) texts
  | _ => False
  end.

Definition preamble_calls (e : Ev) : Prop :=
  match e with
  | Susi_ask _ | GPIO_output _ _ | Renderer_receive_message _ _ => True
  | _ => False
  end.

Definition scheduler_calls (e : Ev) : Prop :=
  match e with
  | Scheduler_add_event _ _ => True
  | _ => False
  end.

Definition volume_calls (e : Ev) : Prop :=
  match e with
  | Player (set_volume _) | Player (say _) => True
  | _ => False
  end.

Definition media_calls (e : Ev) : Prop :=
  match e with
  | Player pause | Player resume | Player restart
  | Player next | Player previous | Player shuffle => True
  | Lights _ => True
  | _ => False
  end.

Definition stop_calls (e : Ev) : Prop := e = Player player_stop.

Definition play_calls (e : Ev) : Prop :=
  match e with
  | Player (playytb _) | Player (play _) => True
  | _ => False
  end.

(** ** What a reply calls for *)

(** The phrase the answer block hands to [__speak], if any. *)
Definition lead_speech (reply : Reply) (no_answer_needed : bool) : list string :=
  match answer reply with
  | Some text => [text]
  | None =>
      if negb no_answer_needed && negb (has_key (identifier reply))
      then [fallback_phrase] else []
  end.

(** The cells the table block speaks: the header, then four rows at most. *)
Definition table_speech (reply : Reply) : list string :=
  match table reply with
  | Some t => head t ++ concat (firstn 4 (data t))
  | None => []
  end.

Definition rss_speech (reply : Reply) : list string :=
  match rss reply with
  | Some feed => map title (slice_to (count feed) (entities feed))
  | None => []
  end.

(** ** Observations on the recorded calls *)

(** The texts handed to a TTS provider, in order. *)
Definition spoken_by (e : Ev) : list string :=
  match e with
  | TTS op => [tts_text op]
  | _ => []
  end.

Definition spoken (calls : list Ev) : list string := flat_map spoken_by calls.

(** The media started through [player.play] and [player.playytb]. *)
Definition played_by (e : Ev) : list PlayerOp :=
  match e with
  | Player (playytb key) => [playytb key]
  | Player (play url) => [play url]
  | _ => []
  end.

Definition played (calls : list Ev) : list PlayerOp := flat_map played_by calls.

(** The registrations made with the scheduler. *)
Definition scheduled_by (e : Ev) : list (Q * Reply) :=
  match e with
  | Scheduler_add_event delay plan => [(delay, plan)]
  | _ => []
  end.

Definition scheduled (calls : list Ev) : list (Q * Reply) :=
  flat_map scheduled_by calls.

(** The provider names [__speak] knows; with any other name it is silent. *)
Definition known_tts (tts : string) : bool :=
  (tts =? "google") || (tts =? "flite") || (tts =? "watson").

Definition heard (tts : string) (texts : list string) : list string :=
  if known_tts tts then texts else [].

(** [adds obs w w' xs]: between [w] and [w'] the observation grew by [xs]. *)
Definition adds {X} (obs : Ev -> list X) (w w' : World) (xs : list X) : Prop :=
  flat_map obs (trace w') = flat_map obs (trace w) ++ xs.

(** [speech w w' texts]: between [w] and [w'] the texts were handed to
    [__speak], in order, and the TTS provider did not change. *)
Definition speech (w w' : World) (texts : list string) : Prop :=
  adds spoken_by w w' (heard (default_tts w) texts) /\
  default_tts w' = default_tts w.

(** The media actions lines 326-345 recognise. *)
Definition recognized_media (action : option string) : bool :=
  match action with
  | Some a =>
      (a =? "pause") || (a =? "resume") || (a =? "restart") ||
      (a =? "next") || (a =? "previous") || (a =? "shuffle")
  | None => false
  end.

(** The fields that mark "no spoken answer needed". *)
Definition answered (reply : Reply) : bool :=
  has_key (volume reply) || recognized_media (media_action reply) ||
  has_key (stop reply).

(** The reply a payload stands for. *)
Definition reply_of (env : Env) (payload : Payload) (w : World) : option Reply :=
  match payload with
  | PText text => Some (ask_result env (trace w) text)
  | PReply reply => Some reply
  | PNone => None
  end.

(** A dispatch that ran through every block, with the worlds in between. *)
Inductive Dispatched (env : Env) (dev : Device)
    (payload : Payload) (reply : Reply) (w w' : World) : Prop :=
| dispatched (w0 w1 w2 w3 w4 w5 w6 w7 w8 : World) (n1 n2 n3 : bool)
    (run_open : open_dispatch env dev payload w = (Ret (Some reply), w0))
    (run_plans : dispatch_planned_actions env reply w0 = (Ret tt, w1))
    (run_volume : dispatch_volume env reply false w1 = (Ret n1, w2))
    (run_media : dispatch_media_action env reply n1 w2 = (Ret n2, w3))
    (run_stop : dispatch_stop env reply n2 w3 = (Ret n3, w4))
    (run_answer : dispatch_answer env reply n3 w4 = (Ret tt, w5))
    (run_language : dispatch_language reply w5 = (Ret tt, w6))
    (run_identifier : dispatch_identifier env reply w6 = (Ret tt, w7))
    (run_table : dispatch_table env reply w7 = (Ret tt, w8))
    (run_rss : dispatch_rss env reply w8 = (Ret tt, w')).

(** The media the identifier block starts (lines 376-382). *)
Definition identifier_media (reply : Reply) : list PlayerOp :=
  match identifier reply with
  | Some url =>
      [if str_take 3 url =? "ytd" then playytb (str_drop 4 url) else play url]
  | None => []
  end.

(** [q] is the double nearest to [x]: a multiple of a power of two by an
    integer of 53 bits, within half a unit in its last place of [x], and
    below [2 ^ 1024]. *)
Definition double_nearest (x q : Q) : Prop :=
  exists m e : Z,
    ((m = 0%Z /\ x == 0) \/ (2 ^ 52 <= Z.abs m <= 2 ^ 53)%Z) /\
    q == inject_Z m * pow2 e /\
    Qabs (q - x) <= pow2 e * (1 # 2) /\
    Qabs q < inject_Z (2 ^ 1024).

(** The scheduler registration line 312 makes for a plan: the plan itself,
    with the double nearest to its delay in milliseconds over 1000; a delay
    of whole seconds (below [2 ^ 53] of them) is registered as it is. *)
Definition registered (registration : Q * Reply) (plan : Reply) : Prop :=
  snd registration = plan /\
  exists delay_ms,
    plan_delay plan = Some delay_ms /\
    double_nearest (inject_Z delay_ms / 1000) (fst registration) /\
    (forall seconds,
       delay_ms = (1000 * seconds)%Z -> (Z.abs seconds < 2 ^ 53)%Z ->
       fst registration = inject_Z seconds).

(** A plan the loop of lines 306-313 can register: it carries a
    [plan_delay], of a magnitude below [2 ^ 1000] ms, so that the division
    by 1000 fits a float. *)
Definition schedulable (plan : Reply) : Prop :=
  exists delay_ms,
    plan_delay plan = Some delay_ms /\ (Z.abs delay_ms < 2 ^ 1000)%Z.

Definition plans_of (reply : Reply) : list Reply :=
  match planned_actions reply with
  | Some plans => plans
  | None => []
  end.

(** The calls of [player.stop]. *)
Definition stopped_by (e : Ev) : list PlayerOp :=
  match e with
  | Player player_stop => [player_stop]
  | _ => []
  end.

Definition stops (calls : list Ev) : list PlayerOp := flat_map stopped_by calls.

(** [frames] quantifies over every start; from one start the continuation
    of a [bind] may rely on the value the first part returned there. *)
Definition frames_from (allowed : Ev -> Prop) {T} (m : M T) (w : World) : Prop :=
  forall I, stable allowed I -> I w -> I (snd (m w)).

(** What a reply makes the dispatcher say: the answer (or the fallback when
    nothing marked the reply as answered and no identifier is present), the
    table cells, the feed titles. *)
Definition expected_speech (reply : Reply) : list string :=
  lead_speech reply (answered reply) ++ table_speech reply ++ rss_speech reply.

Definition speaks_within (texts : list string) (e : Ev) : Prop :=
  forall text, In text (spoken_by e) -> In text texts.

(** The texts a reply itself carries. *)
Definition own_texts (reply : Reply) : list string :=
  match answer reply with
  | Some text => [text]
  | None => []
  end ++ table_speech reply ++ rss_speech reply.

(** The calls of lines 153-157. *)
Definition restoring (e : Ev) : Prop :=
  match e with
  | Player restore_softvolume => True
  | GPIO_output pin level => (pin = 27%Z \/ pin = 22%Z) /\ level = false
  | _ => False
  end.

(** The baseline: the soft volume is restored, then both output lines are
    driven low where the device has GPIO. *)
Definition baseline_calls (dev : Device) : list Ev :=
  Player restore_softvolume ::
  (if has_GPIO dev then [GPIO_output 27 false; GPIO_output 22 false] else []).


(** ** Concrete collaborators, devices, worlds and replies *)

(** The empty dictionary. *)
Definition no_reply : Reply :=
  mkReply None None None None None None None None None None.

(** Collaborators that never raise; the dialogue service answers [reply]. *)
Definition answering (reply : Reply) : Env :=
  mkEnv (fun _ _ => None) (fun _ _ => reply) (fun _ => O)
        (fun _ _ => "what time is it") (fun _ => true).

(** The dialogue service cannot be reached. *)
Definition unreachable : Env :=
  mkEnv (fun _ e => match e with Susi_ask _ => Some ConnectionError | _ => None end)
        (fun _ _ => no_reply) (fun _ => O)
        (fun _ _ => "what time is it") (fun _ => true).

(** The hotword detector fails to start. *)
Definition broken_detector : Env :=
  mkEnv (fun _ e => match e with
                    | Detector_start => Some (OtherException "OSError")
                    | _ => None
                    end)
        (fun _ _ => no_reply) (fun _ => O)
        (fun _ _ => "what time is it") (fun _ => true).

(** Nobody speaks after the wake word. *)
Definition silent_room : Env :=
  mkEnv (fun _ e => match e with
                    | Recognizer_listen => Some WaitTimeoutError
                    | _ => None
                    end)
        (fun _ _ => no_reply) (fun _ => O)
        (fun _ _ => "what time is it") (fun _ => true).


(** A device with GPIO and a renderer, and two starting worlds. *)
Definition raspberry : Device := mkDevice true true "user" "secret" "key".

Definition boot : World := mkWorld [] [] "google" "flite" "en" [].


(** A dictionary delivered by the scheduler waits in the queue. *)
Definition queued : World :=
  mkWorld [] [] "google" "flite" "en" [PReply no_reply].

(** [{'stop': <StopAction>}] (comment at line 349). *)
Definition stop_music : Reply :=
  mkReply None None None None (Some tt) None None None None None.

(** A reply whose only field is a media action the dispatcher does not know. *)
Definition rewind : Reply :=
  mkReply None None None (Some "rewind") None None None None None None.

(** The reply of the comment at line 375. *)
Definition champions : Reply :=
  mkReply None None None None None
          (Some "Playing Queen -  We Are The Champions (Official Video)")
          None (Some "ytd-04854XqcfCY") None None.

(** An identifier without the ["ytd"] tag. *)
Definition mp3 : Reply :=
  mkReply None None None None None None None (Some "http://example/file.mp3")
          None None.

(** A table with two columns and five data rows. *)
Definition five_rows : Reply :=
  mkReply None None None None None None None None
    (Some (mkTable ["A"; "B"]
                   [["1"; "2"]; ["3"; "4"]; ["5"; "6"]; ["7"; "8"]; ["9"; "10"]]))
    None.

(** A plan as in the comment at line 310, due in two seconds, and the reply
    that carries it. *)
Definition alarm : Reply :=
  mkReply None (Some 2000%Z) None None None (Some "ALARM") (Some "en") None None None.

Definition set_alarm : Reply :=
  mkReply (Some [alarm]) None None None None None None None None None.

(** ** Invariants and exceptions of a computation *)

(** [invariant I m]: [m] keeps [I], however it ends. *)
Definition invariant (I : World -> Prop) {T} (m : M T) : Prop :=
  forall w, I w -> I (snd (m w)).

(** [throws E m]: every exception [m] can end with is in [E]. *)
Definition throws (E : Exn -> Prop) {T} (m : M T) : Prop :=
  forall w e w', m w = (Raise e, w') -> E e.

(** The exceptions the [except Exception] clause of line 406 turns into the
    result [False]. *)
Definition absorbed (x : Exn) : Prop :=
  is_Exception x = true /\ x <> ConnectionError.

(** Failures of the collaborators that some [except] clause of the module
    is written for: a listening timeout, speech that is not understood, a
    [RuntimeError] on the reset of line 27, and, for the calls made only
    inside the [try] of [deal_with_answer], whatever line 406 absorbs. *)
Definition survivable (ev : Ev) (x : Exn) : Prop :=
  match ev with
  | Recognizer_listen => x = WaitTimeoutError
  | Recognize _ => x = UnknownValueError
  | TTS _ | Scheduler_add_event _ _ | Susi_ask _ => absorbed x
  | Player (set_volume _) | Player pause | Player resume | Player restart
  | Player next | Player previous | Player shuffle | Player player_stop
  | Player (playytb _) | Player (play _) => absorbed x
  | GPIO_output pin level =>
      if (pin =? 27)%Z then (if level then absorbed x else x = RuntimeError)
      else False
  | Renderer_receive_message message _ =>
      if message =? "speaking" then absorbed x else False
  | _ => False
  end.

(** Collaborators that fail only in those ways. *)
Definition forgiving (env : Env) : Prop :=
  forall history ev x, raises env history ev = Some x -> survivable ev x.

(** ** More collaborators and replies *)

(** The TTS back end fails on every text. *)
Definition hoarse : Env :=
  mkEnv (fun _ e => match e with
                    | TTS _ => Some (OtherException "gTTSError")
                    | _ => None
                    end)
        (fun _ _ => no_reply) (fun _ => O)
        (fun _ _ => "what time is it") (fun _ => true).

(** ** Which calls a method can make *)

(** The calls of [deal_with_answer] other than those to the TTS provider. *)
Definition quiet_dispatch_calls (e : Ev) : Prop :=
  match e with
  | Susi_ask _ | Scheduler_add_event _ _ => True
  | Lights lights_off | Lights lights_speak | Lights lights_wakeup => True
  | GPIO_output pin level => pin = 27%Z /\ level = true
  | Renderer_receive_message message _ => message = "speaking"
  | Player (set_volume _) | Player (say detection_bell_sound)
  | Player pause | Player resume | Player restart | Player next
  | Player previous | Player shuffle | Player player_stop
  | Player (playytb _) | Player (play _) => True
  | _ => False
  end.

(** The calls of [deal_with_answer]. *)
Definition dispatch_calls (e : Ev) : Prop :=
  match e with
  | TTS _ => True
  | _ => quiet_dispatch_calls e
  end.

(** The calls of [hotword_detected_callback] outside [deal_with_answer]. *)
Definition capture_calls (e : Ev) : Prop :=
  match e with
  | Player (beep detection_bell_sound)
  | Player (say recognition_error_sound) | Player (say problem_sound) => True
  | Detector_stop | Microphone_enter | Microphone_exit | Recognizer_listen
  | Recognize _ | Internet_on => True
  | Lights lights_off | Lights lights_think | Lights lights_speak => True
  | GPIO_output pin _ => pin = 22%Z
  | Renderer_receive_message message _ =>
      message = "listening" \/ message = "recognized" \/ message = "error"
  | _ => False
  end.

(** The calls of [start] after the handling step (lines 153-157). *)
Definition baseline_reset_calls (e : Ev) : Prop :=
  match e with
  | Player restore_softvolume => True
  | GPIO_output pin level => (pin = 27%Z \/ pin = 22%Z) /\ level = false
  | _ => False
  end.

(** The soft-volume restorations among the calls. *)
Definition restored_by (e : Ev) : list PlayerOp :=
  match e with
  | Player restore_softvolume => [restore_softvolume]
  | _ => []
  end.

Definition restorations (calls : list Ev) : list PlayerOp :=
  flat_map restored_by calls.

(** [only_calls A w0 w]: the calls made since [w0] are all in [A]. *)
Definition only_calls (A : Ev -> Prop) (w0 w : World) : Prop :=
  exists l, trace w = trace w0 ++ l /\ Forall A l.

(** A reply in another language than the configured one. *)
Definition bonjour : Reply :=
  mkReply None None None None None (Some "Bonjour") (Some "fr") None None None.

(** The queries sent to the dialogue service. *)
Definition asked_by (e : Ev) : list string :=
  match e with
  | Susi_ask query => [query]
  | _ => []
  end.

Definition asked (calls : list Ev) : list string := flat_map asked_by calls.

(** The calls that send nothing to the dialogue service. *)
Definition no_ask (e : Ev) : Prop := asked_by e = [].

(** The query a payload stands for: only a recognised text is sent to the
    dialogue service (lines 292-297). *)
Definition query_of (payload : Payload) : list string :=
  match payload with
  | PText text => [text]
  | _ => []
  end.

Definition queries (events : list Payload) : list string := flat_map query_of events.

(** The calls of a turn of the loop that finds an event waiting. *)
Definition queued_turn_calls (e : Ev) : Prop :=
  dispatch_calls e \/ baseline_reset_calls e.

(** Three events wait in the queue. *)
Definition busy : World :=
  mkWorld [] [] "google" "flite" "en"
          [PText "what time is it"; PReply alarm; PText "stop"].

(** The configuration names a TTS provider [__speak] does not know; a reply
    waits in the queue. *)
Definition espeak : World :=
  mkWorld [] [] "google" "espeak" "en" [PReply champions].

(** The calls of a capture cycle up to the recognition: wake beep, detector
    stop, recording, and the lights set to thinking (lines 173-197). *)
Definition recording_calls (dev : Device) : list Ev :=
  [Player (beep detection_bell_sound); Detector_stop] ++
  (if has_GPIO dev then [GPIO_output 22 true] else []) ++
  (if has_renderer dev then [Renderer_receive_message "listening" NoPayload] else []) ++
  [Microphone_enter; Recognizer_listen; Microphone_exit] ++
  (if has_GPIO dev then [GPIO_output 22 false] else []) ++
  [Lights lights_off; Lights lights_think].

(** The calls of the recognition-error handling (lines 257-261). *)
Definition recognition_error_calls (dev : Device) : list Ev :=
  (if has_renderer dev
   then [Renderer_receive_message "error" (StrPayload "recognition")] else []) ++
  [Lights lights_speak; Player (say recognition_error_sound); Lights lights_off].

(** The recogniser makes out nothing of what it is given. *)
Definition mumbling : Env :=
  mkEnv (fun _ e => match e with
                    | Recognize _ => Some UnknownValueError
                    | _ => None
                    end)
        (fun _ _ => no_reply) (fun _ => O)
        (fun _ _ => "what time is it") (fun _ => true).

(** ** Runs of a computation *)

Definition same_settings (w w' : World) : Prop :=
  default_stt w' = default_stt w /\
  default_tts w' = default_tts w /\
  susi_language w' = susi_language w /\
  event_queue w' = event_queue w.

(** [performs m w r calls]: started in [w], [m] ends with [r] after making
    exactly [calls], and leaves the settings as they were. *)
Definition performs {T} (m : M T) (w : World) (r : Res T) (calls : list Ev) : Prop :=
  exists w', m w = (r, w') /\ trace w' = trace w ++ calls /\ same_settings w w'.


(** [reaches m w r P]: started in [w], [m] ends with [r] in a world that
    satisfies [P]. *)
Definition reaches {T} (m : M T) (w : World) (r : Res T) (P : World -> Prop) : Prop :=
  exists w', m w = (r, w') /\ P w'.

(** The scheduler registrations of plans that all carry a delay. *)
Definition registrations (plans : list Reply) : list Ev :=
  flat_map (fun plan =>
              match plan_delay plan with
              | Some delay =>
                  match plan_seconds delay with
                  | Some seconds => [Scheduler_add_event seconds plan]
                  | None => []
                  end
              | None => []
              end) plans.

(** The call that makes a registration. *)
Definition registration_call (registration : Q * Reply) : Ev :=
  Scheduler_add_event (fst registration) (snd registration).

(** The calls that open a dispatch (lines 292-302). *)
Definition opening_calls (dev : Device) (payload : Payload) (reply : option Reply) :
    list Ev :=
  map Susi_ask (query_of payload) ++
  (if has_GPIO dev then [GPIO_output 27 true] else []) ++
  (if has_renderer dev
   then [Renderer_receive_message "speaking" (ReplyPayload reply)] else []).

(** A reply with two plans, the second without [plan_delay], and an answer. *)
Definition broken_plans : Reply :=
  mkReply (Some [alarm; stop_music]) None None None None (Some "done")
          None None None None.

(** The GPIO library refuses to drive line 27 low. *)
Definition gpio_busy : Env :=
  mkEnv (fun _ e => match e with
                    | GPIO_output 27 false => Some RuntimeError
                    | _ => None
                    end)
        (fun _ _ => no_reply) (fun _ => O)
        (fun _ _ => "what time is it") (fun _ => true).

(** The provider names [recognize_audio] knows (lines 231-251). *)
Definition known_stt (stt : string) : bool :=
  (stt =? "google") || (stt =? "watson") || (stt =? "pocket_sphinx") ||
  (stt =? "bing") || (stt =? "deepspeech-local").

(** The configuration names an STT provider [recognize_audio] does not know. *)
Definition kaldi : World := mkWorld [] [] "kaldi" "flite" "en" [].

(** ** The blocks before a block *)

(** The calls that open a dispatch: the query, GPIO line 27 set high, the
    renderer told "speaking" (lines 290-302). *)
Definition opens_dispatch (e : Ev) : Prop :=
  match e with
  | Susi_ask _ => True
  | GPIO_output pin level => pin = 27%Z /\ level = true
  | Renderer_receive_message message _ => message = "speaking"
  | _ => False
  end.

(** The calls the dispatch can make before it reaches the plans, and before
    it reaches the [stop] block (lines 290-347). *)
Definition before_plans (e : Ev) : Prop := opens_dispatch e.

Definition before_stop (e : Ev) : Prop :=
  opens_dispatch e \/ scheduler_calls e \/ volume_calls e \/ media_calls e.

(** The calls of the answer block: the lights and the TTS provider. *)
Definition answer_calls (e : Ev) : Prop :=
  match e with
  | Lights _ | TTS _ => True
  | _ => False
  end.

(** The calls the dispatch can make before it reaches the [identifier]
    block (lines 290-372). *)
Definition before_identifier (e : Ev) : Prop :=
  before_stop e \/ stop_calls e \/ answer_calls e.

(** ** Replies with planned actions *)

(** [reply] with the list [plans] under the key [planned_actions]. *)
Definition with_plans (plans : list Reply) (reply : Reply) : Reply :=
  mkReply (Some plans) (plan_delay reply) (volume reply) (media_action reply)
          (stop reply) (answer reply) (language reply) (identifier reply)
          (table reply) (rss reply).


Definition alarm_later : Reply :=
  mkReply None (Some 3500%Z) None None None (Some "LATER") (Some "en")
          None None None.

(** A reply with [stop] among many other fields. *)
Definition stop_and_more : Reply :=
  mkReply (Some [alarm; alarm_later]) None (Some "10") (Some "pause") (Some tt)
          (Some "Stopped") (Some "en") (Some "http://example/file.mp3")
          (Some (mkTable ["A"] [["1"]])) None.

(** Replies of the examples, each with a planned action that has no
    [plan_delay]. *)
Definition rewind_after_plan : Reply := with_plans [no_reply] rewind.
Definition champions_after_plan : Reply := with_plans [no_reply] champions.
Definition five_rows_after_plan : Reply := with_plans [no_reply] five_rows.

(** An answer and an identifier. *)
Definition announced : Reply :=
  mkReply None None None None None (Some "Playing") None
          (Some "http://example/file.mp3") None None.




(** A TTS provider [__speak] does not know is configured. *)
Definition boot_espeak : World := mkWorld [] [] "google" "espeak" "en" [].

(** GPIO line 27 cannot be set high. *)
Definition gpio_stuck : Env :=
  mkEnv (fun _ e => match e with
                    | GPIO_output 27 true => Some RuntimeError
                    | _ => None
                    end)
        (fun _ _ => no_reply) (fun _ => O)
        (fun _ _ => "what time is it") (fun _ => true).

(** * Reasoning principles *)

(** ** The division of line 312 *)

Section TrueDivision.

Local Open Scope Z_scope.

Lemma round_half_even_spec n d :
  0 < d -> 0 <= n ->
  2 * Z.abs (round_half_even n d * d - n) <= d.
Proof.
  intros Hd Hn. unfold round_half_even.
  pose proof (Z.div_mod n d ltac:(lia)) as Hdiv.
  pose proof (Z.mod_pos_bound n d Hd) as Hmod.
  destruct (2 * (n mod d) <? d) eqn:H1; [apply Z.ltb_lt in H1 | apply Z.ltb_ge in H1].
  - nia.
  - destruct (d <? 2 * (n mod d)) eqn:H2; [apply Z.ltb_lt in H2 | apply Z.ltb_ge in H2].
    + nia.
    + destruct (Z.even (n / d)); nia.
Qed.

Lemma round_half_even_exact k d : 0 < d -> round_half_even (k * d) d = k.
Proof.
  intros Hd. unfold round_half_even.
  rewrite Z.div_mul, Z.mod_mul by lia.
  replace (2 * 0 <? d) with true; [reflexivity |].
  symmetry. apply Z.ltb_lt. lia.
Qed.

Lemma round_half_even_between n d lo hi :
  0 < d -> lo * d <= n < hi * d ->
  lo <= round_half_even n d <= hi.
Proof.
  intros Hd [Hlo Hhi]. unfold round_half_even.
  assert (Hq : lo <= n / d < hi).
  { split.
    - apply Z.div_le_lower_bound; lia.
    - apply Z.div_lt_upper_bound; lia. }
  destruct (2 * (n mod d) <? d); [lia |].
  destruct (d <? 2 * (n mod d)); [lia |].
  destruct (Z.even (n / d)); lia.
Qed.

Lemma scaled_first_guess n b :
  0 < n -> 0 < b ->
  let e := Z.log2 n - Z.log2 b - 53 in
  2 ^ 52 * scaled_den b e < scaled_num n e < 2 ^ 54 * scaled_den b e.
Proof.
  intros Hn Hb e. unfold scaled_num, scaled_den.
  destruct (Z.log2_spec n Hn) as [Hn1 Hn2].
  destruct (Z.log2_spec b Hb) as [Hb1 Hb2].
  pose proof (Z.log2_nonneg n) as Hln. pose proof (Z.log2_nonneg b) as Hlb.
  rewrite Z.pow_succ_r in Hn2, Hb2 by assumption.
  destruct (Z_lt_le_dec e 0) as [He | He].
  - rewrite (Z.max_l 0 e), (Z.max_r 0 (- e)) by lia.
    assert (Heq : 2 ^ Z.log2 n * 2 ^ (- e) = 2 ^ Z.log2 b * 2 ^ 53).
    { rewrite <- !Z.pow_add_r by lia. f_equal. unfold e. lia. }
    assert (Hk : 0 < 2 ^ (- e)) by (apply Z.pow_pos_nonneg; lia).
    change (2 ^ 0) with 1. change (2 ^ 52) with 4503599627370496.
    change (2 ^ 53) with 9007199254740992 in Heq.
    change (2 ^ 54) with 18014398509481984.
    nia.
  - rewrite (Z.max_r 0 e), (Z.max_l 0 (- e)) by lia.
    assert (Heq : 2 ^ Z.log2 n = 2 ^ Z.log2 b * 2 ^ 53 * 2 ^ e).
    { rewrite <- !Z.pow_add_r by lia. f_equal. unfold e. lia. }
    assert (Hk : 0 < 2 ^ e) by (apply Z.pow_pos_nonneg; lia).
    change (2 ^ 0) with 1. change (2 ^ 52) with 4503599627370496.
    change (2 ^ 53) with 9007199254740992 in Heq.
    change (2 ^ 54) with 18014398509481984.
    nia.
Qed.

Lemma double_exponent_spec n b :
  0 < n -> 0 < b ->
  let e := double_exponent n b in
  2 ^ 52 * scaled_den b e <= scaled_num n e < 2 ^ 53 * scaled_den b e.
Proof.
  intros Hn Hb. pose proof (scaled_first_guess n b Hn Hb) as Hguess.
  unfold double_exponent. cbv zeta in *.
  set (e0 := Z.log2 n - Z.log2 b - 53) in *.
  destruct (scaled_num n e0 <? 2 ^ 53 * scaled_den b e0) eqn:Htest.
  - apply Z.ltb_lt in Htest. lia.
  - apply Z.ltb_ge in Htest. unfold scaled_num, scaled_den in *.
    destruct (Z_lt_le_dec e0 0) as [He | He].
    + rewrite (Z.max_l 0 e0), (Z.max_r 0 (- e0)) in * by lia.
      rewrite (Z.max_l 0 (e0 + 1)), (Z.max_r 0 (- (e0 + 1))) by lia.
      replace (- e0) with (Z.succ (- (e0 + 1))) in * by lia.
      rewrite Z.pow_succ_r in * by lia.
      change (2 ^ 52) with 4503599627370496 in *.
      change (2 ^ 53) with 9007199254740992 in *.
      change (2 ^ 54) with 18014398509481984 in *.
      lia.
    + rewrite (Z.max_r 0 e0), (Z.max_l 0 (- e0)) in * by lia.
      rewrite (Z.max_r 0 (e0 + 1)), (Z.max_l 0 (- (e0 + 1))) by lia.
      replace (e0 + 1) with (Z.succ e0) by lia.
      rewrite Z.pow_succ_r by lia.
      change (2 ^ 52) with 4503599627370496 in *.
      change (2 ^ 53) with 9007199254740992 in *.
      change (2 ^ 54) with 18014398509481984 in *.
      lia.
Qed.

Lemma dyadic_error (s m n U V : Z) :
  s = 1 \/ s = -1 -> 0 < U -> 0 < V ->
  2 * Z.abs (m * (1000 * U) - n * V) <= 1000 * U ->
  (Qabs (inject_Z (s * m) * (U # Z.to_pos V) - inject_Z (s * n) / 1000)
   <= (U # Z.to_pos V) * (1 # 2))%Q.
Proof.
  intros Hs HU HV Herr.
  apply Qabs_Qle_condition.
  unfold Qle, Qminus, Qplus, Qopp, Qdiv, Qmult, Qinv, inject_Z. simpl.
  rewrite !Pos2Z.inj_mul, !Z2Pos.id by assumption.
  assert (Hd : - (1000 * U) <= 2 * (m * (1000 * U) - n * V) <= 1000 * U) by lia.
  destruct Hs; subst s; nia.
Qed.

Lemma plan_seconds_nearest d q :
  plan_seconds d = Some q -> double_nearest (inject_Z d / 1000) q.
Proof.
  unfold plan_seconds, int_true_divide.
  destruct (d =? 0) eqn:Hzero.
  - apply Z.eqb_eq in Hzero. subst d. intros H. inversion H; subst.
    exists 0, 0. split; [left; split; reflexivity |].
    split; [reflexivity |]. split; [| reflexivity].
    vm_compute. discriminate.
  - apply Z.eqb_neq in Hzero.
    assert (Hn : 0 < Z.abs d) by lia.
    pose proof (double_exponent_spec (Z.abs d) 1000 Hn ltac:(lia)) as Hexp.
    cbv zeta in Hexp.
    set (e := double_exponent (Z.abs d) 1000) in *.
    assert (HU : 0 < 2 ^ Z.max 0 e) by (apply Z.pow_pos_nonneg; lia).
    assert (HV : 0 < 2 ^ Z.max 0 (- e)) by (apply Z.pow_pos_nonneg; lia).
    assert (Hden : 0 < scaled_den 1000 e) by (unfold scaled_den; lia).
    assert (Hnum : 0 <= scaled_num (Z.abs d) e) by (unfold scaled_num; nia).
    pose proof (round_half_even_spec _ _ Hden Hnum) as Herr.
    pose proof (round_half_even_between _ _ _ _ Hden Hexp) as Hm.
    set (m := round_half_even (scaled_num (Z.abs d) e) (scaled_den 1000 e)) in *.
    set (v := Qred _).
    destruct (2 ^ 1024 * 2 ^ Z.max 0 (- e) <=? m * 2 ^ Z.max 0 e) eqn:Hover;
      [discriminate |].
    apply Z.leb_gt in Hover.
    intros H. injection H as <-. subst v.
    assert (Hs : Z.sgn d = 1 \/ Z.sgn d = -1).
    { destruct (Z.sgn_spec d) as [[_ Hs] | [[Hs _] | [_ Hs]]]; [left | lia | right];
        exact Hs. }
    exists (Z.sgn d * m), e. split; [right | split; [| split]].
    + change (2 ^ 52) with 4503599627370496 in *.
      change (2 ^ 53) with 9007199254740992 in *.
      destruct Hs as [Hs | Hs]; rewrite Hs; lia.
    + exact (Qred_correct _).
    + setoid_rewrite Qred_correct.
      replace d with (Z.sgn d * Z.abs d) at 2
        by (destruct Hs as [Hs | Hs]; rewrite Hs; lia).
      apply dyadic_error; assumption.
    + setoid_rewrite Qred_correct.
      set (big := 2 ^ 1024) in *.
      apply Qabs_Qlt_condition.
      unfold Qlt, Qopp, Qmult, pow2, inject_Z. cbn [Qnum Qden Z.opp].
      rewrite !Pos2Z.inj_mul, !Z2Pos.id by assumption.
      destruct Hs as [Hs | Hs]; rewrite Hs; nia.
Qed.

Lemma plan_seconds_in_range d :
  Z.abs d < 2 ^ 1000 -> exists q, plan_seconds d = Some q.
Proof.
  intros Hd. unfold plan_seconds, int_true_divide.
  destruct (d =? 0) eqn:Hzero; [eexists; reflexivity |].
  apply Z.eqb_neq in Hzero.
  assert (Hn : 0 < Z.abs d) by lia.
  pose proof (double_exponent_spec (Z.abs d) 1000 Hn ltac:(lia)) as Hexp.
  cbv zeta in Hexp.
  set (e := double_exponent (Z.abs d) 1000) in *.
  assert (HU : 0 < 2 ^ Z.max 0 e) by (apply Z.pow_pos_nonneg; lia).
  assert (HV : 0 < 2 ^ Z.max 0 (- e)) by (apply Z.pow_pos_nonneg; lia).
  assert (Hden : 0 < scaled_den 1000 e) by (unfold scaled_den; lia).
  pose proof (round_half_even_between _ _ _ _ Hden Hexp) as Hm.
  set (m := round_half_even (scaled_num (Z.abs d) e) (scaled_den 1000 e)) in *.
  set (v := Qred _).
  destruct (2 ^ 1024 * 2 ^ Z.max 0 (- e) <=? m * 2 ^ Z.max 0 e) eqn:Hover;
    [| eexists; reflexivity].
  exfalso. apply Z.leb_le in Hover.
  unfold scaled_num, scaled_den in Hexp.
  destruct (Z_lt_le_dec e 0) as [He | He].
  - rewrite (Z.max_l 0 e), (Z.max_r 0 (- e)) in * by lia.
    change (2 ^ 0) with 1 in *.
    assert (Hbig : 2 ^ 53 < 2 ^ 1024) by (apply Z.pow_lt_mono_r; lia).
    nia.
  - rewrite (Z.max_r 0 e), (Z.max_l 0 (- e)) in * by lia.
    change (2 ^ 0) with 1 in *.
    assert (He' : e < 948).
    { destruct (Z_lt_le_dec e 948) as [Hlt | Hge]; [exact Hlt | exfalso].
      assert (H948 : 2 ^ 948 <= 2 ^ e) by (apply Z.pow_le_mono_r; lia).
      assert (Hsplit : 2 ^ 1000 = 2 ^ 52 * 2 ^ 948)
        by (rewrite <- Z.pow_add_r by lia; reflexivity).
      assert (Hp : 0 < 2 ^ 52) by (apply Z.pow_pos_nonneg; lia).
      nia. }
    assert (Hle : 2 ^ e <= 2 ^ 947) by (apply Z.pow_le_mono_r; lia).
    assert (Hsplit : 2 ^ 1024 = 2 ^ 53 * 2 ^ 947 * 2 ^ 24)
      by (rewrite <- !Z.pow_add_r by lia; reflexivity).
    assert (Hp1 : 0 < 2 ^ 53) by (apply Z.pow_pos_nonneg; lia).
    assert (Hp2 : 0 < 2 ^ 947) by (apply Z.pow_pos_nonneg; lia).
    assert (Hp3 : 1 < 2 ^ 24) by (apply Z.pow_gt_1; lia).
    nia.
Qed.

Lemma Qred_inject_Z z : Qred (inject_Z z) = inject_Z z.
Proof.
  unfold Qred, inject_Z.
  pose proof (Z.ggcd_gcd z 1) as Hg.
  pose proof (Z.ggcd_correct_divisors z 1) as Hd.
  destruct (Z.ggcd z 1) as [g [aa bb]]. simpl in *.
  rewrite Z.gcd_1_r in Hg. subst g. destruct Hd as [Ha Hb].
  replace aa with z by lia. replace bb with 1 by lia. reflexivity.
Qed.

Lemma plan_seconds_whole s :
  Z.abs s < 2 ^ 53 -> plan_seconds (1000 * s) = Some (inject_Z s).
Proof.
  intros Hs. unfold plan_seconds, int_true_divide.
  destruct (1000 * s =? 0) eqn:Hzero.
  { apply Z.eqb_eq in Hzero. replace s with 0 by lia. reflexivity. }
  apply Z.eqb_neq in Hzero.
  assert (Hn : 0 < Z.abs (1000 * s)) by lia.
  pose proof (double_exponent_spec (Z.abs (1000 * s)) 1000 Hn ltac:(lia)) as Hexp.
  cbv zeta in Hexp.
  set (e := double_exponent (Z.abs (1000 * s)) 1000) in *.
  assert (HV : 0 < 2 ^ Z.max 0 (- e)) by (apply Z.pow_pos_nonneg; lia).
  unfold scaled_num, scaled_den in *.
  assert (He : e <= 0).
  { destruct (Z_lt_le_dec 0 e) as [Hpos | Hle]; [exfalso | exact Hle].
    rewrite (Z.max_r 0 e), (Z.max_l 0 (- e)) in * by lia.
    change (2 ^ 0) with 1 in *.
    assert (H2 : 2 ^ 1 <= 2 ^ e) by (apply Z.pow_le_mono_r; lia).
    change (2 ^ 1) with 2 in H2.
    change (2 ^ 52) with 4503599627370496 in *.
    change (2 ^ 53) with 9007199254740992 in *.
    lia. }
  rewrite (Z.max_l 0 e), (Z.max_r 0 (- e)) in * by lia.
  change (2 ^ 0) with 1 in *. rewrite Z.mul_1_r in *.
  replace (Z.abs (1000 * s) * 2 ^ (- e)) with ((Z.abs s * 2 ^ (- e)) * 1000) by lia.
  rewrite round_half_even_exact by lia.
  replace (2 ^ 1024 * 2 ^ (- e) <=? Z.abs s * 2 ^ (- e)) with false.
  2:{ symmetry. apply Z.leb_gt.
      assert (Hbig : 2 ^ 53 < 2 ^ 1024) by (apply Z.pow_lt_mono_r; lia). nia. }
  f_equal.
  rewrite <- (Qred_inject_Z s).
  apply Qred_complete.
  unfold pow2. rewrite (Z.max_l 0 e), (Z.max_r 0 (- e)) by lia.
  unfold Qeq, Qmult, inject_Z. cbn [Qnum Qden].
  rewrite !Pos2Z.inj_mul, !Z2Pos.id by assumption.
  change (2 ^ 0) with 1.
  assert (Hsgn : Z.sgn (1000 * s) * Z.abs s = s).
  { destruct (Z.sgn_spec (1000 * s)) as [[H1 H2] | [[H1 H2] | [H1 H2]]];
      rewrite H2; lia. }
  nia.
Qed.

End TrueDivision.

(** What line 312 hands to the scheduler for a plan. *)
Lemma plan_seconds_registered plan delay_ms seconds :
  plan_delay plan = Some delay_ms ->
  plan_seconds delay_ms = Some seconds ->
  registered (seconds, plan) plan.
Proof.
  intros Hd Hs. split; [reflexivity |]. exists delay_ms.
  split; [exact Hd |]. split.
  - apply plan_seconds_nearest. exact Hs.
  - intros whole -> Hwhole. rewrite (plan_seconds_whole whole Hwhole) in Hs.
    inversion Hs. reflexivity.
Qed.

Lemma schedulable_seconds plan :
  schedulable plan ->
  exists delay_ms seconds,
    plan_delay plan = Some delay_ms /\ plan_seconds delay_ms = Some seconds.
Proof.
  intros (delay_ms & Hd & Hrange).
  destruct (plan_seconds_in_range delay_ms Hrange) as [seconds Hs].
  exists delay_ms, seconds. split; assumption.
Qed.

(** ** Running a computation *)

Lemma bind_Ret_inv {A B} (m : M A) (k : A -> M B) w b w' :
  bind m k w = (Ret b, w') ->
  exists a w1, m w = (Ret a, w1) /\ k a w1 = (Ret b, w').
Proof.
  unfold bind. destruct (m w) as [[a | e] w1]; intros H.
  - exists a, w1. split; [reflexivity | exact H].
  - discriminate H.
Qed.

Lemma new_calls_app w w' l : trace w' = trace w ++ l -> new_calls w w' = l.
Proof.
  intros H. unfold new_calls. rewrite H.
  rewrite skipn_app, skipn_all, Nat.sub_diag. reflexivity.
Qed.

(** ** Frames: which calls a computation may make *)

Section Frames.

Variable allowed : Ev -> Prop.

Lemma frames_ret {A} (a : A) : frames allowed (ret a).
Proof. intros I HI w Hw. exact Hw. Qed.

Lemma frames_raise {A} (e : Exn) : frames allowed (@raise A e).
Proof. intros I HI w Hw. exact Hw. Qed.

Lemma frames_gets {A} (f : World -> A) : frames allowed (gets f).
Proof. intros I HI w Hw. exact Hw. Qed.

Lemma frames_bind {A B} (m : M A) (k : A -> M B) :
  frames allowed m -> (forall a, frames allowed (k a)) -> frames allowed (bind m k).
Proof.
  intros Hm Hk I HI w Hw. unfold bind.
  specialize (Hm I HI w Hw).
  destruct (m w) as [[a | e] w1]; simpl in *.
  - apply (Hk a I HI w1 Hm).
  - exact Hm.
Qed.

Lemma frames_try_except {A} (m : M A) (handler : Exn -> option (M A)) :
  frames allowed m ->
  (forall e h, handler e = Some h -> frames allowed h) ->
  frames allowed (try_except m handler).
Proof.
  intros Hm Hh I HI w Hw. unfold try_except.
  specialize (Hm I HI w Hw).
  destruct (m w) as [[a | e] w1]; simpl in *.
  - exact Hm.
  - destruct (handler e) as [h |] eqn:He.
    + apply (Hh e h He I HI w1 Hm).
    + exact Hm.
Qed.

Lemma frames_with_context {A} (enter leave : M unit) (body : M A) :
  frames allowed enter -> frames allowed leave -> frames allowed body ->
  frames allowed (with_context enter leave body).
Proof.
  intros He Hl Hb I HI w Hw. unfold with_context.
  specialize (He I HI w Hw).
  destruct (enter w) as [[[] | e] w1]; simpl in *.
  - specialize (Hb I HI w1 He).
    destruct (body w1) as [r w2]; simpl in *.
    specialize (Hl I HI w2 Hb).
    destruct (leave w2) as [[[] | e] w3]; simpl in *; exact Hl.
  - exact He.
Qed.

Lemma frames_for_each {A} (l : list A) (f : A -> M unit) :
  (forall x, In x l -> frames allowed (f x)) -> frames allowed (for_each l f).
Proof.
  induction l as [| x l IH]; intros Hf; simpl.
  - apply frames_ret.
  - apply frames_bind.
    + apply Hf. left. reflexivity.
    + intros _. apply IH. intros y Hy. apply Hf. right. exact Hy.
Qed.

Lemma frames_when (b : bool) (m : M unit) : frames allowed m -> frames allowed (when b m).
Proof. intros Hm. destruct b; simpl; [exact Hm | apply frames_ret]. Qed.

Lemma frames_logger lvl msg : frames allowed (logger lvl msg).
Proof. intros I HI w Hw. simpl. apply (stable_log _ _ HI). exact Hw. Qed.

Lemma frames_print line : frames allowed (print line).
Proof. apply frames_logger. Qed.

Lemma frames_set_google : frames allowed (modify (with_default_stt "google")).
Proof. intros I HI w Hw. simpl. apply (stable_stt _ _ HI). exact Hw. Qed.

Lemma frames_set_language s : frames allowed (modify (with_language s)).
Proof. intros I HI w Hw. simpl. apply (stable_language _ _ HI). exact Hw. Qed.

Lemma frames_set_queue (f : World -> list Payload) :
  frames allowed (modify (fun w => with_queue (f w) w)).
Proof. intros I HI w Hw. simpl. apply (stable_queue _ _ HI). exact Hw. Qed.

Lemma frames_call_for env {A} (e : Ev) (result : list Ev -> A) :
  allowed e -> frames allowed (call_for env e result).
Proof.
  intros He I HI w Hw. unfold call_for.
  destruct (raises env (trace w) e); simpl; apply (stable_call _ _ HI); assumption.
Qed.

Lemma frames_call env (e : Ev) : allowed e -> frames allowed (call env e).
Proof. apply frames_call_for. Qed.

End Frames.

Lemma frames_weaken (A1 A2 : Ev -> Prop) {T} (m : M T) :
  (forall e, A1 e -> A2 e) -> frames A1 m -> frames A2 m.
Proof.
  intros Hsub Hm I HI w Hw. apply Hm; [| exact Hw].
  destruct HI as [Hc Hl Hs Hla Hq].
  constructor; auto.
Qed.

(** What a frame gives: every call made is an allowed one, ... *)
Lemma frames_calls (allowed : Ev -> Prop) {T} (m : M T) w :
  frames allowed m ->
  exists l, trace (snd (m w)) = trace w ++ l /\ Forall allowed l.
Proof.
  intros Hm.
  apply (Hm (fun w' => exists l, trace w' = trace w ++ l /\ Forall allowed l)).
  - constructor; simpl; try (intros; assumption).
    intros e w1 He [l [Hl Hall]]. exists (l ++ [e]). split.
    + rewrite Hl, app_assoc. reflexivity.
    + apply Forall_app. split; [exact Hall | constructor; [exact He | constructor]].
  - exists []. split; [symmetry; apply app_nil_r | constructor].
Qed.

(** ... the TTS provider is left alone, ... *)
Lemma frames_default_tts (allowed : Ev -> Prop) {T} (m : M T) w :
  frames allowed m -> default_tts (snd (m w)) = default_tts w.
Proof.
  intros Hm.
  apply (Hm (fun w' => default_tts w' = default_tts w)).
  - constructor; simpl; intros; assumption.
  - reflexivity.
Qed.

(** ... and an STT provider that is ["google"] stays so. *)
Lemma frames_google (allowed : Ev -> Prop) {T} (m : M T) w :
  frames allowed m ->
  default_stt w = "google" -> default_stt (snd (m w)) = "google".
Proof.
  intros Hm. apply (Hm (fun w' => default_stt w' = "google")).
  constructor; simpl; intros; try assumption; reflexivity.
Qed.

Lemma frames_run (allowed : Ev -> Prop) {T} (m : M T) w r w' :
  frames allowed m -> m w = (r, w') ->
  exists l, trace w' = trace w ++ l /\ Forall allowed l.
Proof.
  intros Hm Hrun. destruct (frames_calls allowed m w Hm) as [l Hl].
  rewrite Hrun in Hl. exists l. exact Hl.
Qed.

Ltac frames_tac :=
  repeat first
    [ apply frames_ret | apply frames_raise | apply frames_gets
    | apply frames_logger | apply frames_print
    | apply frames_set_google | apply frames_set_language
    | apply frames_set_queue
    | apply frames_bind; [| intros ?]
    | apply frames_when
    | apply frames_call
    | apply frames_call_for
    | match goal with
      | |- frames _ (if ?b then _ else _) => destruct b
      | |- frames _ (match ?x with _ => _ end) => destruct x
      end ].

(** ** What each block of the dispatch may call *)

Section DispatchFrames.

Variable env : Env.
Variable dev : Device.

Lemma speak_frames text : frames (says [text]) (__speak env text).
Proof. unfold __speak. frames_tac; simpl; auto. Qed.

Lemma open_dispatch_frames payload :
  frames preamble_calls (open_dispatch env dev payload).
Proof.
  unfold open_dispatch, obtain_reply.
  destruct payload; frames_tac; simpl; auto.
Qed.

Lemma dispatch_planned_actions_frames reply :
  frames scheduler_calls (dispatch_planned_actions env reply).
Proof.
  unfold dispatch_planned_actions. destruct (planned_actions reply); frames_tac.
  apply frames_for_each. intros plan _. unfold schedule_plan.
  frames_tac; simpl; auto.
Qed.

Lemma dispatch_volume_frames reply nan :
  frames volume_calls (dispatch_volume env reply nan).
Proof. unfold dispatch_volume. frames_tac; simpl; auto. Qed.

Lemma dispatch_media_action_frames reply nan :
  frames media_calls (dispatch_media_action env reply nan).
Proof. unfold dispatch_media_action. frames_tac; simpl; auto. Qed.

Lemma dispatch_stop_frames reply nan :
  frames stop_calls (dispatch_stop env reply nan).
Proof. unfold dispatch_stop. frames_tac; reflexivity. Qed.

Lemma dispatch_answer_frames reply nan :
  frames (lights_or_says (lead_speech reply nan)) (dispatch_answer env reply nan).
Proof.
  unfold dispatch_answer, lead_speech.
  destruct (answer reply) as [text |].
  - frames_tac; simpl; auto.
  - destruct (negb nan && negb (has_key (identifier reply)));
      frames_tac; simpl; auto.
Qed.

Lemma dispatch_language_frames reply :
  frames (fun _ => False) (dispatch_language reply).
Proof. unfold dispatch_language. frames_tac. Qed.

Lemma dispatch_identifier_frames reply :
  frames play_calls (dispatch_identifier env reply).
Proof. unfold dispatch_identifier. frames_tac; simpl; auto. Qed.

Lemma speak_each_frames {A} (texts : list A) (f : A -> string) (before : A -> M unit) :
  (forall x, frames (fun _ => False) (before x)) ->
  frames (says (map f texts)) (for_each texts (fun x => before x ;; __speak env (f x))).
Proof.
  intros Hb. apply frames_for_each. intros x Hx. apply frames_bind.
  - apply frames_weaken with (A1 := fun _ => False); [tauto | apply Hb].
  - intros _. apply frames_weaken with (A1 := says [f x]); [| apply speak_frames].
    intros []; simpl; try tauto. intros [<- | []]. apply in_map. exact Hx.
Qed.

Lemma dispatch_table_frames reply :
  frames (says (table_speech reply)) (dispatch_table env reply).
Proof.
  unfold dispatch_table, table_speech. destruct (table reply) as [t |]; frames_tac.
  - apply frames_weaken with (A1 := says (map (fun h => h) (head t))).
    + rewrite map_id. intros []; simpl; try tauto. intros H.
      apply in_or_app. left. exact H.
    + apply speak_each_frames. intros x. apply frames_print.
  - apply frames_for_each. intros datum Hd. frames_tac.
    apply frames_weaken with (A1 := says (map (fun v => v) datum)).
    + rewrite map_id. intros []; simpl; try tauto. intros H.
      apply in_or_app. right. apply in_concat. exists datum. split; assumption.
    + apply speak_each_frames. intros x. apply frames_print.
Qed.

Lemma dispatch_rss_frames reply :
  frames (says (rss_speech reply)) (dispatch_rss env reply).
Proof.
  unfold dispatch_rss, rss_speech. destruct (rss reply) as [feed |]; frames_tac.
  apply speak_each_frames. intros x. apply frames_logger.
Qed.

End DispatchFrames.

(** ** Whole methods: they only record calls, log, and update the settings *)

Lemma frames_any (allowed : Ev -> Prop) {T} (m : M T) :
  frames allowed m -> frames any_call m.
Proof. apply frames_weaken. intros e _. exact I. Qed.

Section MethodFrames.

Variable env : Env.
Variable dev : Device.

Lemma recognize_audio_frames audio : frames any_call (recognize_audio env dev audio).
Proof. unfold recognize_audio, recognize, internet_on. frames_tac; exact I. Qed.


Lemma deal_with_answer_try_frames payload :
  frames any_call (deal_with_answer_try env dev payload).
Proof.
  unfold deal_with_answer_try.
  apply frames_bind; [apply (frames_any _ _ (open_dispatch_frames env dev payload)) |].
  intros [reply |]; [| apply frames_raise].
  apply frames_bind; [apply (frames_any _ _ (dispatch_planned_actions_frames env reply)) |].
  intros _.
  apply frames_bind; [apply (frames_any _ _ (dispatch_volume_frames env reply false)) |].
  intros n1.
  apply frames_bind; [apply (frames_any _ _ (dispatch_media_action_frames env reply n1)) |].
  intros n2.
  apply frames_bind; [apply (frames_any _ _ (dispatch_stop_frames env reply n2)) |].
  intros n3.
  apply frames_bind; [apply (frames_any _ _ (dispatch_answer_frames env reply n3)) |].
  intros _.
  apply frames_bind; [apply (frames_any _ _ (dispatch_language_frames reply)) |].
  intros _.
  apply frames_bind; [apply (frames_any _ _ (dispatch_identifier_frames env reply)) |].
  intros _.
  apply frames_bind; [apply (frames_any _ _ (dispatch_table_frames env reply)) |].
  intros _.
  apply frames_bind; [apply (frames_any _ _ (dispatch_rss_frames env reply)) |].
  intros _. apply frames_ret.
Qed.

Lemma deal_with_answer_frames payload :
  frames any_call (deal_with_answer env dev payload).
Proof.
  unfold deal_with_answer. apply frames_try_except.
  - apply deal_with_answer_try_frames.
  - intros e h He. unfold deal_with_answer_except in He.
    destruct e; simpl in He; inversion He; subst; unfold to_error; frames_tac.
Qed.

Lemma capture_frames : frames any_call (capture env dev).
Proof.
  unfold capture. apply frames_with_context; try (apply frames_call; exact I).
  apply frames_try_except.
  - unfold listen. frames_tac. exact I.
  - intros e h He. destruct e; inversion He; subst.
    frames_tac; exact I.
Qed.

Lemma recognize_and_answer_frames audio :
  frames any_call (recognize_and_answer env dev audio).
Proof.
  unfold recognize_and_answer. apply frames_try_except.
  - apply frames_bind; [apply frames_logger |]. intros _.
    apply frames_bind; [apply recognize_audio_frames |]. intros value.
    apply frames_bind; [apply frames_logger |]. intros _.
    apply frames_bind; [unfold notify_renderer; frames_tac; exact I |]. intros _.
    apply frames_bind; [apply deal_with_answer_frames |]. intros ok.
    destruct ok; frames_tac.
  - intros e h He. destruct e; inversion He; subst.
    frames_tac; exact I.
Qed.

Lemma hotword_detected_callback_frames :
  frames any_call (hotword_detected_callback env dev).
Proof.
  unfold hotword_detected_callback, stop_detector, GPIO_if_present, notify_renderer.
  do 6 (apply frames_bind; [frames_tac; exact I | intros ?]).
  apply frames_bind; [apply capture_frames |]. intros captured.
  destruct captured as [audio |]; [| apply frames_ret].
  do 3 (apply frames_bind; [frames_tac; exact I | intros ?]).
  apply recognize_and_answer_frames.
Qed.

Lemma restore_baseline_frames : frames any_call (restore_baseline env dev).
Proof.
  unfold restore_baseline. frames_tac; try exact I.
  apply frames_try_except.
  - frames_tac; exact I.
  - intros e h He. destruct e; inversion He; subst. apply frames_ret.
Qed.

Lemma handle_trigger_frames : frames any_call (handle_trigger env dev).
Proof.
  unfold handle_trigger. apply frames_bind; [apply frames_logger |]. intros _.
  apply frames_bind; [apply frames_gets |]. intros queue.
  destruct queue as [| ev rest].
  - unfold start_detector. apply frames_bind; [apply frames_call; exact I |].
    intros _. apply hotword_detected_callback_frames.
  - apply frames_bind; [apply frames_set_queue with (f := fun _ => rest) |].
    intros _. apply frames_bind; [apply deal_with_answer_frames |].
    intros _. apply frames_ret.
Qed.

Lemma start_cycle_frames : frames any_call (start_cycle env dev).
Proof.
  unfold start_cycle. apply frames_bind; [apply handle_trigger_frames |].
  intros _. apply frames_bind; [apply frames_logger |].
  intros _. apply restore_baseline_frames.
Qed.

Lemma start_frames turns : frames any_call (start env dev turns).
Proof.
  induction turns as [| n IH]; simpl.
  - apply frames_ret.
  - apply frames_bind; [apply start_cycle_frames | intros _; exact IH].
Qed.

End MethodFrames.

(** ** Composing observations *)

Lemma heard_app tts l1 l2 : heard tts (l1 ++ l2) = heard tts l1 ++ heard tts l2.
Proof. unfold heard. destruct (known_tts tts); reflexivity. Qed.

Lemma adds_refl {X} (obs : Ev -> list X) w : adds obs w w [].
Proof. unfold adds. symmetry. apply app_nil_r. Qed.

Lemma adds_trans {X} (obs : Ev -> list X) w1 w2 w3 xs ys :
  adds obs w1 w2 xs -> adds obs w2 w3 ys -> adds obs w1 w3 (xs ++ ys).
Proof. unfold adds. intros H1 H2. rewrite H2, H1, app_assoc. reflexivity. Qed.

Lemma adds_call {X} (obs : Ev -> list X) e w : adds obs w (record_call e w) (obs e).
Proof. unfold adds. simpl. rewrite flat_map_app. simpl. rewrite app_nil_r. reflexivity. Qed.

Lemma adds_new_calls {X} (obs : Ev -> list X) w w' xs l :
  trace w' = trace w ++ l -> adds obs w w' xs -> flat_map obs l = xs.
Proof.
  unfold adds. intros Hl H. rewrite Hl, flat_map_app in H.
  apply app_inv_head in H. exact H.
Qed.

Lemma silent_calls {X} (obs : Ev -> list X) l :
  Forall (fun e => obs e = []) l -> flat_map obs l = [].
Proof.
  induction 1 as [| e l He _ IH]; simpl; [reflexivity |].
  rewrite He, IH. reflexivity.
Qed.

Lemma adds_silent {X} (obs : Ev -> list X) (allowed : Ev -> Prop) {T} (m : M T) w r w' :
  frames allowed m -> (forall e, allowed e -> obs e = []) ->
  m w = (r, w') -> adds obs w w' [].
Proof.
  intros Hm Hsub Hrun.
  destruct (frames_run _ m w r w' (frames_weaken _ _ m Hsub Hm) Hrun) as [l [Hl Hall]].
  unfold adds. rewrite Hl, flat_map_app, (silent_calls obs l Hall). reflexivity.
Qed.

Lemma frames_run_tts (allowed : Ev -> Prop) {T} (m : M T) w r w' :
  frames allowed m -> m w = (r, w') -> default_tts w' = default_tts w.
Proof.
  intros Hm Hrun. generalize (frames_default_tts allowed m w Hm). rewrite Hrun. auto.
Qed.

Lemma frames_new_calls (allowed : Ev -> Prop) {T} (m : M T) w r w' :
  frames allowed m -> m w = (r, w') ->
  trace w' = trace w ++ new_calls w w' /\ Forall allowed (new_calls w w').
Proof.
  intros Hm Hrun. destruct (frames_run allowed m w r w' Hm Hrun) as [l [Hl Hall]].
  rewrite (new_calls_app w w' l Hl). split; assumption.
Qed.

(** ** What a run of each block adds *)

Ltac by_kind :=
  let e := fresh "e" in
  intros e; destruct e as [[] | [] | [] | [] | | | | | | | | | |];
  simpl; intros; try reflexivity; try contradiction; try discriminate.

Lemma speech_refl w : speech w w [].
Proof.
  split; [| reflexivity]. unfold heard. destruct (known_tts _); apply adds_refl.
Qed.

Lemma speech_trans {w1 w2 w3 xs ys} :
  speech w1 w2 xs -> speech w2 w3 ys -> speech w1 w3 (xs ++ ys).
Proof.
  intros [H1 T1] [H2 T2]. split.
  - rewrite heard_app. rewrite T1 in H2. apply (adds_trans _ _ _ _ _ _ H1 H2).
  - rewrite T2. exact T1.
Qed.

Lemma speech_silent {allowed : Ev -> Prop} {T} {m : M T} {w r w'} :
  frames allowed m -> m w = (r, w') ->
  (forall e, allowed e -> spoken_by e = []) ->
  speech w w' [].
Proof.
  intros Hm Hrun Hsub. split.
  - unfold heard. destruct (known_tts _); apply (adds_silent spoken_by _ _ _ _ _ Hm Hsub Hrun).
  - apply (frames_run_tts _ _ _ _ _ Hm Hrun).
Qed.

Section DispatchRuns.

Variable env : Env.
Variable dev : Device.

Ltac run_out H Eq :=
  repeat (simpl in H; rewrite ?Eq in H);
  inversion H; subst; clear H; simpl;
  rewrite ?flat_map_app, ?app_nil_r; reflexivity.

Lemma speak_adds {text w r w'} :
  __speak env text w = (r, w') ->
  adds spoken_by w w' (heard (default_tts w) [text]).
Proof.
  unfold __speak, bind, gets, when, call, call_for, logger, modify, ret, heard,
    known_tts, adds.
  simpl.
  destruct (default_tts w =? "google") eqn:Eg.
  - apply String.eqb_eq in Eg. rewrite Eg. simpl.
    destruct (raises env (trace w) _); intros H; run_out H Eg.
  - simpl. destruct (default_tts w =? "flite") eqn:Ef; simpl.
    + destruct (raises env (trace w) _); intros H; run_out H Ef.
    + destruct (default_tts w =? "watson") eqn:Ew; simpl.
      * destruct (raises env (trace w) _); intros H; run_out H Ew.
      * intros H; run_out H Ew.
Qed.

Lemma speak_speech {text w r w'} :
  __speak env text w = (r, w') -> speech w w' [text].
Proof.
  intros H. split.
  - apply (speak_adds H).
  - apply (frames_run_tts _ _ _ _ _ (speak_frames env text) H).
Qed.

Lemma call_speech {op w r w'} :
  call env (Lights op) w = (r, w') -> speech w w' [].
Proof.
  intros H. apply (speech_silent (allowed := fun e => exists o, e = Lights o)
                     (frames_call _ env _ (ex_intro _ op eq_refl)) H).
  intros e [o ->]. reflexivity.
Qed.

Lemma logger_speech {lvl msg w r w'} :
  logger lvl msg w = (r, w') -> speech w w' [].
Proof.
  intros H. apply (speech_silent (frames_logger (fun _ => False) lvl msg) H).
  tauto.
Qed.

Lemma for_each_speech {A} (l : list A) (f : A -> M unit) (g : A -> list string) :
  (forall x w w', f x w = (Ret tt, w') -> speech w w' (g x)) ->
  forall w w', for_each l f w = (Ret tt, w') -> speech w w' (flat_map g l).
Proof.
  intros Hf. induction l as [| x l IH]; intros w w' H; simpl in H.
  - inversion H; subst. apply speech_refl.
  - apply bind_Ret_inv in H. destruct H as ([] & w1 & H1 & H2).
    simpl. apply (speech_trans (w2 := w1)).
    + apply (Hf x _ _ H1).
    + apply (IH _ _ H2).
Qed.

Lemma flat_map_singleton {A} (l : list A) : flat_map (fun x => [x]) l = l.
Proof. induction l as [| x l IH]; simpl; [| rewrite IH]; reflexivity. Qed.

Lemma speak_after_speech {before : M unit} {text w w'} :
  frames (fun _ => False) before ->
  (before ;; __speak env text) w = (Ret tt, w') -> speech w w' [text].
Proof.
  intros Hb H. apply bind_Ret_inv in H. destruct H as ([] & w1 & H1 & H2).
  apply (speech_trans (xs := []) (ys := [text]) (w2 := w1)).
  - apply (speech_silent Hb H1). tauto.
  - apply (speak_speech H2).
Qed.

Lemma dispatch_answer_speech reply nan w w' :
  dispatch_answer env reply nan w = (Ret tt, w') ->
  speech w w' (lead_speech reply nan).
Proof.
  unfold dispatch_answer, lead_speech. destruct (answer reply) as [text |].
  - intros H.
    apply bind_Ret_inv in H. destruct H as ([] & w1 & H1 & H).
    apply bind_Ret_inv in H. destruct H as ([] & w2 & H2 & H).
    apply bind_Ret_inv in H. destruct H as ([] & w3 & H3 & H).
    apply bind_Ret_inv in H. destruct H as ([] & w4 & H4 & H5).
    apply (speech_trans (logger_speech H1)).
    apply (speech_trans (call_speech H2)).
    apply (speech_trans (call_speech H3)).
    apply (speech_trans (xs := [text]) (ys := []) (speak_speech H4)).
    apply (call_speech H5).
  - destruct (negb nan && negb (has_key (identifier reply))).
    + intros H.
      apply bind_Ret_inv in H. destruct H as ([] & w2 & H2 & H).
      apply bind_Ret_inv in H. destruct H as ([] & w3 & H3 & H).
      apply bind_Ret_inv in H. destruct H as ([] & w4 & H4 & H5).
      apply (speech_trans (call_speech H2)).
      apply (speech_trans (call_speech H3)).
      apply (speech_trans (xs := [fallback_phrase]) (ys := []) (speak_speech H4)).
      apply (call_speech H5).
    + intros H. inversion H; subst. apply speech_refl.
Qed.

Lemma speak_cells_speech (cells : list string) w w' :
  for_each cells (fun value => print value ;; __speak env value) w = (Ret tt, w') ->
  speech w w' cells.
Proof.
  intros H. rewrite <- (flat_map_singleton cells).
  revert H. apply (for_each_speech cells _ (fun h => [h])).
  intros x v v'. apply speak_after_speech. apply frames_print.
Qed.

Lemma dispatch_table_speech reply w w' :
  dispatch_table env reply w = (Ret tt, w') ->
  speech w w' (table_speech reply).
Proof.
  unfold dispatch_table, table_speech. destruct (table reply) as [t |].
  - intros H.
    apply bind_Ret_inv in H. destruct H as ([] & w1 & H1 & H).
    apply bind_Ret_inv in H. destruct H as ([] & w2 & H2 & H3).
    assert (S1 : speech w w1 (head t)) by apply (speak_cells_speech _ _ _ H1).
    assert (S2 : speech w1 w2 []) by apply (logger_speech H2).
    assert (S3 : speech w2 w' (concat (firstn 4 (data t)))).
    { rewrite <- (map_id (firstn 4 (data t))), <- flat_map_concat_map.
      revert H3. apply (for_each_speech _ _ (fun datum : list string => datum)).
      intros datum v v' Hd.
      apply bind_Ret_inv in Hd. destruct Hd as ([] & v1 & Hd1 & Hd2).
      rewrite <- (app_nil_r datum).
      exact (speech_trans (speak_cells_speech _ _ _ Hd1) (logger_speech Hd2)). }
    exact (speech_trans S1 (speech_trans S2 S3)).
  - intros H. inversion H; subst. apply speech_refl.
Qed.

Lemma dispatch_rss_speech reply w w' :
  dispatch_rss env reply w = (Ret tt, w') ->
  speech w w' (rss_speech reply).
Proof.
  unfold dispatch_rss, rss_speech. destruct (rss reply) as [feed |].
  - intros H. rewrite <- flat_map_singleton, flat_map_concat_map, map_map,
      <- flat_map_concat_map.
    revert H. apply (for_each_speech _ _ (fun entity => [title entity])).
    intros x v v'. apply speak_after_speech. apply frames_logger.
  - intros H. inversion H; subst. apply speech_refl.
Qed.

End DispatchRuns.

(** ** A dispatch that returns [True] ran every block *)

Ltac ret_inv H :=
  repeat (apply bind_Ret_inv in H; destruct H as (? & ? & _ & H));
  inversion H; subst; clear H.

Section DispatchChain.

Variable env : Env.
Variable dev : Device.

Lemma dispatch_volume_value reply nan w a w' :
  dispatch_volume env reply nan w = (Ret a, w') ->
  a = nan || has_key (volume reply).
Proof.
  unfold dispatch_volume. destruct (volume reply); simpl; intros H; ret_inv H.
  - symmetry. apply orb_true_r.
  - symmetry. apply orb_false_r.
Qed.

Lemma dispatch_media_action_value reply nan w a w' :
  dispatch_media_action env reply nan w = (Ret a, w') ->
  a = nan || recognized_media (media_action reply).
Proof.
  unfold dispatch_media_action, recognized_media.
  destruct (media_action reply) as [action |]; simpl.
  - destruct (action =? "pause"); [intros H; ret_inv H; symmetry; apply orb_true_r |].
    destruct (action =? "resume"); [intros H; ret_inv H; symmetry; apply orb_true_r |].
    destruct (action =? "restart"); [intros H; ret_inv H; symmetry; apply orb_true_r |].
    destruct (action =? "next"); [intros H; ret_inv H; symmetry; apply orb_true_r |].
    destruct (action =? "previous"); [intros H; ret_inv H; symmetry; apply orb_true_r |].
    destruct (action =? "shuffle"); [intros H; ret_inv H; symmetry; apply orb_true_r |].
    intros H; ret_inv H. symmetry. apply orb_false_r.
  - intros H; ret_inv H. symmetry. apply orb_false_r.
Qed.

Lemma dispatch_stop_value reply nan w a w' :
  dispatch_stop env reply nan w = (Ret a, w') ->
  a = nan || has_key (stop reply).
Proof.
  unfold dispatch_stop. destruct (stop reply); simpl; intros H; ret_inv H.
  - symmetry. apply orb_true_r.
  - symmetry. apply orb_false_r.
Qed.

Lemma open_dispatch_value payload w o w' :
  open_dispatch env dev payload w = (Ret o, w') -> o = reply_of env payload w.
Proof.
  unfold open_dispatch. intros H.
  apply bind_Ret_inv in H. destruct H as (o1 & w1 & H1 & H).
  ret_inv H. unfold obtain_reply in H1. destruct payload; simpl.
  - apply bind_Ret_inv in H1. destruct H1 as ([] & w2 & H2 & H1).
    inversion H2; subst; clear H2.
    apply bind_Ret_inv in H1. destruct H1 as (reply & w3 & H3 & H1).
    inversion H1; subst; clear H1.
    unfold call_for in H3. simpl in H3.
    destruct (raises env (trace w) (Susi_ask text)); inversion H3; reflexivity.
  - ret_inv H1. reflexivity.
  - ret_inv H1. reflexivity.
Qed.

Lemma deal_with_answer_try_Ret payload w b w' :
  deal_with_answer_try env dev payload w = (Ret b, w') ->
  b = true /\ exists reply, Dispatched env dev payload reply w w'.
Proof.
  unfold deal_with_answer_try. intros H.
  apply bind_Ret_inv in H. destruct H as ([reply |] & w0 & H0 & H);
    [| discriminate H].
  apply bind_Ret_inv in H. destruct H as ([] & w1 & H1 & H).
  apply bind_Ret_inv in H. destruct H as (n1 & w2 & H2 & H).
  apply bind_Ret_inv in H. destruct H as (n2 & w3 & H3 & H).
  apply bind_Ret_inv in H. destruct H as (n3 & w4 & H4 & H).
  apply bind_Ret_inv in H. destruct H as ([] & w5 & H5 & H).
  apply bind_Ret_inv in H. destruct H as ([] & w6 & H6 & H).
  apply bind_Ret_inv in H. destruct H as ([] & w7 & H7 & H).
  apply bind_Ret_inv in H. destruct H as ([] & w8 & H8 & H).
  apply bind_Ret_inv in H. destruct H as ([] & w9 & H9 & H).
  inversion H; subst; clear H. split; [reflexivity |].
  exists reply. exact (dispatched _ _ _ _ _ _ _ _ _ _ _ _ _ _ _ _ _ _ H0 H1 H2 H3 H4 H5 H6 H7 H8 H9).
Qed.

(** [deal_with_answer] returns [True] only through the end of the [try]. *)
Lemma deal_with_answer_Ret_true payload w w' :
  deal_with_answer env dev payload w = (Ret true, w') ->
  deal_with_answer_try env dev payload w = (Ret true, w').
Proof.
  unfold deal_with_answer, try_except.
  destruct (deal_with_answer_try env dev payload w) as [[b | e] w1].
  - intros H. exact H.
  - destruct e; simpl; intros H; discriminate H.
Qed.

Lemma Dispatched_reply payload reply w w' :
  Dispatched env dev payload reply w w' -> reply_of env payload w = Some reply.
Proof.
  intros [w0 w1 w2 w3 w4 w5 w6 w7 w8 n1 n2 n3 H0 _ _ _ _ _ _ _ _ _].
  symmetry. apply (open_dispatch_value _ _ _ _ H0).
Qed.

Lemma Dispatched_speech payload reply w w' :
  Dispatched env dev payload reply w w' ->
  speech w w' (lead_speech reply (answered reply) ++ table_speech reply ++ rss_speech reply).
Proof.
  intros [w0 w1 w2 w3 w4 w5 w6 w7 w8 n1 n2 n3 H0 H1 H2 H3 H4 H5 H6 H7 H8 H9].
  assert (Hn : n3 = answered reply).
  { rewrite (dispatch_stop_value _ _ _ _ _ H4),
      (dispatch_media_action_value _ _ _ _ _ H3),
      (dispatch_volume_value _ _ _ _ _ H2). reflexivity. }
  subst n3.
  assert (S0 : speech w w0 []).
  { apply (speech_silent (open_dispatch_frames env dev payload) H0). by_kind. }
  assert (S1 : speech w0 w1 []).
  { apply (speech_silent (dispatch_planned_actions_frames env reply) H1). by_kind. }
  assert (S2 : speech w1 w2 []).
  { apply (speech_silent (dispatch_volume_frames env reply false) H2). by_kind. }
  assert (S3 : speech w2 w3 []).
  { apply (speech_silent (dispatch_media_action_frames env reply n1) H3). by_kind. }
  assert (S4 : speech w3 w4 []).
  { apply (speech_silent (dispatch_stop_frames env reply n2) H4).
    intros e ->. reflexivity. }
  assert (S6 : speech w5 w6 []).
  { apply (speech_silent (dispatch_language_frames reply) H6). tauto. }
  assert (S7 : speech w6 w7 []).
  { apply (speech_silent (dispatch_identifier_frames env reply) H7). by_kind. }
  exact (speech_trans S0 (speech_trans S1 (speech_trans S2 (speech_trans S3
          (speech_trans S4 (speech_trans (dispatch_answer_speech env _ _ _ _ H5)
            (speech_trans S6 (speech_trans S7
              (speech_trans (dispatch_table_speech env _ _ _ H8)
                            (dispatch_rss_speech env _ _ _ H9)))))))))).
Qed.

(** Composing what consecutive blocks add. *)
Ltac chain :=
  unfold adds in *;
  repeat match goal with
         | H : flat_map _ (trace _) = _ |- _ => rewrite H; clear H
         end;
  rewrite ?app_nil_r; simpl; rewrite ?app_nil_r; reflexivity.

(** A block that runs without making an observed call adds nothing. *)
Ltac quiet obs Hf Hrun :=
  let S := fresh "S" in
  pose proof (adds_silent obs _ _ _ _ _ Hf ltac:(by_kind; congruence) Hrun) as S.

Lemma dispatch_identifier_played reply w r w' :
  dispatch_identifier env reply w = (r, w') ->
  adds played_by w w' (identifier_media reply).
Proof.
  unfold dispatch_identifier, identifier_media.
  destruct (identifier reply) as [url |].
  - unfold bind, logger, modify, call, call_for.
    set (key := str_drop 4 url). destruct (str_take 3 url =? "ytd"); simpl;
      match goal with |- context [raises env ?t ?e] => destruct (raises env t e) end;
      intros H; inversion H; subst;
      match goal with
      | |- adds _ _ (record_call ?e ?v) _ => exact (adds_call played_by e v)
      end.
  - intros H. inversion H; subst. apply adds_refl.
Qed.

Lemma Dispatched_played payload reply w w' :
  Dispatched env dev payload reply w w' ->
  adds played_by w w' (identifier_media reply).
Proof.
  intros [w0 w1 w2 w3 w4 w5 w6 w7 w8 n1 n2 n3 H0 H1 H2 H3 H4 H5 H6 H7 H8 H9].
  quiet played_by (open_dispatch_frames env dev payload) H0.
  quiet played_by (dispatch_planned_actions_frames env reply) H1.
  quiet played_by (dispatch_volume_frames env reply false) H2.
  quiet played_by (dispatch_media_action_frames env reply n1) H3.
  quiet played_by (dispatch_stop_frames env reply n2) H4.
  quiet played_by (dispatch_answer_frames env reply n3) H5.
  quiet played_by (dispatch_language_frames reply) H6.
  pose proof (dispatch_identifier_played _ _ _ _ H7) as S7.
  quiet played_by (dispatch_table_frames env reply) H8.
  quiet played_by (dispatch_rss_frames env reply) H9.
  chain.
Qed.

Lemma schedule_each_scheduled plans w w' :
  for_each plans (schedule_plan env) w = (Ret tt, w') ->
  exists registrations,
    adds scheduled_by w w' registrations /\
    Forall2 registered registrations plans.
Proof.
  revert w. induction plans as [| plan plans IH]; intros w H; simpl in H.
  - inversion H; subst. exists []. split; [apply adds_refl | constructor].
  - apply bind_Ret_inv in H. destruct H as ([] & w1 & H1 & H2).
    destruct (IH _ H2) as (regs & Hregs & Hall).
    unfold schedule_plan in H1.
    apply bind_Ret_inv in H1. destruct H1 as ([] & w0 & H0 & H1).
    inversion H0; subst; clear H0.
    destruct (plan_delay plan) as [delay_ms |] eqn:Hd; [| discriminate H1].
    destruct (plan_seconds delay_ms) as [seconds |] eqn:Hs; [| discriminate H1].
    unfold call, call_for in H1.
    destruct (raises env _ _); inversion H1; subst; clear H1.
    exists ((seconds, plan) :: regs). split.
    + refine (adds_trans scheduled_by w _ w' [(seconds, plan)] regs _ Hregs).
      exact (adds_call scheduled_by (Scheduler_add_event seconds plan)
               (record_log DEBUG "plan" w)).
    + constructor; [| exact Hall].
      apply (plan_seconds_registered plan delay_ms seconds Hd Hs).
Qed.

Lemma dispatch_planned_actions_scheduled reply w w' :
  dispatch_planned_actions env reply w = (Ret tt, w') ->
  exists registrations,
    adds scheduled_by w w' registrations /\
    Forall2 registered registrations (plans_of reply).
Proof.
  unfold dispatch_planned_actions, plans_of.
  destruct (planned_actions reply) as [plans |].
  - intros H. apply bind_Ret_inv in H. destruct H as ([] & w1 & H1 & H2).
    inversion H1; subst; clear H1.
    exact (schedule_each_scheduled _ _ _ H2).
  - intros H. inversion H; subst. exists []. split; [apply adds_refl | constructor].
Qed.

Lemma Dispatched_scheduled payload reply w w' :
  Dispatched env dev payload reply w w' ->
  exists registrations,
    adds scheduled_by w w' registrations /\
    Forall2 registered registrations (plans_of reply).
Proof.
  intros [w0 w1 w2 w3 w4 w5 w6 w7 w8 n1 n2 n3 H0 H1 H2 H3 H4 H5 H6 H7 H8 H9].
  destruct (dispatch_planned_actions_scheduled _ _ _ H1) as (regs & S1 & Hall).
  exists regs. split; [| exact Hall].
  quiet scheduled_by (open_dispatch_frames env dev payload) H0.
  quiet scheduled_by (dispatch_volume_frames env reply false) H2.
  quiet scheduled_by (dispatch_media_action_frames env reply n1) H3.
  quiet scheduled_by (dispatch_stop_frames env reply n2) H4.
  quiet scheduled_by (dispatch_answer_frames env reply n3) H5.
  quiet scheduled_by (dispatch_language_frames reply) H6.
  quiet scheduled_by (dispatch_identifier_frames env reply) H7.
  quiet scheduled_by (dispatch_table_frames env reply) H8.
  quiet scheduled_by (dispatch_rss_frames env reply) H9.
  chain.
Qed.

Lemma dispatch_stop_stopped reply nan w r w' :
  dispatch_stop env reply nan w = (r, w') ->
  adds stopped_by w w' (if has_key (stop reply) then [player_stop] else []).
Proof.
  unfold dispatch_stop. destruct (stop reply); simpl.
  - unfold bind, call, call_for.
    destruct (raises env _ _); intros H; inversion H; subst;
      exact (adds_call stopped_by (Player player_stop) w).
  - intros H. inversion H; subst. apply adds_refl.
Qed.

Lemma Dispatched_stopped payload reply w w' :
  Dispatched env dev payload reply w w' ->
  adds stopped_by w w' (if has_key (stop reply) then [player_stop] else []).
Proof.
  intros [w0 w1 w2 w3 w4 w5 w6 w7 w8 n1 n2 n3 H0 H1 H2 H3 H4 H5 H6 H7 H8 H9].
  quiet stopped_by (open_dispatch_frames env dev payload) H0.
  quiet stopped_by (dispatch_planned_actions_frames env reply) H1.
  quiet stopped_by (dispatch_volume_frames env reply false) H2.
  quiet stopped_by (dispatch_media_action_frames env reply n1) H3.
  pose proof (dispatch_stop_stopped _ _ _ _ _ H4) as S4.
  quiet stopped_by (dispatch_answer_frames env reply n3) H5.
  quiet stopped_by (dispatch_language_frames reply) H6.
  quiet stopped_by (dispatch_identifier_frames env reply) H7.
  quiet stopped_by (dispatch_table_frames env reply) H8.
  quiet stopped_by (dispatch_rss_frames env reply) H9.
  chain.
Qed.

End DispatchChain.

(** ** Frames from a given world *)

Lemma frames_from_all (allowed : Ev -> Prop) {T} (m : M T) w :
  frames allowed m -> frames_from allowed m w.
Proof. intros Hm I HI Hw. apply (Hm I HI w Hw). Qed.

Lemma frames_from_bind (allowed : Ev -> Prop) {A B} (m : M A) (k : A -> M B) w :
  frames_from allowed m w ->
  (forall a w1, m w = (Ret a, w1) -> frames_from allowed (k a) w1) ->
  frames_from allowed (bind m k) w.
Proof.
  intros Hm Hk I HI Hw. unfold bind.
  specialize (Hm I HI Hw).
  destruct (m w) as [[a | e] w1] eqn:Hrun; simpl in *.
  - apply (Hk a w1 eq_refl I HI Hm).
  - exact Hm.
Qed.

Lemma frames_from_try (allowed : Ev -> Prop) {A} (m : M A) handler w :
  frames_from allowed m w ->
  (forall e h, handler e = Some h -> frames allowed h) ->
  frames_from allowed (try_except m handler) w.
Proof.
  intros Hm Hh I HI Hw. unfold try_except.
  specialize (Hm I HI Hw).
  destruct (m w) as [[a | e] w1]; simpl in *.
  - exact Hm.
  - destruct (handler e) as [h |] eqn:He.
    + apply (Hh e h He I HI w1 Hm).
    + exact Hm.
Qed.

Lemma frames_from_calls (allowed : Ev -> Prop) {T} (m : M T) w :
  frames_from allowed m w ->
  trace (snd (m w)) = trace w ++ new_calls w (snd (m w)) /\
  Forall allowed (new_calls w (snd (m w))).
Proof.
  intros Hm.
  assert (H : exists l, trace (snd (m w)) = trace w ++ l /\ Forall allowed l).
  { apply (Hm (fun w' => exists l, trace w' = trace w ++ l /\ Forall allowed l)).
    - constructor; simpl; try (intros; assumption).
      intros e w1 He [l [Hl Hall]]. exists (l ++ [e]). split.
      + rewrite Hl, app_assoc. reflexivity.
      + apply Forall_app. split; [exact Hall | constructor; [exact He | constructor]].
    - exists []. split; [symmetry; apply app_nil_r | constructor]. }
  destruct H as [l [Hl Hall]].
  rewrite (new_calls_app _ _ _ Hl). split; assumption.
Qed.

(** ** Whatever a dispatch speaks comes from the reply *)

Lemma silent_within texts e : spoken_by e = [] -> speaks_within texts e.
Proof. intros He text Ht. rewrite He in Ht. destruct Ht. Qed.

Lemma says_within texts all e :
  (forall text, In text texts -> In text all) ->
  lights_or_says texts e \/ says texts e -> speaks_within all e.
Proof.
  intros Hsub He text Ht. destruct e; simpl in *; try contradiction.
  destruct Ht as [<- | []]. apply Hsub. destruct He as [He | He]; exact He.
Qed.

Section DispatchSpeaks.

Variable env : Env.
Variable dev : Device.

Lemma deal_with_answer_speaks payload reply w :
  reply_of env payload w = Some reply ->
  frames_from (speaks_within (expected_speech reply))
    (deal_with_answer env dev payload) w.
Proof.
  intros Hreply. unfold deal_with_answer. apply frames_from_try.
  2:{ intros e h He. unfold deal_with_answer_except in He.
      destruct e; simpl in He; inversion He; subst; unfold to_error; frames_tac. }
  unfold deal_with_answer_try. apply frames_from_bind.
  { apply frames_from_all.
    apply (frames_weaken preamble_calls _ _); [| apply open_dispatch_frames].
    intros e He. apply silent_within. revert e He. by_kind. }
  intros o w0 H0. apply open_dispatch_value in H0. rewrite Hreply in H0. subst o.
  apply frames_from_bind.
  { apply frames_from_all.
    apply (frames_weaken scheduler_calls _ _); [| apply dispatch_planned_actions_frames].
    intros e He. apply silent_within. revert e He. by_kind. }
  intros _ w1 _. apply frames_from_bind.
  { apply frames_from_all.
    apply (frames_weaken volume_calls _ _); [| apply dispatch_volume_frames].
    intros e He. apply silent_within. revert e He. by_kind. }
  intros n1 w2 H2. apply dispatch_volume_value in H2. apply frames_from_bind.
  { apply frames_from_all.
    apply (frames_weaken media_calls _ _); [| apply dispatch_media_action_frames].
    intros e He. apply silent_within. revert e He. by_kind. }
  intros n2 w3 H3. apply dispatch_media_action_value in H3. apply frames_from_bind.
  { apply frames_from_all.
    apply (frames_weaken stop_calls _ _); [| apply dispatch_stop_frames].
    intros e ->. apply silent_within. reflexivity. }
  intros n3 w4 H4. apply dispatch_stop_value in H4.
  subst n1 n2 n3.
  change (false || has_key (volume reply) || recognized_media (media_action reply)
          || has_key (stop reply)) with (answered reply).
  apply frames_from_bind.
  { apply frames_from_all.
    apply (frames_weaken (lights_or_says (lead_speech reply (answered reply))) _ _);
      [| apply dispatch_answer_frames].
    intros e He. apply (says_within (lead_speech reply (answered reply))); [| left; exact He].
    intros text Ht. unfold expected_speech. apply in_or_app. left. exact Ht. }
  intros _ w5 _. apply frames_from_bind.
  { apply frames_from_all.
    apply (frames_weaken (fun _ => False) _ _); [tauto | apply dispatch_language_frames]. }
  intros _ w6 _. apply frames_from_bind.
  { apply frames_from_all.
    apply (frames_weaken play_calls _ _); [| apply dispatch_identifier_frames].
    intros e He. apply silent_within. revert e He. by_kind. }
  intros _ w7 _. apply frames_from_bind.
  { apply frames_from_all.
    apply (frames_weaken (says (table_speech reply)) _ _); [| apply dispatch_table_frames].
    intros e He. apply (says_within (table_speech reply)); [| right; exact He].
    intros text Ht. unfold expected_speech.
    apply in_or_app. right. apply in_or_app. left. exact Ht. }
  intros _ w8 _. apply frames_from_bind.
  { apply frames_from_all.
    apply (frames_weaken (says (rss_speech reply)) _ _); [| apply dispatch_rss_frames].
    intros e He. apply (says_within (rss_speech reply)); [| right; exact He].
    intros text Ht. unfold expected_speech.
    apply in_or_app. right. apply in_or_app. right. exact Ht. }
  intros _ w9 _. apply frames_from_all. apply frames_ret.
Qed.

(** Every text handed to a TTS provider during a dispatch, however the
    dispatch ends, is one the reply calls for. *)
Lemma spoken_expected payload reply w text :
  reply_of env payload w = Some reply ->
  In text (spoken (new_calls w (snd (deal_with_answer env dev payload w)))) ->
  In text (expected_speech reply).
Proof.
  intros Hreply Hin.
  destruct (frames_from_calls _ _ _ (deal_with_answer_speaks payload reply w Hreply))
    as [_ Hall].
  unfold spoken in Hin. apply in_flat_map in Hin. destruct Hin as (e & He & Ht).
  rewrite Forall_forall in Hall. apply (Hall e He text Ht).
Qed.

End DispatchSpeaks.

(** ** What a computation can raise *)

Section Throws.

Variable E : Exn -> Prop.

Lemma throws_ret {A} (a : A) : throws E (ret a).
Proof. intros w e w' H. discriminate H. Qed.

Lemma throws_raise {A} (e : Exn) : E e -> throws E (@raise A e).
Proof. intros He w e' w' H. inversion H; subst. exact He. Qed.

Lemma throws_gets {A} (f : World -> A) : throws E (gets f).
Proof. intros w e w' H. discriminate H. Qed.

Lemma throws_modify (g : World -> World) : throws E (modify g).
Proof. intros w e w' H. discriminate H. Qed.

Lemma throws_logger lvl msg : throws E (logger lvl msg).
Proof. apply throws_modify. Qed.

Lemma throws_bind {A B} (m : M A) (k : A -> M B) :
  throws E m -> (forall a, throws E (k a)) -> throws E (bind m k).
Proof.
  intros Hm Hk w e w'. unfold bind.
  destruct (m w) as [[a | e1] w1] eqn:Hrun; intros H.
  - apply (Hk a w1 e w' H).
  - inversion H; subst. apply (Hm w e w' Hrun).
Qed.

Lemma throws_call_for env {A} (ev : Ev) (result : list Ev -> A) :
  (forall history x, raises env history ev = Some x -> E x) ->
  throws E (call_for env ev result).
Proof.
  intros Hev w e w'. unfold call_for.
  destruct (raises env (trace w) ev) as [x |] eqn:Hx; intros H; inversion H; subst.
  apply (Hev _ _ Hx).
Qed.

Lemma throws_try_except (E' : Exn -> Prop) {A} (m : M A) handler :
  throws E' m ->
  (forall e h, E' e -> handler e = Some h -> throws E h) ->
  (forall e, E' e -> handler e = None -> E e) ->
  throws E (try_except m handler).
Proof.
  intros Hm Hh Hn w e w'. unfold try_except.
  destruct (m w) as [[a | e1] w1] eqn:Hrun; intros H.
  - discriminate H.
  - specialize (Hm w e1 w1 Hrun).
    destruct (handler e1) as [h |] eqn:He.
    + apply (Hh e1 h Hm He w1 e w' H).
    + inversion H; subst. apply (Hn e Hm He).
Qed.

Lemma throws_with_context {A} (enter leave : M unit) (body : M A) :
  throws E enter -> throws E leave -> throws E body ->
  throws E (with_context enter leave body).
Proof.
  intros He Hl Hb w e w'. unfold with_context.
  destruct (enter w) as [[[] | e1] w1] eqn:H1.
  - destruct (body w1) as [r w2] eqn:H2.
    destruct (leave w2) as [[[] | e3] w3] eqn:H3; intros H.
    + inversion H; subst. apply (Hb w1 e w2 H2).
    + inversion H; subst. apply (Hl w2 e w' H3).
  - intros H. inversion H; subst. apply (He w e w' H1).
Qed.

Lemma throws_for_each {A} (l : list A) (f : A -> M unit) :
  (forall x, In x l -> throws E (f x)) -> throws E (for_each l f).
Proof.
  induction l as [| x l IH]; intros Hf; simpl.
  - apply throws_ret.
  - apply throws_bind.
    + apply Hf. left. reflexivity.
    + intros _. apply IH. intros y Hy. apply Hf. right. exact Hy.
Qed.

Lemma throws_when (b : bool) (m : M unit) : throws E m -> throws E (when b m).
Proof. intros Hm. destruct b; simpl; [exact Hm | apply throws_ret]. Qed.

End Throws.

Lemma throws_weaken (E1 E2 : Exn -> Prop) {T} (m : M T) :
  (forall e, E1 e -> E2 e) -> throws E1 m -> throws E2 m.
Proof. intros Hsub Hm w e w' H. apply Hsub. apply (Hm w e w' H). Qed.

(** A computation that throws nothing returns. *)
Lemma throws_nothing_returns {T} (m : M T) w :
  throws (fun _ => False) m -> exists a, fst (m w) = Ret a.
Proof.
  intros Hm. destruct (m w) as [[a | e] w'] eqn:Hrun.
  - exists a. reflexivity.
  - destruct (Hm w e w' Hrun).
Qed.

Ltac throws_tac :=
  repeat first
    [ apply throws_ret | apply throws_gets | apply throws_logger
    | apply throws_modify
    | apply throws_bind; [| intros ?]
    | apply throws_when
    | apply throws_call_for
    | apply throws_raise
    | match goal with
      | |- throws _ (if ?b then _ else _) => destruct b
      | |- throws _ (match ?x with _ => _ end) => destruct x
      end ].

(** * The claims *)

(** ** Error handling inside dispatch *)

(** C1.  When the body of [deal_with_answer] raises, the [except] clauses
    decide.  A [ConnectionError] selects the clause that calls
    [self.to_error], an attribute the class does not have: the dispatch
    raises [AttributeError] to its caller, and nothing is done after the
    failing step (the error handler is not run, no world change).  Any other
    [Exception] is logged and turned into the result [False]. *)
Theorem dispatch_error_handling env dev payload w e w1 :
  deal_with_answer_try env dev payload w = (Raise e, w1) ->
  (e = ConnectionError ->
   deal_with_answer env dev payload w = (Raise AttributeError, w1)) /\
  (e <> ConnectionError -> is_Exception e = true ->
   deal_with_answer env dev payload w =
     (Ret false, record_log ERROR "Got error" w1)).
Proof.
  intros Hbody. unfold deal_with_answer, try_except. rewrite Hbody. split.
  - intros ->. reflexivity.
  - intros Hne Hexc. destruct e; simpl in *;
      try reflexivity; try discriminate Hexc; contradiction.
Qed.

Lemma dispatch_error_handling_witness :
  deal_with_answer unreachable raspberry (PText "hello") boot =
    (Raise AttributeError,
     mkWorld [Susi_ask "hello"] [(DEBUG, "Sending payload to susi server")]
             "google" "flite" "en" []).
Proof.
  apply (dispatch_error_handling unreachable raspberry (PText "hello") boot
           ConnectionError).
  - vm_compute. reflexivity.
  - reflexivity.
Defined.

(** ** The error handler *)

(** What the [ConnectionError] branch (lines 264-271) computes. *)
Lemma deal_with_error_connection env dev w :
  let note := Renderer_receive_message "error" (StrPayload "connection") in
  deal_with_error env dev "ConnectionError" w =
    if has_renderer dev then
      match raises env (trace w) note with
      | Some e => (Raise e, record_call note w)
      | None => (Raise NameError, record_call note w)
      end
    else (Raise NameError, w).
Proof.
  unfold deal_with_error. simpl.
  unfold notify_renderer, when, global_config_setitem, bind, call, call_for, raise, ret.
  destruct (has_renderer dev); [| reflexivity].
  destruct (raises env (trace w) _); reflexivity.
Qed.

Lemma new_calls_record e w : new_calls w (record_call e w) = [e].
Proof. apply new_calls_app. reflexivity. Qed.

Lemma new_calls_same w : new_calls w w = [].
Proof. apply new_calls_app. symmetry. apply app_nil_r. Qed.

Lemma new_calls_snoc e w v l :
  trace v = trace w ++ l ->
  new_calls w (record_call e v) = new_calls w v ++ [e].
Proof.
  intros Hv. rewrite (new_calls_app w v l Hv). apply new_calls_app.
  simpl. rewrite Hv, app_assoc. reflexivity.
Qed.

(** The other kinds: with collaborators that do not raise the handler
    returns, and its last call switches the lights off. *)
Lemma deal_with_error_ends_idle env dev kind w :
  kind <> "ConnectionError" ->
  (forall history e, raises env history e = None) ->
  exists w' calls,
    deal_with_error env dev kind w = (Ret tt, w') /\
    new_calls w w' = calls ++ [Lights lights_off].
Proof.
  intros Hkind Hquiet. apply String.eqb_neq in Hkind.
  unfold deal_with_error. rewrite Hkind.
  unfold notify_renderer, when, print, logger, modify, bind, call, call_for, ret.
  destruct (kind =? "RecognitionError"); [| destruct (kind =? "ListenTimeout")];
    destruct (has_renderer dev);
    repeat (rewrite Hquiet; cbn [trace record_call record_log fst snd]);
    match goal with
    | |- exists w' calls, (Ret tt, record_call ?e ?v) = _ /\ _ =>
        exists (record_call e v), (new_calls w v);
        split; [reflexivity | eapply new_calls_snoc]
    end;
    cbn [trace record_call record_log]; rewrite <- ?app_assoc; reflexivity.
Qed.

(** C2.  [deal_with_error('ConnectionError')] always ends in an exception:
    after the renderer notification it evaluates the unbound name [config]
    ([NameError]).  Neither provider setting changes and the lights are
    never switched off. *)
Theorem connection_error_handler_raises env dev w :
  let run := deal_with_error env dev "ConnectionError" w in
  (exists e, fst run = Raise e /\
             (e = NameError \/
              raises env (trace w)
                (Renderer_receive_message "error" (StrPayload "connection")) = Some e)) /\
  default_stt (snd run) = default_stt w /\
  default_tts (snd run) = default_tts w /\
  ~ In (Lights lights_off) (new_calls w (snd run)).
Proof.
  intros run. subst run. rewrite deal_with_error_connection.
  destruct (has_renderer dev).
  - destruct (raises env (trace w) _) as [e |] eqn:Hr; cbn [fst snd];
      rewrite new_calls_record; repeat split;
      try (intros [H | []]; discriminate H).
    + exists e. split; [reflexivity | right; reflexivity].
    + exists NameError. split; [reflexivity | left; reflexivity].
  - cbn [fst snd]. rewrite new_calls_same. repeat split; try (intros []).
    exists NameError. split; [reflexivity | left; reflexivity].
Qed.

(** ** The control loop *)

Lemma restore_baseline_run env dev w :
  (forall history e, restoring e -> raises env history e = None) ->
  exists w', restore_baseline env dev w = (Ret tt, w') /\
             trace w' = trace w ++ baseline_calls dev.
Proof.
  intros Hquiet. unfold restore_baseline, baseline_calls, when, try_except, bind,
    call, call_for, ret.
  rewrite (Hquiet _ (Player restore_softvolume) I).
  destruct (has_GPIO dev).
  - cbn [trace record_call].
    rewrite (Hquiet _ (GPIO_output 27 false) (conj (or_introl eq_refl) eq_refl)).
    cbn [trace record_call].
    rewrite (Hquiet _ (GPIO_output 22 false) (conj (or_intror eq_refl) eq_refl)).
    eexists. split; [reflexivity |].
    cbn [trace record_call]. rewrite <- !app_assoc. reflexivity.
  - eexists. split; [reflexivity | reflexivity].
Qed.

(** C3, as the code has it.  The loop has no [try] around the handling
    step.  When the step returns (with a success or a failure result), the
    baseline is restored right after it and the next turn starts from the
    restored world, provided the restoring calls themselves (the soft
    volume, lines 27 and 22 driven low) do not raise; when the step raises,
    the turn and the loop end with that exception and nothing is
    restored. *)
Theorem start_cycle_restores_after_return env dev w r w1 :
  handle_trigger env dev w = (r, w1) ->
  match r with
  | Ret _ =>
      (forall history e, restoring e -> raises env history e = None) ->
      exists w2,
        start_cycle env dev w = (Ret tt, w2) /\
        new_calls w1 w2 = baseline_calls dev /\
        forall turns, start env dev (S turns) w = start env dev turns w2
  | Raise e =>
      start_cycle env dev w = (Raise e, w1) /\
      forall turns, start env dev (S turns) w = (Raise e, w1)
  end.
Proof.
  intros Hstep. destruct r as [[] | e].
  - intros Hquiet. destruct (restore_baseline_run env dev
                (record_log DEBUG "after starting detector" w1) Hquiet)
      as (w2 & Hrun & Htrace).
    assert (Hcycle : start_cycle env dev w = (Ret tt, w2)).
    { unfold start_cycle, bind. rewrite Hstep. simpl. exact Hrun. }
    exists w2. split; [exact Hcycle |]. split.
    + apply new_calls_app. exact Htrace.
    + intros turns. simpl. unfold bind. rewrite Hcycle. reflexivity.
  - assert (Hcycle : start_cycle env dev w = (Raise e, w1)).
    { unfold start_cycle, bind. rewrite Hstep. reflexivity. }
    split; [exact Hcycle |].
    intros turns. simpl. unfold bind. rewrite Hcycle. reflexivity.
Qed.

Lemma start_cycle_restores_after_return_witness :
  exists w2,
    start_cycle (answering no_reply) raspberry queued = (Ret tt, w2) /\
    new_calls (snd (handle_trigger (answering no_reply) raspberry queued)) w2 =
      [Player restore_softvolume; GPIO_output 27 false; GPIO_output 22 false] /\
    forall turns,
      start (answering no_reply) raspberry (S turns) queued =
      start (answering no_reply) raspberry turns w2.
Proof.
  apply (start_cycle_restores_after_return (answering no_reply) raspberry queued
           (Ret tt) (snd (handle_trigger (answering no_reply) raspberry queued))).
  - vm_compute. reflexivity.
  - intros history e _. reflexivity.
Defined.

(** C3 as stated fails: the detector cannot start, the turn ends with the
    exception, no restoring call is made, and the loop is over. *)
Lemma restore_skipped_when_step_raises :
  let crashed :=
    mkWorld [Detector_start] [(DEBUG, "starting detector")] "google" "flite" "en" [] in
  start_cycle broken_detector raspberry boot =
    (Raise (OtherException "OSError"), crashed) /\
  ~ In (Player restore_softvolume) (new_calls boot crashed) /\
  ~ In (GPIO_output 27 false) (new_calls boot crashed) /\
  start broken_detector raspberry 2 boot =
    (Raise (OtherException "OSError"), crashed).
Proof.
  repeat split; try (vm_compute; reflexivity);
    vm_compute; intros [H | []]; discriminate H.
Qed.

(** The same end through line 405: a queued question, an unreachable
    dialogue service, and the [AttributeError] of [to_error] leaves the loop. *)
Example loop_ends_on_connection_error :
  start unreachable raspberry 3
    (mkWorld [] [] "google" "flite" "en" [PText "hello"]) =
    (Raise AttributeError,
     mkWorld [Susi_ask "hello"]
             [(DEBUG, "starting detector"); (DEBUG, "Sending payload to susi server")]
             "google" "flite" "en" []).
Proof. vm_compute. reflexivity. Qed.

(** ** Dispatch of the reply fields *)

Lemma run_eq {T} (m : M T) w r :
  fst (m w) = r -> m w = (r, snd (m w)).
Proof. intros <-. destruct (m w); reflexivity. Qed.

(** Reading an observation off the calls of a dispatch that returned [True]. *)
Lemma observed {X} (obs : Ev -> list X) env dev payload w w' xs :
  deal_with_answer env dev payload w = (Ret true, w') ->
  adds obs w w' xs ->
  flat_map obs (new_calls w w') = xs.
Proof.
  intros Hrun Hadds.
  destruct (frames_new_calls _ _ _ _ _ (deal_with_answer_frames env dev payload) Hrun)
    as [Htrace _].
  apply (adds_new_calls obs w w' xs _ Htrace Hadds).
Qed.

Lemma dispatch_returned env dev payload w w' :
  deal_with_answer env dev payload w = (Ret true, w') ->
  exists reply,
    reply_of env payload w = Some reply /\ Dispatched env dev payload reply w w'.
Proof.
  intros Hrun. apply deal_with_answer_Ret_true in Hrun.
  apply deal_with_answer_try_Ret in Hrun. destruct Hrun as [_ [reply Hd]].
  exists reply. split; [apply (Dispatched_reply _ _ _ _ _ _ Hd) | exact Hd].
Qed.

Lemma dispatch_returned_for env dev payload reply w w' :
  reply_of env payload w = Some reply ->
  deal_with_answer env dev payload w = (Ret true, w') ->
  Dispatched env dev payload reply w w'.
Proof.
  intros Hreply Hrun. destruct (dispatch_returned _ _ _ _ _ Hrun) as (r & Hr & Hd).
  rewrite Hreply in Hr. inversion Hr; subst. exact Hd.
Qed.

(** What a dispatch that returned [True] handed to the TTS provider. *)
Lemma dispatch_spoken env dev payload reply w w' :
  reply_of env payload w = Some reply ->
  deal_with_answer env dev payload w = (Ret true, w') ->
  spoken (new_calls w w') = heard (default_tts w) (expected_speech reply).
Proof.
  intros Hreply Hrun.
  destruct (Dispatched_speech _ _ _ _ _ _ (dispatch_returned_for _ _ _ _ _ _ Hreply Hrun))
    as [Hadds _].
  apply (observed spoken_by _ _ _ _ _ _ Hrun Hadds).
Qed.

Lemma expected_speech_answered reply :
  answered reply = true -> expected_speech reply = own_texts reply.
Proof.
  intros Ha. unfold expected_speech, own_texts, lead_speech. rewrite Ha.
  destruct (answer reply); reflexivity.
Qed.

(** ** Planned actions *)

Lemma handle_trigger_queued env dev w event rest :
  event_queue w = event :: rest ->
  handle_trigger env dev w =
    (deal_with_answer env dev event ;; ret tt)
      (with_queue rest (record_log DEBUG "starting detector" w)).
Proof.
  intros Hq. unfold handle_trigger, bind at 1, logger, modify.
  unfold bind at 1, gets. simpl. rewrite Hq. unfold bind at 1. reflexivity.
Qed.

(** The registration of the example and the turn that handles the fired
    plan, computed. *)
Example alarm_registered :
  scheduled (new_calls boot
               (snd (deal_with_answer (answering set_alarm) raspberry
                       (PText "set an alarm") boot)))
  = [(2, alarm)].
Proof. vm_compute. reflexivity. Qed.

Example alarm_fired :
  spoken (trace (snd (start_cycle (answering no_reply) raspberry
                        (mkWorld [] [] "google" "flite" "en" [PReply alarm]))))
  = ["ALARM"].
Proof. vm_compute. reflexivity. Qed.

(** ** The capture cycle *)



(** ** Speech recognition *)

Lemma recognize_new_calls env op w :
  new_calls w (snd (recognize env op w)) = [Recognize op].
Proof.
  unfold recognize, bind, call_for, ret.
  destruct (raises env (trace w) (Recognize op)); apply new_calls_record.
Qed.

(** With the provider ["google"] the recogniser is called directly. *)
Lemma recognize_audio_google env dev audio w :
  default_stt w = "google" ->
  new_calls w (snd (recognize_audio env dev audio w)) =
    [Recognize (recognize_google audio (susi_language w))] /\
  default_stt (snd (recognize_audio env dev audio w)) = "google".
Proof.
  intros Hstt. split.
  - unfold recognize_audio, bind at 1, logger, modify.
    unfold bind at 1, gets. cbn [default_stt record_log]. rewrite Hstt. simpl.
    unfold bind at 1, gets.
    apply (recognize_new_calls env _ (record_log INFO "Trying to recognize audio" w)).
  - apply (frames_google _ _ _ (recognize_audio_frames env dev audio) Hstt).
Qed.








(** * Further properties of the module *)

(** ** Invariants *)

Section Invariants.

Variable I : World -> Prop.

Lemma invariant_ret {A} (a : A) : invariant I (ret a).
Proof. intros w Hw. exact Hw. Qed.

Lemma invariant_raise {A} (e : Exn) : invariant I (@raise A e).
Proof. intros w Hw. exact Hw. Qed.

Lemma invariant_gets {A} (f : World -> A) : invariant I (gets f).
Proof. intros w Hw. exact Hw. Qed.

Lemma invariant_bind {A B} (m : M A) (k : A -> M B) :
  invariant I m -> (forall a, invariant I (k a)) -> invariant I (bind m k).
Proof.
  intros Hm Hk w Hw. unfold bind. specialize (Hm w Hw).
  destruct (m w) as [[a | e] w1]; simpl in *.
  - apply (Hk a w1 Hm).
  - exact Hm.
Qed.

Lemma invariant_try_except {A} (m : M A) (handler : Exn -> option (M A)) :
  invariant I m ->
  (forall e h, handler e = Some h -> invariant I h) ->
  invariant I (try_except m handler).
Proof.
  intros Hm Hh w Hw. unfold try_except. specialize (Hm w Hw).
  destruct (m w) as [[a | e] w1]; simpl in *.
  - exact Hm.
  - destruct (handler e) as [h |] eqn:He.
    + apply (Hh e h He w1 Hm).
    + exact Hm.
Qed.

Lemma invariant_with_context {A} (enter leave : M unit) (body : M A) :
  invariant I enter -> invariant I leave -> invariant I body ->
  invariant I (with_context enter leave body).
Proof.
  intros He Hl Hb w Hw. unfold with_context. specialize (He w Hw).
  destruct (enter w) as [[[] | e] w1]; simpl in *.
  - specialize (Hb w1 He). destruct (body w1) as [r w2]; simpl in *.
    specialize (Hl w2 Hb).
    destruct (leave w2) as [[[] | e] w3]; simpl in *; exact Hl.
  - exact He.
Qed.

Lemma invariant_for_each {A} (l : list A) (f : A -> M unit) :
  (forall x, In x l -> invariant I (f x)) -> invariant I (for_each l f).
Proof.
  induction l as [| x l IH]; intros Hf; simpl.
  - apply invariant_ret.
  - apply invariant_bind.
    + apply Hf. left. reflexivity.
    + intros _. apply IH. intros y Hy. apply Hf. right. exact Hy.
Qed.

Lemma invariant_when (b : bool) (m : M unit) :
  invariant I m -> invariant I (when b m).
Proof. intros Hm. destruct b; simpl; [exact Hm | apply invariant_ret]. Qed.

Lemma invariant_modify (g : World -> World) :
  (forall w, I w -> I (g w)) -> invariant I (modify g).
Proof. intros Hg w Hw. apply (Hg w Hw). Qed.

Lemma invariant_logger lvl msg :
  (forall w, I w -> I (record_log lvl msg w)) -> invariant I (logger lvl msg).
Proof. apply invariant_modify. Qed.

Lemma invariant_call_for env {A} (e : Ev) (result : list Ev -> A) :
  (forall w, I w -> I (record_call e w)) -> invariant I (call_for env e result).
Proof.
  intros He w Hw. unfold call_for.
  destruct (raises env (trace w) e); simpl; apply He; exact Hw.
Qed.

Lemma invariant_call env (e : Ev) :
  (forall w, I w -> I (record_call e w)) -> invariant I (call env e).
Proof. apply invariant_call_for. Qed.

End Invariants.

Ltac invariant_tac :=
  repeat first
    [ apply invariant_ret | apply invariant_raise | apply invariant_gets
    | apply invariant_bind; [| intros ?]
    | apply invariant_when
    | apply invariant_call
    | apply invariant_call_for
    | apply invariant_logger
    | match goal with
      | |- invariant _ (modify _) => apply invariant_modify
      end
    | match goal with
      | |- invariant _ (if ?b then _ else _) => destruct b
      | |- invariant _ (match ?x with _ => _ end) => destruct x
      end ].

(** ** What can leave the methods *)

Lemma absorbed_KeyError : absorbed KeyError.
Proof. split; [reflexivity | discriminate]. Qed.

Lemma absorbed_AttributeError : absorbed AttributeError.
Proof. split; [reflexivity | discriminate]. Qed.

Section DispatchThrows.

Variable env : Env.
Variable dev : Device.
Hypothesis Henv : forall history ev x, raises env history ev = Some x -> absorbed x.

Ltac forgiven :=
  let h := fresh "h" in let x := fresh "x" in let Hx := fresh "Hx" in
  intros h x Hx; exact (Henv _ _ _ Hx).

Lemma deal_with_answer_try_throws payload :
  throws absorbed (deal_with_answer_try env dev payload).
Proof.
  unfold deal_with_answer_try, open_dispatch, obtain_reply, GPIO_if_present,
    notify_renderer.
  apply throws_bind.
  { destruct payload; throws_tac; forgiven. }
  intros [reply |]; [| apply throws_raise; apply absorbed_AttributeError].
  apply throws_bind.
  { unfold dispatch_planned_actions. destruct (planned_actions reply); throws_tac.
    apply throws_for_each. intros plan _. unfold schedule_plan.
    throws_tac; try forgiven;
      first [ apply absorbed_KeyError | split; [reflexivity | discriminate] ]. }
  intros _. apply throws_bind.
  { unfold dispatch_volume. throws_tac; forgiven. }
  intros n1. apply throws_bind.
  { unfold dispatch_media_action. throws_tac; forgiven. }
  intros n2. apply throws_bind.
  { unfold dispatch_stop. throws_tac; forgiven. }
  intros n3. apply throws_bind.
  { unfold dispatch_answer. throws_tac; forgiven. }
  intros _. apply throws_bind.
  { unfold dispatch_language. throws_tac. }
  intros _. apply throws_bind.
  { unfold dispatch_identifier. throws_tac; forgiven. }
  intros _. apply throws_bind.
  { unfold dispatch_table. destruct (table reply); throws_tac.
    - apply throws_for_each. intros h _. throws_tac; forgiven.
    - apply throws_for_each. intros datum _. throws_tac.
      apply throws_for_each. intros value _. throws_tac; forgiven. }
  intros _. apply throws_bind.
  { unfold dispatch_rss. destruct (rss reply); throws_tac.
    apply throws_for_each. intros entity _. throws_tac; forgiven. }
  intros _. apply throws_ret.
Qed.

Lemma deal_with_answer_throws payload :
  throws (fun _ => False) (deal_with_answer env dev payload).
Proof.
  unfold deal_with_answer.
  apply (throws_try_except _ absorbed).
  - apply deal_with_answer_try_throws.
  - intros e h [Hexc Hne] Hh. unfold deal_with_answer_except in Hh.
    destruct e; simpl in Hh; try discriminate Hexc; try (contradiction Hne; reflexivity);
      inversion Hh; subst; throws_tac.
  - intros e [Hexc Hne] Hh. unfold deal_with_answer_except in Hh.
    destruct e; simpl in Hh; discriminate.
Qed.

End DispatchThrows.

(** X1.  When no collaborator raises [ConnectionError] or an exception
    outside [Exception], [deal_with_answer] returns a boolean for every
    payload: whatever fails inside the [try] (a collaborator, a plan without
    [plan_delay], a payload that is [None]) ends as the result [False]. *)
Theorem dispatch_absorbs_failures env dev payload w :
  (forall history ev x, raises env history ev = Some x -> absorbed x) ->
  exists ok, fst (deal_with_answer env dev payload w) = Ret ok.
Proof.
  intros Henv. apply throws_nothing_returns.
  apply (deal_with_answer_throws env dev Henv).
Qed.

Lemma dispatch_absorbs_failures_witness :
  exists ok,
    fst (deal_with_answer hoarse raspberry (PReply (mkReply None None None None None
           (Some "hello") None None None None)) boot) = Ret ok.
Proof.
  apply (dispatch_absorbs_failures hoarse raspberry).
  intros history ev x. destruct ev; simpl; intros H; inversion H.
  split; [reflexivity | discriminate].
Defined.

(** ** Invariants of the methods *)

Lemma speak_invariant env text (I : World -> Prop) :
  (forall lvl msg w, I w -> I (record_log lvl msg w)) ->
  (forall op w, tts_text op = text -> I w -> I (record_call (TTS op) w)) ->
  invariant I (__speak env text).
Proof.
  intros Hlog Htts. unfold __speak.
  invariant_tac;
    first [ (intros; apply Hlog; assumption)
          | (intros; apply Htts; [reflexivity | assumption]) ].
Qed.

Section MethodInvariants.

Variable env : Env.
Variable dev : Device.
Variable I : World -> Prop.
Hypothesis Hlog : forall lvl msg w, I w -> I (record_log lvl msg w).
Hypothesis Hcall : forall e w, quiet_dispatch_calls e -> I w -> I (record_call e w).
Hypothesis Hspeak : forall text, invariant I (__speak env text).

Ltac side :=
  first [ apply Hspeak
        | (intros; apply Hlog; assumption)
        | (intros; apply Hcall; [simpl; auto | assumption]) ].

Lemma open_dispatch_invariant payload : invariant I (open_dispatch env dev payload).
Proof.
  unfold open_dispatch, obtain_reply, GPIO_if_present, notify_renderer.
  destruct payload; invariant_tac; side.
Qed.

Lemma dispatch_planned_actions_invariant reply :
  invariant I (dispatch_planned_actions env reply).
Proof.
  unfold dispatch_planned_actions. destruct (planned_actions reply); invariant_tac;
    try side.
  apply invariant_for_each. intros plan _. unfold schedule_plan.
  invariant_tac; side.
Qed.

Lemma dispatch_volume_invariant reply nan :
  invariant I (dispatch_volume env reply nan).
Proof. unfold dispatch_volume. invariant_tac; side. Qed.

Lemma dispatch_media_action_invariant reply nan :
  invariant I (dispatch_media_action env reply nan).
Proof. unfold dispatch_media_action. invariant_tac; side. Qed.

Lemma dispatch_stop_invariant reply nan :
  invariant I (dispatch_stop env reply nan).
Proof. unfold dispatch_stop. invariant_tac; side. Qed.

Lemma dispatch_answer_invariant reply nan :
  invariant I (dispatch_answer env reply nan).
Proof.
  unfold dispatch_answer. destruct (answer reply).
  - do 3 (apply invariant_bind; [invariant_tac; side | intros _]).
    apply invariant_bind; [apply Hspeak | intros _]. invariant_tac; side.
  - destruct (negb nan && negb (has_key (identifier reply))); [| apply invariant_ret].
    do 2 (apply invariant_bind; [invariant_tac; side | intros _]).
    apply invariant_bind; [apply Hspeak | intros _]. invariant_tac; side.
Qed.

Lemma dispatch_identifier_invariant reply :
  invariant I (dispatch_identifier env reply).
Proof. unfold dispatch_identifier. invariant_tac; side. Qed.

Lemma dispatch_table_invariant reply : invariant I (dispatch_table env reply).
Proof.
  unfold dispatch_table. destruct (table reply) as [t |]; [| apply invariant_ret].
  apply invariant_bind.
  { apply invariant_for_each. intros h _.
    apply invariant_bind; [invariant_tac; side | intros _; apply Hspeak]. }
  intros _. apply invariant_bind; [invariant_tac; side | intros _].
  apply invariant_for_each. intros datum _.
  apply invariant_bind; [| intros _; invariant_tac; side].
  apply invariant_for_each. intros value _.
  apply invariant_bind; [invariant_tac; side | intros _; apply Hspeak].
Qed.

Lemma dispatch_rss_invariant reply : invariant I (dispatch_rss env reply).
Proof.
  unfold dispatch_rss. destruct (rss reply) as [feed |]; [| apply invariant_ret].
  apply invariant_for_each. intros entity _.
  apply invariant_bind; [invariant_tac; side | intros _; apply Hspeak].
Qed.

Hypothesis Hlanguage : forall s w, I w -> I (with_language s w).

Lemma dispatch_language_invariant reply : invariant I (dispatch_language reply).
Proof.
  unfold dispatch_language. invariant_tac; try side.
  intros; apply Hlanguage; assumption.
Qed.

Lemma deal_with_answer_try_invariant payload :
  invariant I (deal_with_answer_try env dev payload).
Proof.
  unfold deal_with_answer_try.
  apply invariant_bind; [apply open_dispatch_invariant |].
  intros [reply |]; [| apply invariant_raise].
  apply invariant_bind; [apply dispatch_planned_actions_invariant | intros _].
  apply invariant_bind; [apply dispatch_volume_invariant | intros n1].
  apply invariant_bind; [apply dispatch_media_action_invariant | intros n2].
  apply invariant_bind; [apply dispatch_stop_invariant | intros n3].
  apply invariant_bind; [apply dispatch_answer_invariant | intros _].
  apply invariant_bind; [apply dispatch_language_invariant | intros _].
  apply invariant_bind; [apply dispatch_identifier_invariant | intros _].
  apply invariant_bind; [apply dispatch_table_invariant | intros _].
  apply invariant_bind; [apply dispatch_rss_invariant | intros _].
  apply invariant_ret.
Qed.

Lemma deal_with_answer_invariant payload :
  invariant I (deal_with_answer env dev payload).
Proof.
  unfold deal_with_answer. apply invariant_try_except.
  - apply deal_with_answer_try_invariant.
  - intros e h He. unfold deal_with_answer_except in He.
    destruct e; simpl in He; inversion He; subst; unfold to_error;
      invariant_tac; side.
Qed.

Hypothesis Hcapture : forall e w, capture_calls e -> I w -> I (record_call e w).
Hypothesis Hgoogle : forall w, I w -> I (with_default_stt "google" w).

Ltac side2 :=
  first [ (intros; apply Hlog; assumption)
        | (intros; apply Hgoogle; assumption)
        | (intros; apply Hcapture; [simpl; auto | assumption]) ].

Lemma recognize_audio_invariant audio :
  invariant I (recognize_audio env dev audio).
Proof.
  unfold recognize_audio, recognize, internet_on. invariant_tac; side2.
Qed.

Lemma deal_with_error_invariant payload :
  invariant I (deal_with_error env dev payload).
Proof.
  unfold deal_with_error, notify_renderer, global_config_setitem, print.
  invariant_tac; side2.
Qed.

Lemma capture_invariant : invariant I (capture env dev).
Proof.
  unfold capture. apply invariant_with_context; try (invariant_tac; side2).
  apply invariant_try_except.
  - unfold listen. invariant_tac; side2.
  - intros e h He. destruct e; inversion He; subst.
    apply invariant_bind; [invariant_tac; side2 | intros _].
    apply invariant_bind; [apply deal_with_error_invariant | intros _].
    apply invariant_ret.
Qed.

Lemma recognize_and_answer_invariant audio :
  invariant I (recognize_and_answer env dev audio).
Proof.
  unfold recognize_and_answer. apply invariant_try_except.
  - apply invariant_bind; [invariant_tac; side2 | intros _].
    apply invariant_bind; [apply recognize_audio_invariant | intros value].
    apply invariant_bind; [invariant_tac; side2 | intros _].
    apply invariant_bind;
      [unfold notify_renderer; invariant_tac; side2 | intros _].
    apply invariant_bind; [apply deal_with_answer_invariant | intros ok].
    destruct ok; invariant_tac; side2.
  - intros e h He. destruct e; inversion He; subst.
    apply invariant_bind; [invariant_tac; side2 | intros _].
    apply deal_with_error_invariant.
Qed.

Lemma hotword_detected_callback_invariant :
  invariant I (hotword_detected_callback env dev).
Proof.
  unfold hotword_detected_callback, stop_detector, GPIO_if_present, notify_renderer.
  do 6 (apply invariant_bind; [invariant_tac; side2 | intros ?]).
  apply invariant_bind; [apply capture_invariant | intros captured].
  destruct captured as [audio |]; [| apply invariant_ret].
  do 3 (apply invariant_bind; [invariant_tac; side2 | intros ?]).
  apply recognize_and_answer_invariant.
Qed.

Hypothesis Hstart : forall w, I w -> I (record_call Detector_start w).
Hypothesis Hreset :
  forall e w, baseline_reset_calls e -> I w -> I (record_call e w).
Hypothesis Hqueue : forall q w, I w -> I (with_queue q w).

Ltac side3 :=
  first [ (intros; apply Hlog; assumption)
        | (intros; apply Hqueue; assumption)
        | (intros; apply Hstart; assumption)
        | (intros; apply Hreset; [simpl; auto | assumption]) ].

Lemma restore_baseline_invariant : invariant I (restore_baseline env dev).
Proof.
  unfold restore_baseline. apply invariant_bind; [invariant_tac; side3 | intros _].
  apply invariant_when. apply invariant_try_except.
  - invariant_tac; side3.
  - intros e h He. destruct e; inversion He; subst. apply invariant_ret.
Qed.

Lemma handle_trigger_invariant : invariant I (handle_trigger env dev).
Proof.
  unfold handle_trigger. apply invariant_bind; [invariant_tac; side3 | intros _].
  apply invariant_bind; [apply invariant_gets | intros queue].
  destruct queue as [| ev rest].
  - unfold start_detector. apply invariant_bind; [invariant_tac; side3 | intros _].
    apply hotword_detected_callback_invariant.
  - apply invariant_bind; [invariant_tac; side3 | intros _].
    apply invariant_bind; [apply deal_with_answer_invariant | intros _].
    apply invariant_ret.
Qed.

Lemma start_cycle_invariant : invariant I (start_cycle env dev).
Proof.
  unfold start_cycle. apply invariant_bind; [apply handle_trigger_invariant | intros _].
  apply invariant_bind; [invariant_tac; side3 | intros _].
  apply restore_baseline_invariant.
Qed.

Lemma start_invariant turns : invariant I (start env dev turns).
Proof.
  induction turns as [| n IH]; simpl.
  - apply invariant_ret.
  - apply invariant_bind; [apply start_cycle_invariant | intros _; exact IH].
Qed.

End MethodInvariants.

(** ** The loop under forgiving collaborators *)

Lemma forgiving_absorbed env :
  forgiving env ->
  forall history ev x, raises env history ev = Some x -> absorbed x.
Proof.
  intros Henv history ev x Hx. apply Henv in Hx.
  destruct ev as [[] | | | | pin level | message payload | | | | | | | |];
    simpl in Hx; try contradiction; try exact Hx;
    try (subst x; split; [reflexivity | discriminate]).
  - destruct (pin =? 27)%Z; [| contradiction].
    destruct level; [exact Hx | subst x; split; [reflexivity | discriminate]].
  - destruct (message =? "speaking"); [exact Hx | contradiction].
Qed.

Section LoopThrows.

Variable env : Env.
Variable dev : Device.
Hypothesis Henv : forgiving env.

Ltac forgiven :=
  let h := fresh "h" in let x := fresh "x" in let Hx := fresh "Hx" in
  intros h x Hx; apply Henv in Hx; simpl in Hx;
  first [ exact Hx | contradiction ].

Lemma recognize_audio_throws audio :
  throws (fun x => x = UnknownValueError) (recognize_audio env dev audio).
Proof.
  unfold recognize_audio, recognize, internet_on. throws_tac; forgiven.
Qed.

Lemma deal_with_error_timeout_throws :
  throws (fun _ => False) (deal_with_error env dev "ListenTimeout").
Proof.
  unfold deal_with_error. simpl. unfold notify_renderer. throws_tac; forgiven.
Qed.

Lemma deal_with_error_recognition_throws :
  throws (fun _ => False) (deal_with_error env dev "RecognitionError").
Proof.
  unfold deal_with_error. simpl. unfold notify_renderer. throws_tac; forgiven.
Qed.

Lemma capture_throws : throws (fun _ => False) (capture env dev).
Proof.
  unfold capture. apply throws_with_context; try (throws_tac; forgiven).
  apply (throws_try_except _ (fun x => x = WaitTimeoutError)).
  - unfold listen. throws_tac; forgiven.
  - intros e h -> Hh. inversion Hh; subst.
    apply throws_bind; [apply throws_logger | intros _].
    apply throws_bind; [apply deal_with_error_timeout_throws | intros _].
    apply throws_ret.
  - intros e -> Hh. discriminate Hh.
Qed.

Lemma recognize_and_answer_throws audio :
  throws (fun _ => False) (recognize_and_answer env dev audio).
Proof.
  unfold recognize_and_answer.
  apply (throws_try_except _ (fun x => x = UnknownValueError)).
  - apply throws_bind; [apply throws_logger | intros _].
    apply throws_bind; [apply recognize_audio_throws | intros value].
    apply throws_bind; [apply throws_logger | intros _].
    apply throws_bind; [unfold notify_renderer; throws_tac; forgiven | intros _].
    apply throws_bind.
    + apply (throws_weaken (fun _ => False)); [tauto |].
      apply (deal_with_answer_throws env dev (forgiving_absorbed env Henv)).
    + intros ok. destruct ok; throws_tac.
  - intros e h -> Hh. inversion Hh; subst.
    apply throws_bind; [apply throws_logger | intros _].
    apply deal_with_error_recognition_throws.
  - intros e -> Hh. discriminate Hh.
Qed.

Lemma hotword_detected_callback_throws :
  throws (fun _ => False) (hotword_detected_callback env dev).
Proof.
  unfold hotword_detected_callback, stop_detector, GPIO_if_present, notify_renderer.
  do 6 (apply throws_bind; [throws_tac; forgiven | intros ?]).
  apply throws_bind; [apply capture_throws | intros captured].
  destruct captured as [audio |]; [| apply throws_ret].
  do 3 (apply throws_bind; [throws_tac; forgiven | intros ?]).
  apply recognize_and_answer_throws.
Qed.

Lemma restore_baseline_throws : throws (fun _ => False) (restore_baseline env dev).
Proof.
  unfold restore_baseline. apply throws_bind; [throws_tac; forgiven | intros _].
  apply throws_when. apply (throws_try_except _ (fun x => x = RuntimeError)).
  - throws_tac; forgiven.
  - intros e h -> Hh. inversion Hh; subst. apply throws_ret.
  - intros e -> Hh. discriminate Hh.
Qed.

Lemma handle_trigger_throws : throws (fun _ => False) (handle_trigger env dev).
Proof.
  unfold handle_trigger. apply throws_bind; [apply throws_logger | intros _].
  apply throws_bind; [apply throws_gets | intros queue].
  destruct queue as [| ev rest].
  - unfold start_detector. apply throws_bind; [throws_tac; forgiven | intros _].
    apply hotword_detected_callback_throws.
  - apply throws_bind; [apply throws_modify | intros _].
    apply throws_bind;
      [apply (deal_with_answer_throws env dev (forgiving_absorbed env Henv)) | intros _].
    apply throws_ret.
Qed.

Lemma start_cycle_throws : throws (fun _ => False) (start_cycle env dev).
Proof.
  unfold start_cycle. apply throws_bind; [apply handle_trigger_throws | intros _].
  apply throws_bind; [apply throws_logger | intros _].
  apply restore_baseline_throws.
Qed.

Lemma start_throws turns : throws (fun _ => False) (start env dev turns).
Proof.
  induction turns as [| n IH]; simpl.
  - apply throws_ret.
  - apply throws_bind; [apply start_cycle_throws | intros _; exact IH].
Qed.

End LoopThrows.

(** An observation that no call of a class feeds is an invariant. *)
Lemma observation_call {X} (obs : Ev -> list X) (c : list X) e w :
  obs e = [] ->
  flat_map obs (trace w) = c -> flat_map obs (trace (record_call e w)) = c.
Proof.
  intros He Hw. simpl. rewrite flat_map_app, Hw. simpl. rewrite He, !app_nil_r.
  reflexivity.
Qed.

Lemma invariant_adds {X} (obs : Ev -> list X) {T} (m : M T) w :
  (forall c, invariant (fun v => flat_map obs (trace v) = c) m) ->
  adds obs w (snd (m w)) [].
Proof.
  intros Hm. unfold adds. rewrite app_nil_r.
  apply (Hm (flat_map obs (trace w)) w eq_refl).
Qed.

Section HandlingObservations.

Variable env : Env.
Variable dev : Device.
Variable X : Type.
Variable obs : Ev -> list X.

(** What the handling step of a turn adds to an observation that none of
    its calls feeds: nothing. *)
Lemma handle_trigger_adds_nothing w :
  (forall e, dispatch_calls e \/ capture_calls e \/ e = Detector_start ->
             obs e = []) ->
  adds obs w (snd (handle_trigger env dev w)) [].
Proof.
  intros Hobs. apply invariant_adds. intros c.
  apply handle_trigger_invariant; try (intros; assumption).
  - intros e v He. apply observation_call. apply Hobs. left.
    destruct e; simpl in *; try exact He; exact I.
  - intros text. apply speak_invariant; [intros; assumption |].
    intros op v _. apply observation_call. apply Hobs. left. exact I.
  - intros e v He. apply observation_call. apply Hobs. right. left. exact He.
  - intros v. apply observation_call. apply Hobs. right. right. reflexivity.
Qed.

End HandlingObservations.

Lemma restore_baseline_restorations env dev w :
  adds restored_by w (snd (restore_baseline env dev w)) [restore_softvolume].
Proof.
  unfold restore_baseline, bind, call, call_for.
  destruct (raises env (trace w) (Player restore_softvolume)).
  - exact (adds_call restored_by (Player restore_softvolume) w).
  - set (w1 := record_call (Player restore_softvolume) w).
    assert (Hrest : adds restored_by w1
              (snd (when (has_GPIO dev)
                      (try_except
                         (bind (call_for env (GPIO_output 27 false) (fun _ => tt))
                            (fun _ => call_for env (GPIO_output 22 false) (fun _ => tt)))
                         (fun e => match e with
                                   | RuntimeError => Some (ret tt)
                                   | _ => None
                                   end)) w1)) []).
    { apply invariant_adds. intros c. apply invariant_when.
      apply invariant_try_except.
      - invariant_tac; intros v Hv;
          (apply observation_call; [reflexivity | exact Hv]).
      - intros e h He. destruct e; inversion He; subst. apply invariant_ret. }
    exact (adds_trans restored_by w w1 _ [restore_softvolume] []
             (adds_call restored_by (Player restore_softvolume) w) Hrest).
Qed.

Lemma start_cycle_restorations env dev w :
  adds restored_by w (snd (start_cycle env dev w)) [restore_softvolume] \/
  (exists e, fst (start_cycle env dev w) = Raise e).
Proof.
  unfold start_cycle, bind.
  pose proof (handle_trigger_adds_nothing env dev _ restored_by w) as Hh.
  destruct (handle_trigger env dev w) as [[[] | e] w1]; simpl in *.
  - left.
    assert (H1 : adds restored_by w w1 []).
    { apply Hh. intros e He.
      destruct e as [[] | | | | | | | | | | | | |]; try reflexivity.
      destruct He as [He | [He | He]]; [destruct He | destruct He | discriminate He]. }
    pose proof (restore_baseline_restorations env dev
                  (record_log DEBUG "after starting detector" w1)) as H2.
    exact (adds_trans restored_by w w1 _ [] [restore_softvolume] H1 H2).
  - right. exists e. reflexivity.
Qed.

(** X2.  With collaborators that fail only in the ways the module has an
    [except] clause for, the loop does not end: any number of turns runs to
    completion, and the soft volume is restored exactly once per turn. *)
Theorem loop_survives_forgiving_collaborators env dev turns w :
  forgiving env ->
  exists w',
    start env dev turns w = (Ret tt, w') /\
    length (restorations (new_calls w w')) = turns.
Proof.
  intros Henv. revert w. induction turns as [| n IH]; intros w.
  - exists w. split; [reflexivity |]. rewrite new_calls_same. reflexivity.
  - simpl. unfold bind.
    destruct (throws_nothing_returns (start_cycle env dev) w
                (start_cycle_throws env dev Henv)) as [[] Hret].
    destruct (start_cycle_restorations env dev w) as [Hadd | [e He]];
      [| rewrite He in Hret; discriminate Hret].
    destruct (frames_new_calls any_call (start_cycle env dev) w
                (fst (start_cycle env dev w)) (snd (start_cycle env dev w))
                (start_cycle_frames env dev)) as [H1 _].
    { destruct (start_cycle env dev w); reflexivity. }
    destruct (start_cycle env dev w) as [r w1]; simpl in *. subst r.
    destruct (IH w1) as (w' & Hrun & Hcount).
    exists w'. split; [exact Hrun |].
    destruct (frames_new_calls any_call (start env dev n) w1 (Ret tt) w'
                (start_frames env dev n) Hrun) as [H2 _].
    assert (H3 : trace w' = trace w ++ new_calls w w1 ++ new_calls w1 w').
    { rewrite H2, H1 at 1. rewrite app_assoc. reflexivity. }
    rewrite (new_calls_app w w' _ H3).
    unfold restorations in *. rewrite flat_map_app, length_app, Hcount.
    rewrite (adds_new_calls restored_by w w1 [restore_softvolume] _ H1 Hadd).
    reflexivity.
Qed.

Lemma loop_survives_forgiving_collaborators_witness :
  exists w',
    start silent_room raspberry 3 boot = (Ret tt, w') /\
    length (restorations (new_calls boot w')) = 3%nat.
Proof.
  apply (loop_survives_forgiving_collaborators silent_room raspberry 3 boot).
  intros history ev x. destruct ev; simpl; intros H; inversion H. reflexivity.
Defined.

(** ** The calls a method makes *)

Lemma only_calls_refl A w : only_calls A w w.
Proof. exists []. split; [symmetry; apply app_nil_r | constructor]. Qed.

Lemma only_calls_call (A : Ev -> Prop) w0 e w :
  A e -> only_calls A w0 w -> only_calls A w0 (record_call e w).
Proof.
  intros He [l [Hl Hall]]. exists (l ++ [e]). split.
  - simpl. rewrite Hl, app_assoc. reflexivity.
  - apply Forall_app. split; [exact Hall | constructor; [exact He | constructor]].
Qed.

Lemma only_calls_new_calls A w0 w :
  only_calls A w0 w -> Forall A (new_calls w0 w).
Proof. intros [l [Hl Hall]]. rewrite (new_calls_app w0 w l Hl). exact Hall. Qed.

Lemma quiet_dispatch_calls_dispatch e : quiet_dispatch_calls e -> dispatch_calls e.
Proof. destruct e; simpl; auto. Qed.

(** X3.  Whatever the payload and however it ends, [deal_with_answer] calls
    only the dialogue service, the scheduler, the playback operations of the
    player (and its bell), the TTS provider, the lights, the renderer with
    the message ["speaking"], and GPIO line 27 high.  It never opens the
    microphone, calls a recogniser, the hotword detector or the network
    probe, and never restores the soft volume. *)
Theorem dispatch_calls_only env dev payload w :
  Forall dispatch_calls (new_calls w (snd (deal_with_answer env dev payload w))).
Proof.
  apply only_calls_new_calls.
  apply (deal_with_answer_invariant env dev (only_calls dispatch_calls w)).
  - intros lvl msg v Hv. exact Hv.
  - intros e v He Hv. apply only_calls_call;
      [apply quiet_dispatch_calls_dispatch; exact He | exact Hv].
  - intros text. apply speak_invariant.
    + intros lvl msg v Hv. exact Hv.
    + intros op v _ Hv. apply only_calls_call; [exact I | exact Hv].
  - intros s v Hv. exact Hv.
  - apply only_calls_refl.
Qed.

(** ** The settings across a dispatch *)

Ltac untouched :=
  first [ (intros; assumption)
        | (intros; apply speak_invariant; intros; assumption) ].

(** X4.  [deal_with_answer] never changes the STT provider, the TTS
    provider or the event queue, whatever the payload and however it ends. *)
Theorem dispatch_keeps_providers_and_queue env dev payload w :
  let w' := snd (deal_with_answer env dev payload w) in
  default_stt w' = default_stt w /\
  default_tts w' = default_tts w /\
  event_queue w' = event_queue w.
Proof.
  intros w'. subst w'. repeat split.
  - apply (deal_with_answer_invariant env dev (fun v => default_stt v = default_stt w));
      untouched || reflexivity.
  - apply (deal_with_answer_invariant env dev (fun v => default_tts v = default_tts w));
      untouched || reflexivity.
  - apply (deal_with_answer_invariant env dev (fun v => event_queue v = event_queue w));
      untouched || reflexivity.
Qed.

Section LanguageSwitch.

Variable env : Env.
Variable dev : Device.

Lemma keeps_language {T} (m : M T) w r w' :
  (forall c, invariant (fun v => susi_language v = c) m) ->
  m w = (r, w') -> susi_language w' = susi_language w.
Proof.
  intros Hm Hrun. generalize (Hm (susi_language w) w eq_refl). rewrite Hrun. auto.
Qed.

Lemma dispatch_language_sets reply w r w' :
  dispatch_language reply w = (r, w') ->
  susi_language w' =
    match language reply with
    | Some lang => lang
    | None => susi_language w
    end.
Proof.
  unfold dispatch_language. destruct (language reply) as [lang |].
  - unfold bind, gets, logger, modify. simpl.
    destruct (lang =? susi_language w) eqn:Hl; simpl; intros H; inversion H; subst.
    + apply String.eqb_eq in Hl. symmetry. exact Hl.
    + reflexivity.
  - intros H. inversion H; subst. reflexivity.
Qed.

Ltac keep H lem :=
  match type of H with
  | ?m ?w = _ =>
      rewrite (keeps_language m w _ _ (fun c => ltac:(apply lem; untouched)) H)
  end.

Lemma Dispatched_language payload reply w w' :
  Dispatched env dev payload reply w w' ->
  susi_language w' =
    match language reply with
    | Some lang => lang
    | None => susi_language w
    end.
Proof.
  intros [w0 w1 w2 w3 w4 w5 w6 w7 w8 n1 n2 n3 H0 H1 H2 H3 H4 H5 H6 H7 H8 H9].
  keep H9 dispatch_rss_invariant.
  keep H8 dispatch_table_invariant.
  keep H7 dispatch_identifier_invariant.
  rewrite (dispatch_language_sets _ _ _ _ H6).
  destruct (language reply); [reflexivity |].
  keep H5 dispatch_answer_invariant.
  keep H4 dispatch_stop_invariant.
  keep H3 dispatch_media_action_invariant.
  keep H2 dispatch_volume_invariant.
  keep H1 dispatch_planned_actions_invariant.
  keep H0 open_dispatch_invariant.
  reflexivity.
Qed.

End LanguageSwitch.

(** X5.  A dispatch that returns True leaves the language setting equal to
    the reply's [language] when the reply has one (and unchanged
    otherwise); with the Google recogniser selected, the next recognition
    is made in that language. *)
Theorem language_switch_takes_effect env dev payload reply audio w w' :
  reply_of env payload w = Some reply ->
  deal_with_answer env dev payload w = (Ret true, w') ->
  default_stt w = "google" ->
  susi_language w' =
    match language reply with
    | Some lang => lang
    | None => susi_language w
    end /\
  new_calls w' (snd (recognize_audio env dev audio w')) =
    [Recognize (recognize_google audio (susi_language w'))].
Proof.
  intros Hreply Hrun Hstt. split.
  - apply (Dispatched_language env dev payload).
    apply dispatch_returned_for; assumption.
  - apply recognize_audio_google.
    assert (H : default_stt (snd (deal_with_answer env dev payload w)) = "google").
    { apply (deal_with_answer_invariant env dev (fun v => default_stt v = "google"));
        untouched. }
    rewrite Hrun in H. exact H.
Qed.

Lemma language_switch_takes_effect_witness :
  let env := answering bonjour in
  let w' := snd (deal_with_answer env raspberry (PText "parle francais") boot) in
  (susi_language w' =
     match language bonjour with
     | Some lang => lang
     | None => susi_language boot
     end) /\
  new_calls w' (snd (recognize_audio env raspberry O w')) =
    [Recognize (recognize_google O (susi_language w'))].
Proof.
  intros env w'.
  apply (language_switch_takes_effect env raspberry (PText "parle francais")
           bonjour O boot w'); vm_compute; reflexivity.
Defined.

(** ** Events waiting in the queue *)

Lemma adds_silent_call {X} (obs : Ev -> list X) e w v xs :
  obs e = [] -> adds obs w v xs -> adds obs w (record_call e v) xs.
Proof.
  unfold adds. simpl. intros He H.
  rewrite flat_map_app, H. simpl. rewrite He, !app_nil_r. reflexivity.
Qed.

Lemma stable_after_bind (allowed : Ev -> Prop) (I : World -> Prop)
    {A B} (m : M A) (k : A -> M B) w :
  stable allowed I ->
  I (snd (m w)) ->
  (forall a, frames allowed (k a)) ->
  I (snd (bind m k w)).
Proof.
  intros HI Hm Hk. unfold bind. destruct (m w) as [[a | x] w1]; [| exact Hm].
  apply (Hk a I HI w1 Hm).
Qed.

Lemma stable_after_try (allowed : Ev -> Prop) (I : World -> Prop)
    {A} (m : M A) (handler : Exn -> option (M A)) w :
  stable allowed I ->
  I (snd (m w)) ->
  (forall e h, handler e = Some h -> frames allowed h) ->
  I (snd (try_except m handler w)).
Proof.
  intros HI Hm Hh. unfold try_except. destruct (m w) as [[a | x] w1]; [exact Hm |].
  destruct (handler x) as [h |] eqn:Hx; [| exact Hm].
  apply (Hh x h Hx I HI w1 Hm).
Qed.

Ltac mute :=
  let e := fresh "e" in let H := fresh "H" in
  intros e H; destruct e; simpl in H;
  first [ contradiction | discriminate H | exact eq_refl ].

Ltac quietly lem :=
  eapply frames_weaken; cycle 1; [apply lem | mute].

Section QueuedEvents.

Variable env : Env.
Variable dev : Device.

Lemma obtain_reply_asked payload w :
  adds asked_by w (snd (obtain_reply env payload w)) (query_of payload).
Proof.
  destruct payload as [text | reply |]; simpl.
  - unfold bind, logger, modify, call_for. simpl.
    destruct (raises env (trace w) (Susi_ask text)); simpl;
      apply (adds_call asked_by (Susi_ask text)
               (record_log DEBUG "Sending payload to susi server" w)).
  - exact (adds_refl asked_by w).
  - exact (adds_refl asked_by w).
Qed.

(** After the reply has been obtained, the dispatch sends nothing more to
    the dialogue service. *)
Lemma deal_with_answer_after_obtain (I : World -> Prop) payload w :
  stable no_ask I ->
  I (snd (obtain_reply env payload w)) ->
  I (snd (deal_with_answer env dev payload w)).
Proof.
  intros HI Hobtain. unfold deal_with_answer.
  apply (stable_after_try no_ask I); [exact HI | |].
  - unfold deal_with_answer_try.
    apply (stable_after_bind no_ask I); [exact HI | |].
    + unfold open_dispatch.
      apply (stable_after_bind no_ask I); [exact HI | exact Hobtain |].
      intros reply. unfold GPIO_if_present, notify_renderer.
      frames_tac; exact eq_refl.
    + intros [reply |]; [| apply frames_raise].
      apply frames_bind;
        [quietly (dispatch_planned_actions_frames env reply) | intros _].
      apply frames_bind;
        [quietly (dispatch_volume_frames env reply false) | intros n1].
      apply frames_bind;
        [quietly (dispatch_media_action_frames env reply n1) | intros n2].
      apply frames_bind;
        [quietly (dispatch_stop_frames env reply n2) | intros n3].
      apply frames_bind;
        [quietly (dispatch_answer_frames env reply n3) | intros _].
      apply frames_bind;
        [quietly (dispatch_language_frames reply) | intros _].
      apply frames_bind;
        [quietly (dispatch_identifier_frames env reply) | intros _].
      apply frames_bind;
        [quietly (dispatch_table_frames env reply) | intros _].
      apply frames_bind;
        [quietly (dispatch_rss_frames env reply) | intros _].
      apply frames_ret.
  - intros e h He. unfold deal_with_answer_except in He.
    destruct e; simpl in He; inversion He; subst; unfold to_error; frames_tac.
Qed.

Lemma deal_with_answer_asked payload w :
  adds asked_by w (snd (deal_with_answer env dev payload w)) (query_of payload).
Proof.
  apply (deal_with_answer_after_obtain
           (fun v => adds asked_by w v (query_of payload))).
  - split; try (intros; assumption).
    intros e v He Hv. apply adds_silent_call; assumption.
  - apply obtain_reply_asked.
Qed.

(** The calls of the dispatch of a recognised text: the query first. *)
Lemma deal_with_answer_text_calls text w :
  exists calls,
    trace (snd (deal_with_answer env dev (PText text) w)) =
      trace w ++ Susi_ask text :: calls /\
    Forall no_ask calls.
Proof.
  apply (deal_with_answer_after_obtain
           (fun v => exists calls,
                trace v = trace w ++ Susi_ask text :: calls /\ Forall no_ask calls)).
  - split; try (intros; assumption).
    intros e v He (calls & Hv & Hall). exists (calls ++ [e]). split.
    + simpl. rewrite Hv, <- app_assoc. reflexivity.
    + apply Forall_app. split; [exact Hall | constructor; [exact He | constructor]].
  - exists []. split; [| constructor].
    simpl. unfold bind, logger, modify, call_for. simpl.
    destruct (raises env (trace w) (Susi_ask text)); reflexivity.
Qed.

Lemma start_cycle_queued w event rest :
  event_queue w = event :: rest ->
  start_cycle env dev w =
    ((deal_with_answer env dev event ;; ret tt) ;;
     logger DEBUG "after starting detector" ;;
     restore_baseline env dev)
      (with_queue rest (record_log DEBUG "starting detector" w)).
Proof.
  intros Hq. unfold start_cycle. unfold bind at 1.
  rewrite (handle_trigger_queued env dev w event rest Hq). reflexivity.
Qed.

(** What a turn that finds an event waiting leaves behind. *)
Lemma queued_turn_invariant (I : World -> Prop) w event rest :
  (forall lvl msg v, I v -> I (record_log lvl msg v)) ->
  (forall e v, queued_turn_calls e -> I v -> I (record_call e v)) ->
  (forall s v, I v -> I (with_language s v)) ->
  event_queue w = event :: rest ->
  I (with_queue rest w) ->
  I (snd (start_cycle env dev w)).
Proof.
  intros Hlog Hcall Hlang Hq Hw. rewrite (start_cycle_queued w event rest Hq).
  assert (Hturn : invariant I
            ((deal_with_answer env dev event ;; ret tt) ;;
             logger DEBUG "after starting detector" ;;
             restore_baseline env dev)).
  { apply invariant_bind; [apply invariant_bind |].
    - apply deal_with_answer_invariant.
      + exact Hlog.
      + intros e v He Hv. apply Hcall; [| exact Hv].
        left. apply quiet_dispatch_calls_dispatch. exact He.
      + intros text. apply speak_invariant; [exact Hlog |].
        intros op v _ Hv. apply Hcall; [| exact Hv]. left. exact Logic.I.
      + exact Hlang.
    - intros _. apply invariant_ret.
    - intros _. apply invariant_bind; [apply invariant_logger; apply Hlog | intros _].
      apply restore_baseline_invariant.
      intros e v He Hv. apply Hcall; [| exact Hv]. right. exact He. }
  apply Hturn. exact (Hlog DEBUG "starting detector" (with_queue rest w) Hw).
Qed.

Lemma start_cycle_asked w event rest :
  event_queue w = event :: rest ->
  adds asked_by w (snd (start_cycle env dev w)) (query_of event).
Proof.
  intros Hq. rewrite (start_cycle_queued w event rest Hq).
  set (w0 := with_queue rest (record_log DEBUG "starting detector" w)).
  assert (Hdeal : adds asked_by w (snd (deal_with_answer env dev event w0))
                    (query_of event)).
  { exact (deal_with_answer_asked event w0). }
  unfold bind at 1 2.
  destruct (deal_with_answer env dev event w0) as [[ok | x] w1]; [| exact Hdeal].
  simpl in Hdeal. simpl.
  apply (invariant_bind (fun v => adds asked_by w v (query_of event)));
    [| | exact Hdeal].
  - apply invariant_logger. intros v Hv. exact Hv.
  - intros _. apply restore_baseline_invariant.
    intros e v He Hv.
    rewrite <- (app_nil_r (query_of event)).
    apply (adds_trans asked_by w v _ _ [] Hv).
    replace (@nil string) with (asked_by e);
      [apply adds_call | destruct e; simpl in He; first [contradiction | reflexivity]].
Qed.

Lemma only_calls_trans (A : Ev -> Prop) w0 w1 w2 :
  only_calls A w0 w1 -> only_calls A w1 w2 -> only_calls A w0 w2.
Proof.
  intros [l1 [H1 F1]] [l2 [H2 F2]]. exists (l1 ++ l2). split.
  - rewrite H2, H1, app_assoc. reflexivity.
  - apply Forall_app. split; assumption.
Qed.

Lemma start_queued turns :
  forall w r w',
    (turns <= length (event_queue w))%nat ->
    start env dev turns w = (r, w') ->
    only_calls queued_turn_calls w w' /\
    (r = Ret tt ->
     event_queue w' = skipn turns (event_queue w) /\
     adds asked_by w w' (queries (firstn turns (event_queue w)))).
Proof.
  induction turns as [| turns IH]; intros w r w' Hlen Hrun.
  - simpl in Hrun. inversion Hrun; subst. split; [apply only_calls_refl |].
    intros _. split; [reflexivity | apply adds_refl].
  - destruct (event_queue w) as [| event rest] eqn:Hq; [exfalso; exact (Nat.nle_succ_0 _ Hlen) |].
    simpl in Hlen. apply le_S_n in Hlen.
    assert (Hcalls : only_calls queued_turn_calls w (snd (start_cycle env dev w))).
    { apply (queued_turn_invariant (only_calls queued_turn_calls w) w event rest).
      - intros lvl msg v Hv. exact Hv.
      - intros e v He Hv. apply only_calls_call; assumption.
      - intros s v Hv. exact Hv.
      - exact Hq.
      - exact (only_calls_refl queued_turn_calls w). }
    assert (Hrest : event_queue (snd (start_cycle env dev w)) = rest).
    { apply (queued_turn_invariant (fun v => event_queue v = rest) w event rest);
        first [ (intros; assumption) | exact Hq | reflexivity ]. }
    generalize (start_cycle_asked w event rest Hq). intros Hasked.
    simpl in Hrun. unfold bind in Hrun.
    destruct (start_cycle env dev w) as [[[] | x] w1]; simpl in *.
    + rewrite <- Hrest in Hlen.
      destruct (IH w1 r w' Hlen Hrun) as [Hc Hr]. split.
      * apply (only_calls_trans _ w w1 w'); assumption.
      * intros Hret. destruct (Hr Hret) as [Hqueue Hadds]. split.
        -- rewrite Hqueue, Hrest. reflexivity.
        -- rewrite Hrest in Hadds.
           apply (adds_trans asked_by w w1 w'); assumption.
    + inversion Hrun; subst. split; [exact Hcalls | discriminate].
Qed.

End QueuedEvents.

(** X6.  Events waiting in the queue are dispatched before anything else,
    one per turn and in order of arrival: as long as the turns do not
    outnumber the waiting events, a run of the loop that completes has
    removed exactly that many events from the front of the queue, has sent
    to the dialogue service exactly the texts among them, in queue order,
    and has made only dispatch calls and baseline resets (it has not started
    the hotword detector, opened the microphone or called a recogniser). *)
Theorem queued_events_served_in_order env dev turns w w' :
  (turns <= length (event_queue w))%nat ->
  start env dev turns w = (Ret tt, w') ->
  event_queue w' = skipn turns (event_queue w) /\
  asked (new_calls w w') = queries (firstn turns (event_queue w)) /\
  Forall queued_turn_calls (new_calls w w').
Proof.
  intros Hlen Hrun.
  destruct (start_queued env dev turns w (Ret tt) w' Hlen Hrun) as [[l [Hl Hall]] Hret].
  destruct (Hret eq_refl) as [Hqueue Hadds].
  rewrite (new_calls_app w w' l Hl).
  split; [exact Hqueue | split; [| exact Hall]].
  apply (adds_new_calls asked_by w w' _ l Hl Hadds).
Qed.

Lemma queued_events_served_in_order_witness :
  let w' := snd (start (answering no_reply) raspberry 2 busy) in
  event_queue w' = [PText "stop"] /\
  asked (new_calls busy w') = ["what time is it"] /\
  Forall queued_turn_calls (new_calls busy w').
Proof.
  intros w'.
  apply (queued_events_served_in_order (answering no_reply) raspberry 2 busy w').
  - apply Nat.leb_le. reflexivity.
  - vm_compute. reflexivity.
Defined.


(** ** A TTS provider the module does not know *)

Lemma speak_unknown_tts env text w :
  known_tts (default_tts w) = false ->
  __speak env text w = (Ret tt, w).
Proof.
  unfold known_tts. intros H.
  apply orb_false_iff in H. destruct H as [H Hw].
  apply orb_false_iff in H. destruct H as [Hg Hf].
  unfold __speak, bind, gets, when, ret. cbv beta iota.
  rewrite Hg. cbv beta iota. rewrite Hf. cbv beta iota. rewrite Hw. reflexivity.
Qed.

(** X7.  With a [default_tts] other than google, flite and watson, nothing is
    ever handed to a TTS provider, whatever the loop goes through. *)
Theorem unknown_tts_is_silent env dev turns w :
  known_tts (default_tts w) = false ->
  spoken (new_calls w (snd (start env dev turns w))) = [].
Proof.
  intros Htts.
  destruct (frames_calls any_call (start env dev turns) w (start_frames env dev turns))
    as [l [Hl _]].
  rewrite (new_calls_app _ _ l Hl).
  apply (adds_new_calls spoken_by w (snd (start env dev turns w)) [] l Hl).
  assert (H : default_tts (snd (start env dev turns w)) = default_tts w /\
              adds spoken_by w (snd (start env dev turns w)) []).
  { apply (start_invariant env dev
             (fun v => default_tts v = default_tts w /\ adds spoken_by w v [])).
    - intros lvl msg v Hv. exact Hv.
    - intros e v He [Hv1 Hv2]. split; [exact Hv1 |].
      apply adds_silent_call; [| exact Hv2].
      destruct e; simpl in He; first [contradiction | reflexivity].
    - intros text v [Hv1 Hv2]. rewrite speak_unknown_tts; [split; assumption |].
      rewrite Hv1. exact Htts.
    - intros s v Hv. exact Hv.
    - intros e v He [Hv1 Hv2]. split; [exact Hv1 |].
      apply adds_silent_call; [| exact Hv2].
      destruct e; simpl in He; first [contradiction | reflexivity].
    - intros v Hv. exact Hv.
    - intros v [Hv1 Hv2]. split; [exact Hv1 |].
      apply adds_silent_call; [reflexivity | exact Hv2].
    - intros e v He [Hv1 Hv2]. split; [exact Hv1 |].
      apply adds_silent_call; [| exact Hv2].
      destruct e; simpl in He; first [contradiction | reflexivity].
    - intros q v Hv. exact Hv.
    - split; [reflexivity | apply adds_refl]. }
  exact (proj2 H).
Qed.

Lemma unknown_tts_is_silent_witness :
  spoken (new_calls espeak (snd (start (answering no_reply) raspberry 2 espeak))) = [].
Proof.
  apply (unknown_tts_is_silent (answering no_reply) raspberry 2 espeak). reflexivity.
Defined.

(** ** Runs with known calls *)

Lemma same_settings_refl w : same_settings w w.
Proof. repeat split. Qed.

Lemma same_settings_trans w1 w2 w3 :
  same_settings w1 w2 -> same_settings w2 w3 -> same_settings w1 w3.
Proof.
  intros (A1 & A2 & A3 & A4) (B1 & B2 & B3 & B4).
  repeat split; etransitivity; eassumption.
Qed.

Lemma performs_eq {T} (m : M T) w r l l' :
  performs m w r l -> l = l' -> performs m w r l'.
Proof. intros H <-. exact H. Qed.

Lemma performs_ret {T} (a : T) w : performs (ret a) w (Ret a) [].
Proof.
  exists w. split; [reflexivity |]. split; [symmetry; apply app_nil_r |].
  apply same_settings_refl.
Qed.

Lemma performs_raise {T} (e : Exn) w : performs (@raise T e) w (Raise e) [].
Proof.
  exists w. split; [reflexivity |]. split; [symmetry; apply app_nil_r |].
  apply same_settings_refl.
Qed.

Lemma performs_logger lvl msg w : performs (logger lvl msg) w (Ret tt) [].
Proof.
  exists (record_log lvl msg w). split; [reflexivity |].
  split; [symmetry; apply app_nil_r |]. repeat split.
Qed.

Lemma performs_gets {T} (f : World -> T) w : performs (gets f) w (Ret (f w)) [].
Proof.
  exists w. split; [reflexivity |]. split; [symmetry; apply app_nil_r |].
  apply same_settings_refl.
Qed.

Lemma performs_call_for env {T} (e : Ev) (result : list Ev -> T) w :
  raises env (trace w) e = None ->
  performs (call_for env e result) w (Ret (result (trace w))) [e].
Proof.
  intros H. exists (record_call e w). unfold call_for. rewrite H.
  split; [reflexivity |]. split; [reflexivity |]. repeat split.
Qed.

Lemma performs_call env (e : Ev) w :
  raises env (trace w) e = None -> performs (call env e) w (Ret tt) [e].
Proof. apply performs_call_for. Qed.

Lemma performs_call_raises env {T} (e : Ev) (result : list Ev -> T) x w :
  raises env (trace w) e = Some x ->
  performs (call_for env e result) w (Raise x) [e].
Proof.
  intros H. exists (record_call e w). unfold call_for. rewrite H.
  split; [reflexivity |]. split; [reflexivity |]. repeat split.
Qed.

Lemma performs_bind {A B} (m : M A) (k : A -> M B) w a l1 r l2 :
  performs m w (Ret a) l1 ->
  (forall w1, trace w1 = trace w ++ l1 -> same_settings w w1 ->
              performs (k a) w1 r l2) ->
  performs (bind m k) w r (l1 ++ l2).
Proof.
  intros (w1 & Hm & Ht & Hs) Hk.
  destruct (Hk w1 Ht Hs) as (w2 & Hk2 & Ht2 & Hs2).
  exists w2. unfold bind. rewrite Hm. split; [exact Hk2 |]. split.
  - rewrite Ht2, Ht, app_assoc. reflexivity.
  - apply (same_settings_trans w w1 w2); assumption.
Qed.

Lemma performs_bind_raise {A B} (m : M A) (k : A -> M B) w e l :
  performs m w (Raise e) l -> performs (bind m k) w (Raise e) l.
Proof.
  intros (w1 & Hm & Ht & Hs). exists w1. unfold bind. rewrite Hm.
  split; [reflexivity | split; assumption].
Qed.

Lemma performs_try_ret {A} (m : M A) (handler : Exn -> option (M A)) w a l :
  performs m w (Ret a) l -> performs (try_except m handler) w (Ret a) l.
Proof.
  intros (w1 & Hm & Ht & Hs). exists w1. unfold try_except. rewrite Hm.
  split; [reflexivity | split; assumption].
Qed.

Lemma performs_try_handled {A} (m : M A) (handler : Exn -> option (M A))
    w e h l1 r l2 :
  performs m w (Raise e) l1 ->
  handler e = Some h ->
  (forall w1, trace w1 = trace w ++ l1 -> same_settings w w1 ->
              performs h w1 r l2) ->
  performs (try_except m handler) w r (l1 ++ l2).
Proof.
  intros (w1 & Hm & Ht & Hs) He Hh.
  destruct (Hh w1 Ht Hs) as (w2 & Hh2 & Ht2 & Hs2).
  exists w2. unfold try_except. rewrite Hm, He. split; [exact Hh2 |]. split.
  - rewrite Ht2, Ht, app_assoc. reflexivity.
  - apply (same_settings_trans w w1 w2); assumption.
Qed.


Lemma performs_with_context {A} (enter leave : M unit) (body : M A) w l1 r l2 l3 :
  performs enter w (Ret tt) l1 ->
  (forall w1, trace w1 = trace w ++ l1 -> same_settings w w1 ->
              performs body w1 r l2) ->
  (forall w2, trace w2 = trace w ++ l1 ++ l2 -> same_settings w w2 ->
              performs leave w2 (Ret tt) l3) ->
  performs (with_context enter leave body) w r (l1 ++ l2 ++ l3).
Proof.
  intros (w1 & He & Ht1 & Hs1) Hb Hl.
  destruct (Hb w1 Ht1 Hs1) as (w2 & Hb2 & Ht2 & Hs2).
  assert (Ht12 : trace w2 = trace w ++ l1 ++ l2).
  { rewrite Ht2, Ht1, app_assoc. reflexivity. }
  destruct (Hl w2 Ht12 (same_settings_trans w w1 w2 Hs1 Hs2)) as (w3 & Hl3 & Ht3 & Hs3).
  exists w3. unfold with_context. rewrite He, Hb2, Hl3.
  split; [reflexivity |]. split.
  - rewrite Ht3, Ht12, <- !app_assoc. reflexivity.
  - apply (same_settings_trans w w2 w3);
      [apply (same_settings_trans w w1 w2) |]; assumption.
Qed.

Lemma performs_result {T} (m : M T) w r l :
  performs m w r l ->
  exists w', m w = (r, w') /\ new_calls w w' = l.
Proof.
  intros (w' & Hm & Ht & _). exists w'. split; [exact Hm |].
  apply (new_calls_app w w' l Ht).
Qed.

Lemma performs_when (b : bool) (m : M unit) w l :
  (b = true -> performs m w (Ret tt) l) ->
  performs (when b m) w (Ret tt) (if b then l else []).
Proof.
  destruct b; simpl; intros H; [apply H; reflexivity | apply performs_ret].
Qed.

Lemma performs_GPIO env dev pin level w :
  raises env (trace w) (GPIO_output pin level) = None ->
  performs (GPIO_if_present env dev pin level) w (Ret tt)
    (if has_GPIO dev then [GPIO_output pin level] else []).
Proof.
  intros H. unfold GPIO_if_present. apply performs_when. intros _.
  apply performs_call. exact H.
Qed.

Lemma performs_notify env dev message payload w :
  raises env (trace w) (Renderer_receive_message message payload) = None ->
  performs (notify_renderer env dev message payload) w (Ret tt)
    (if has_renderer dev then [Renderer_receive_message message payload] else []).
Proof.
  intros H. unfold notify_renderer. apply performs_when. intros _.
  apply performs_call. exact H.
Qed.

(** One step of a run: the first action of a sequence, then the rest. *)
Ltac step :=
  first
    [ eapply performs_bind; [| intros ? ? ?]
    | apply performs_logger
    | apply performs_ret
    | apply performs_GPIO
    | apply performs_notify
    | apply performs_call
    | apply performs_call_for ].

Section Capture.

Variable env : Env.
Variable dev : Device.

(** A recording is made: the microphone is opened, listened to and released. *)
Lemma capture_performs w :
  (forall history, raises env history Microphone_enter = None) ->
  (forall history, raises env history Recognizer_listen = None) ->
  (forall history, raises env history Microphone_exit = None) ->
  exists audio,
    performs (capture env dev) w (Ret (Some audio))
      [Microphone_enter; Recognizer_listen; Microphone_exit].
Proof.
  intros Henter Hlisten Hexit.
  exists (listen_result env (trace w ++ [Microphone_enter])). unfold capture.
  eapply performs_eq.
  - eapply performs_with_context.
    + apply performs_call. apply Henter.
    + intros w1 Ht Hs. apply performs_try_ret.
      eapply performs_bind; [apply performs_logger | intros w2 Ht2 Hs2].
      eapply performs_bind; [apply performs_call_for; apply Hlisten | intros w3 Ht3 Hs3].
      rewrite Ht2, Ht, app_nil_r. apply performs_ret.
    + intros w2 Ht Hs. apply performs_call. apply Hexit.
  - reflexivity.
Qed.

End Capture.

Lemma reaches_bind {A B} (m : M A) (k : A -> M B) w a l1 r (P : World -> Prop) :
  performs m w (Ret a) l1 ->
  (forall w1, trace w1 = trace w ++ l1 -> same_settings w w1 ->
              reaches (k a) w1 r P) ->
  reaches (bind m k) w r P.
Proof.
  intros (w1 & Hm & Ht & Hs) Hk.
  destruct (Hk w1 Ht Hs) as (w2 & Hk2 & HP).
  exists w2. unfold bind. rewrite Hm. split; assumption.
Qed.

Lemma reaches_bind_exists {A B X} (m : M A) (k : A -> M B) w a l1 r
    (P : X -> World -> Prop) :
  performs m w (Ret a) l1 ->
  (forall w1, trace w1 = trace w ++ l1 -> same_settings w w1 ->
              exists x, reaches (k a) w1 r (P x)) ->
  exists x, reaches (bind m k) w r (P x).
Proof.
  intros (w1 & Hm & Ht & Hs) Hk.
  destruct (Hk w1 Ht Hs) as (x & w2 & Hk2 & HP).
  exists x, w2. unfold bind. rewrite Hm. split; assumption.
Qed.


Section Callback.

Variable env : Env.
Variable dev : Device.

(** The capture cycle up to the recognition, when nothing fails on the way:
    what follows is [recognize_and_answer] on the recording. *)
Lemma callback_reaches w r (P : Audio -> World -> Prop) :
  (forall history e, (forall op, e <> Recognize op) -> raises env history e = None) ->
  (forall audio w1, trace w1 = trace w ++ recording_calls dev ->
                    same_settings w w1 ->
                    reaches (recognize_and_answer env dev audio) w1 r (P audio)) ->
  exists audio, reaches (hotword_detected_callback env dev) w r (P audio).
Proof.
  intros Hquiet Hrest.
  assert (Hq : forall history e,
             match e with Recognize _ => False | _ => True end ->
             raises env history e = None).
  { intros history e He. apply Hquiet. intros op ->. exact He. }
  unfold hotword_detected_callback, stop_detector.
  eapply reaches_bind_exists; [apply performs_call; apply Hq; exact I | intros w1 T1 S1].
  eapply reaches_bind_exists; [apply performs_logger | intros w2 T2 S2].
  eapply reaches_bind_exists; [apply performs_call; apply Hq; exact I | intros w3 T3 S3].
  eapply reaches_bind_exists; [apply performs_GPIO; apply Hq; exact I | intros w4 T4 S4].
  eapply reaches_bind_exists; [apply performs_logger | intros w5 T5 S5].
  eapply reaches_bind_exists; [apply performs_notify; apply Hq; exact I | intros w6 T6 S6].
  destruct (capture_performs env dev w6) as [audio Hcap];
    try (intros history; apply Hq; exact I).
  exists audio.
  eapply reaches_bind; [exact Hcap | intros w7 T7 S7].
  eapply reaches_bind; [apply performs_GPIO; apply Hq; exact I | intros w8 T8 S8].
  eapply reaches_bind; [apply performs_call; apply Hq; exact I | intros w9 T9 S9].
  eapply reaches_bind; [apply performs_call; apply Hq; exact I | intros w10 T10 S10].
  apply Hrest.
  - rewrite T10, T9, T8, T7, T6, T5, T4, T3, T2, T1. unfold recording_calls.
    destruct (has_GPIO dev), (has_renderer dev); simpl;
      rewrite <- ?app_assoc; reflexivity.
  - repeat (eapply same_settings_trans; [eassumption |]). apply same_settings_refl.
Qed.

Lemma callback_performs w r (l : Audio -> list Ev) :
  (forall history e, (forall op, e <> Recognize op) -> raises env history e = None) ->
  (forall audio w1, trace w1 = trace w ++ recording_calls dev ->
                    same_settings w w1 ->
                    performs (recognize_and_answer env dev audio) w1 r (l audio)) ->
  exists audio,
    performs (hotword_detected_callback env dev) w r (recording_calls dev ++ l audio).
Proof.
  intros Hquiet Hrest.
  apply (callback_reaches w r
           (fun audio w' =>
              trace w' = trace w ++ recording_calls dev ++ l audio /\
              same_settings w w') Hquiet).
  intros audio w1 T1 S1.
  destruct (Hrest audio w1 T1 S1) as (w2 & Hrun & T2 & S2).
  exists w2. split; [exact Hrun |]. split.
  - rewrite T2, T1, app_assoc. reflexivity.
  - apply (same_settings_trans w w1 w2); assumption.
Qed.

End Callback.

(** ** Speech the recogniser cannot make out *)

Lemma recognize_audio_google_raises env dev audio x lang w :
  default_stt w = "google" ->
  susi_language w = lang ->
  (forall history op, raises env history (Recognize op) = Some x) ->
  performs (recognize_audio env dev audio) w (Raise x)
    [Recognize (recognize_google audio lang)].
Proof.
  intros Hstt <- Hraises. unfold recognize_audio.
  eapply performs_eq.
  - eapply performs_bind; [apply performs_logger | intros w1 T1 S1].
    eapply performs_bind; [apply performs_gets | intros w2 T2 S2].
    destruct S1 as (Hstt1 & _ & Hlang1 & _). rewrite Hstt1, Hstt.
    cbn [String.eqb Ascii.eqb Bool.eqb andb].
    destruct S2 as (_ & _ & Hlang2 & _).
    eapply performs_bind; [apply performs_gets | intros w3 T3 S3].
    rewrite Hlang2, Hlang1. unfold recognize.
    apply performs_bind_raise. apply performs_call_raises. apply Hraises.
  - reflexivity.
Qed.

Lemma deal_with_error_recognition_performs env dev w :
  (forall history e, (forall op, e <> Recognize op) -> raises env history e = None) ->
  performs (deal_with_error env dev "RecognitionError") w (Ret tt)
    (recognition_error_calls dev).
Proof.
  intros Hquiet.
  change (deal_with_error env dev "RecognitionError") with
    (logger DEBUG "ErrorState Recognition Error" ;;
     notify_renderer env dev "error" (StrPayload "recognition") ;;
     call env (Lights lights_speak) ;;
     call env (Player (say recognition_error_sound)) ;;
     call env (Lights lights_off)).
  eapply performs_eq.
  - eapply performs_bind; [apply performs_logger | intros w1 T1 S1].
    eapply performs_bind;
      [apply performs_notify; apply Hquiet; discriminate | intros w2 T2 S2].
    eapply performs_bind;
      [apply performs_call; apply Hquiet; discriminate | intros w3 T3 S3].
    eapply performs_bind;
      [apply performs_call; apply Hquiet; discriminate | intros w4 T4 S4].
    apply performs_call; apply Hquiet; discriminate.
  - unfold recognition_error_calls. destruct (has_renderer dev); reflexivity.
Qed.

(** X8.  When the recogniser raises [UnknownValueError] and no other
    collaborator raises, the capture cycle ends normally with the
    recognition-error handling: the microphone is released before the
    recogniser is called, the renderer is told of the error, the
    recognition-error sound is played between [lights.speak] and
    [lights.off], and neither the dialogue service nor a TTS provider is
    called. *)
Theorem unrecognised_speech_plays_error_sound env dev w :
  default_stt w = "google" ->
  (forall history op, raises env history (Recognize op) = Some UnknownValueError) ->
  (forall history e, (forall op, e <> Recognize op) -> raises env history e = None) ->
  exists audio w',
    hotword_detected_callback env dev w = (Ret tt, w') /\
    new_calls w w' =
      recording_calls dev ++
      [Recognize (recognize_google audio (susi_language w))] ++
      recognition_error_calls dev.
Proof.
  intros Hstt Hunknown Hquiet.
  destruct (callback_performs env dev w (Ret tt)
              (fun audio =>
                 [Recognize (recognize_google audio (susi_language w))] ++
                 recognition_error_calls dev) Hquiet) as [audio Hrun].
  - intros audio w1 T1 S1. unfold recognize_and_answer.
    apply (performs_try_handled _ _ w1 UnknownValueError
             (logger ERROR "UnknownValueError from SpeechRecognition" ;;
              deal_with_error env dev "RecognitionError")).
    + apply (performs_bind _ _ w1 tt [] _
               [Recognize (recognize_google audio (susi_language w))]);
        [apply performs_logger | intros w2 T2 S2].
      apply performs_bind_raise.
      destruct S2 as (Hstt2 & _ & Hlang2 & _). destruct S1 as (Hstt1 & _ & Hlang1 & _).
      apply recognize_audio_google_raises; [| | exact Hunknown].
      * rewrite Hstt2, Hstt1. exact Hstt.
      * rewrite Hlang2, Hlang1. reflexivity.
    + reflexivity.
    + intros w2 T2 S2. eapply performs_eq.
      * eapply performs_bind; [apply performs_logger | intros w3 T3 S3].
        apply deal_with_error_recognition_performs. exact Hquiet.
      * reflexivity.
  - exists audio. apply performs_result. exact Hrun.
Qed.

Lemma unrecognised_speech_plays_error_sound_witness :
  exists audio w',
    hotword_detected_callback mumbling raspberry boot = (Ret tt, w') /\
    new_calls boot w' =
      recording_calls raspberry ++
      [Recognize (recognize_google audio (susi_language boot))] ++
      recognition_error_calls raspberry.
Proof.
  apply (unrecognised_speech_plays_error_sound mumbling raspberry boot).
  - reflexivity.
  - intros history op. reflexivity.
  - intros history e He. destruct e as [| | | op | | | | | | | | | |]; try reflexivity.
    contradiction (He op). reflexivity.
Defined.

(** ** A recogniser that fails *)



(** ** From the recording to the query *)

Lemma reaches_try_ret {A} (m : M A) (handler : Exn -> option (M A)) w a
    (P : World -> Prop) :
  reaches m w (Ret a) P -> reaches (try_except m handler) w (Ret a) P.
Proof.
  intros (w1 & Hm & HP). exists w1. unfold try_except. rewrite Hm.
  split; [reflexivity | exact HP].
Qed.

Lemma recognize_audio_google_returns env dev audio lang history w :
  default_stt w = "google" ->
  susi_language w = lang ->
  trace w = history ->
  (forall history op, raises env history (Recognize op) = None) ->
  performs (recognize_audio env dev audio) w
    (Ret (Some (stt_result env history (recognize_google audio lang))))
    [Recognize (recognize_google audio lang)].
Proof.
  intros Hstt <- <- Hquiet. unfold recognize_audio.
  eapply performs_eq.
  - eapply performs_bind; [apply performs_logger | intros w1 T1 S1].
    eapply performs_bind; [apply performs_gets | intros w2 T2 S2].
    destruct S1 as (Hstt1 & _ & Hlang1 & _). rewrite Hstt1, Hstt.
    cbn [String.eqb Ascii.eqb Bool.eqb andb].
    destruct S2 as (_ & _ & Hlang2 & _).
    eapply performs_bind; [apply performs_gets | intros w3 T3 S3].
    rewrite Hlang2, Hlang1. unfold recognize.
    eapply performs_bind; [apply performs_call_for; apply Hquiet | intros w4 T4 S4].
    rewrite T3, T2, T1, !app_nil_r. apply performs_ret.
  - reflexivity.
Qed.

(** X10.  When no collaborator raises, what the recogniser returns for the
    recording is what the renderer is told as recognised and what is sent,
    verbatim and exactly once, to the dialogue service; the callback then
    returns normally whatever the dispatch makes of the reply. *)
Theorem recognised_text_is_asked env dev w :
  default_stt w = "google" ->
  (forall history e, raises env history e = None) ->
  exists audio text calls w',
    hotword_detected_callback env dev w = (Ret tt, w') /\
    text = stt_result env (trace w ++ recording_calls dev)
             (recognize_google audio (susi_language w)) /\
    new_calls w w' =
      recording_calls dev ++
      [Recognize (recognize_google audio (susi_language w))] ++
      (if has_renderer dev
       then [Renderer_receive_message "recognized" (StrPayload text)] else []) ++
      Susi_ask text :: calls /\
    asked calls = [].
Proof.
  intros Hstt Hquiet.
  set (heard_text := fun audio =>
         stt_result env (trace w ++ recording_calls dev)
           (recognize_google audio (susi_language w))).
  destruct (callback_reaches env dev w (Ret tt)
              (fun audio w' =>
                 exists calls,
                   trace w' =
                     trace w ++
                     recording_calls dev ++
                     [Recognize (recognize_google audio (susi_language w))] ++
                     (if has_renderer dev
                      then [Renderer_receive_message "recognized"
                              (StrPayload (heard_text audio))] else []) ++
                     Susi_ask (heard_text audio) :: calls /\
                   asked calls = []))
    as (audio & w' & Hrun & calls & Htrace & Hasked).
  - intros history e _. apply Hquiet.
  - intros audio w1 T1 (Hstt1 & _ & Hlang1 & _).
    unfold recognize_and_answer. apply reaches_try_ret.
    eapply reaches_bind; [apply performs_logger | intros w2 T2 (Hstt2 & _ & Hlang2 & _)].
    eapply reaches_bind.
    { apply (recognize_audio_google_returns env dev audio (susi_language w)
               (trace w ++ recording_calls dev)).
      - rewrite Hstt2, Hstt1. exact Hstt.
      - rewrite Hlang2, Hlang1. reflexivity.
      - rewrite T2, T1, app_nil_r. reflexivity.
      - intros history op. apply Hquiet. }
    intros w3 T3 S3. fold (heard_text audio).
    eapply reaches_bind; [apply performs_logger | intros w4 T4 S4].
    eapply reaches_bind; [apply performs_notify; apply Hquiet | intros w5 T5 S5].
    cbn [payload_of note_of] in *.
    destruct (deal_with_answer_text_calls env dev (heard_text audio) w5)
      as (calls & Htr & Hall).
    destruct (throws_nothing_returns (deal_with_answer env dev (PText (heard_text audio))) w5)
      as [ok Hok].
    { apply deal_with_answer_throws. intros history ev x Hx.
      rewrite Hquiet in Hx. discriminate Hx. }
    apply run_eq in Hok.
    assert (Hfinal : trace (snd (deal_with_answer env dev (PText (heard_text audio)) w5)) =
              trace w ++
              recording_calls dev ++
              [Recognize (recognize_google audio (susi_language w))] ++
              (if has_renderer dev
               then [Renderer_receive_message "recognized"
                       (StrPayload (heard_text audio))] else []) ++
              Susi_ask (heard_text audio) :: calls).
    { rewrite Htr, T5, T4, T3, T2, T1. rewrite !app_nil_r, <- !app_assoc. reflexivity. }
    unfold reaches, bind. rewrite Hok.
    destruct ok.
    + eexists. split; [reflexivity |]. exists calls. split; [exact Hfinal |].
      apply silent_calls. exact Hall.
    + eexists. split; [reflexivity |]. exists calls. split; [exact Hfinal |].
      apply silent_calls. exact Hall.
  - exists audio, (heard_text audio), calls, w'. split; [exact Hrun |].
    split; [reflexivity |]. split; [| exact Hasked].
    apply (new_calls_app w w' _ Htrace).
Qed.

Lemma recognised_text_is_asked_witness :
  exists audio text calls w',
    hotword_detected_callback (answering champions) raspberry boot = (Ret tt, w') /\
    text = stt_result (answering champions) (trace boot ++ recording_calls raspberry)
             (recognize_google audio (susi_language boot)) /\
    new_calls boot w' =
      recording_calls raspberry ++
      [Recognize (recognize_google audio (susi_language boot))] ++
      (if has_renderer raspberry
       then [Renderer_receive_message "recognized" (StrPayload text)] else []) ++
      Susi_ask text :: calls /\
    asked calls = [].
Proof.
  apply (recognised_text_is_asked (answering champions) raspberry boot).
  - reflexivity.
  - intros history e. reflexivity.
Defined.

(** ** A plan without its delay *)

Section MalformedPlan.

Variable env : Env.
Variable dev : Device.
Hypothesis Hquiet : forall history e, raises env history e = None.

Lemma open_dispatch_performs payload w :
  performs (open_dispatch env dev payload) w (Ret (reply_of env payload w))
    (opening_calls dev payload (reply_of env payload w)).
Proof.
  unfold open_dispatch, opening_calls.
  assert (Hobtain : performs (obtain_reply env payload) w
                      (Ret (reply_of env payload w))
                      (map Susi_ask (query_of payload))).
  { destruct payload as [text | reply |]; simpl.
    - eapply performs_eq.
      + eapply performs_bind; [apply performs_logger | intros w1 T1 S1].
        eapply performs_bind; [apply performs_call_for; apply Hquiet | intros w2 T2 S2].
        rewrite T1, app_nil_r. apply performs_ret.
      + reflexivity.
    - eapply performs_eq.
      + eapply performs_bind; [apply performs_logger | intros w1 T1 S1].
        apply performs_ret.
      + reflexivity.
    - eapply performs_eq.
      + eapply performs_bind; [apply performs_logger | intros w1 T1 S1].
        apply performs_ret.
      + reflexivity. }
  eapply performs_eq.
  - eapply performs_bind; [exact Hobtain | intros w1 T1 S1].
    eapply performs_bind; [apply performs_GPIO; apply Hquiet | intros w2 T2 S2].
    eapply performs_bind; [| intros w3 T3 S3; apply performs_ret].
    apply performs_when. intros Hr. apply performs_notify. apply Hquiet.
  - unfold notify_renderer. destruct (has_renderer dev); simpl;
      rewrite ?app_nil_r; reflexivity.
Qed.

Lemma schedule_plans_stop_at_missing_delay good bad rest w :
  Forall schedulable good ->
  plan_delay bad = None ->
  performs (for_each (good ++ bad :: rest) (schedule_plan env)) w
    (Raise KeyError) (registrations good).
Proof.
  intros Hgood Hbad. revert w.
  induction Hgood as [| plan good Hplan _ IH]; intros w; simpl.
  - apply performs_bind_raise. unfold schedule_plan.
    eapply performs_eq.
    + eapply performs_bind; [apply performs_logger | intros w1 T1 S1].
      rewrite Hbad. apply performs_raise.
    + reflexivity.
  - destruct (schedulable_seconds plan Hplan) as (delay & seconds & Hdelay & Hseconds).
    unfold registrations. simpl. fold (registrations good).
    rewrite Hdelay, Hseconds.
    eapply performs_bind; [| intros w1 T1 S1; apply IH].
    unfold schedule_plan. eapply performs_eq.
    + eapply performs_bind; [apply performs_logger | intros w1 T1 S1].
      rewrite Hdelay, Hseconds. apply performs_call. apply Hquiet.
    + reflexivity.
Qed.

End MalformedPlan.

(** The registration calls of plans that can be scheduled hand each plan to
    the scheduler with the double nearest to its delay over 1000. *)
Lemma registrations_registered plans :
  Forall schedulable plans ->
  exists regs,
    registrations plans = map registration_call regs /\
    Forall2 registered regs plans.
Proof.
  induction 1 as [| plan plans Hplan _ (regs & Hcalls & Hregs)].
  - exists []. split; [reflexivity | constructor].
  - destruct (schedulable_seconds plan Hplan) as (delay & seconds & Hdelay & Hseconds).
    exists ((seconds, plan) :: regs). split.
    + unfold registrations. simpl. fold (registrations plans).
      rewrite Hdelay, Hseconds, Hcalls. reflexivity.
    + constructor; [| exact Hregs].
      apply (plan_seconds_registered plan delay seconds Hdelay Hseconds).
Qed.

(** X11.  A plan without [plan_delay] aborts the dispatch: the plans before
    it, when each carries a delay that fits a float, have been registered
    with the scheduler, the [KeyError] is caught, [deal_with_answer]
    returns False, and nothing else of the reply is processed (no volume or
    media action, no answer spoken, no language switch, nothing played). *)
Theorem plan_without_delay_aborts_dispatch env dev payload reply good bad rest w :
  (forall history e, raises env history e = None) ->
  reply_of env payload w = Some reply ->
  planned_actions reply = Some (good ++ bad :: rest) ->
  Forall schedulable good ->
  plan_delay bad = None ->
  exists w' regs,
    deal_with_answer env dev payload w = (Ret false, w') /\
    new_calls w w' =
      opening_calls dev payload (Some reply) ++ map registration_call regs /\
    Forall2 registered regs good /\
    susi_language w' = susi_language w.
Proof.
  intros Hquiet Hreply Hplans Hgood Hbad.
  assert (Hrun : performs (deal_with_answer env dev payload) w (Ret false)
                   ((opening_calls dev payload (Some reply) ++ registrations good) ++ [])).
  { unfold deal_with_answer.
    apply (performs_try_handled _ _ w KeyError (logger ERROR "Got error" ;; ret false)).
    - unfold deal_with_answer_try.
      eapply performs_bind.
      + rewrite <- Hreply. apply open_dispatch_performs. exact Hquiet.
      + intros w1 T1 S1. rewrite Hreply. apply performs_bind_raise.
        unfold dispatch_planned_actions. rewrite Hplans.
        eapply performs_eq.
        * eapply performs_bind; [apply performs_logger | intros w2 T2 S2].
          apply schedule_plans_stop_at_missing_delay; assumption.
        * reflexivity.
    - reflexivity.
    - intros w1 T1 S1. eapply performs_eq.
      + eapply performs_bind; [apply performs_logger | intros w2 T2 S2].
        apply performs_ret.
      + reflexivity. }
  rewrite app_nil_r in Hrun.
  destruct Hrun as (w' & Hrun & Htrace & (_ & _ & Hlang & _)).
  destruct (registrations_registered good Hgood) as (regs & Hcalls & Hregs).
  exists w', regs. split; [exact Hrun |]. split; [| split; [exact Hregs | exact Hlang]].
  rewrite <- Hcalls. apply (new_calls_app w w' _ Htrace).
Qed.

Lemma plan_without_delay_aborts_dispatch_witness :
  exists w' regs,
    deal_with_answer (answering broken_plans) raspberry (PText "remind me") boot =
      (Ret false, w') /\
    new_calls boot w' =
      opening_calls raspberry (PText "remind me") (Some broken_plans) ++
      map registration_call regs /\
    Forall2 registered regs [alarm] /\
    susi_language w' = susi_language boot.
Proof.
  apply (plan_without_delay_aborts_dispatch (answering broken_plans) raspberry
           (PText "remind me") broken_plans [alarm] stop_music []).
  - intros history e. reflexivity.
  - reflexivity.
  - reflexivity.
  - repeat constructor. exists 2000%Z. split; [reflexivity |].
    apply Z.ltb_lt. vm_compute. reflexivity.
  - reflexivity.
Defined.

(** ** Restoring the baseline when GPIO fails *)

(** X12.  On a device with GPIO, a [RuntimeError] raised by
    [GPIO.output(27, False)] is swallowed: the restoration returns normally,
    but the rest of the [try] body is abandoned, so line 22 is not reset. *)
Theorem restore_skips_line_22_after_runtime_error env dev w :
  has_GPIO dev = true ->
  (forall history, raises env history (Player restore_softvolume) = None) ->
  (forall history, raises env history (GPIO_output 27 false) = Some RuntimeError) ->
  exists w',
    restore_baseline env dev w = (Ret tt, w') /\
    new_calls w w' = [Player restore_softvolume; GPIO_output 27 false].
Proof.
  intros Hgpio Hvolume Hline.
  apply performs_result. unfold restore_baseline. rewrite Hgpio.
  apply (performs_bind _ _ w tt [Player restore_softvolume] (Ret tt)
           [GPIO_output 27 false]).
  - apply performs_call. apply Hvolume.
  - intros w1 T1 S1. simpl when.
    apply (performs_try_handled _ _ w1 RuntimeError (ret tt) [GPIO_output 27 false]
             (Ret tt) []).
    + apply performs_bind_raise. apply performs_call_raises. apply Hline.
    + reflexivity.
    + intros w2 T2 S2. apply performs_ret.
Qed.

Lemma restore_skips_line_22_after_runtime_error_witness :
  exists w',
    restore_baseline gpio_busy raspberry boot = (Ret tt, w') /\
    new_calls boot w' = [Player restore_softvolume; GPIO_output 27 false].
Proof.
  apply (restore_skips_line_22_after_runtime_error gpio_busy raspberry boot).
  - reflexivity.
  - intros history. reflexivity.
  - intros history. reflexivity.
Defined.

(** ** An STT provider the module does not know *)

Lemma recognize_audio_unknown_stt env dev audio w :
  known_stt (default_stt w) = false ->
  performs (recognize_audio env dev audio) w (Ret None) [].
Proof.
  unfold known_stt. intros H.
  apply orb_false_iff in H. destruct H as [H Hdeep].
  apply orb_false_iff in H. destruct H as [H Hbing].
  apply orb_false_iff in H. destruct H as [H Hsphinx].
  apply orb_false_iff in H. destruct H as [Hgoogle Hwatson].
  unfold recognize_audio.
  apply (performs_bind _ _ w tt [] (Ret None) []); [apply performs_logger |].
  intros w1 T1 (Hstt & _).
  apply (performs_bind _ _ w1 (default_stt w1) [] (Ret None) []);
    [apply performs_gets |].
  intros w2 T2 S2. rewrite Hstt, Hgoogle, Hwatson, Hsphinx, Hbing, Hdeep.
  apply performs_ret.
Qed.

(** A payload that is [None] is not dispatched: the opening calls are made,
    [None.keys()] fails, and the result is False. *)
Lemma deal_with_answer_none_performs env dev w :
  (forall history e, raises env history e = None) ->
  performs (deal_with_answer env dev PNone) w (Ret false)
    (opening_calls dev PNone None).
Proof.
  intros Hquiet. unfold deal_with_answer.
  eapply performs_eq.
  - apply (performs_try_handled _ _ w AttributeError
             (logger ERROR "Got error" ;; ret false)).
    + unfold deal_with_answer_try. eapply performs_bind.
      * apply (open_dispatch_performs env dev Hquiet PNone w).
      * intros w1 T1 S1. simpl. apply performs_raise.
    + reflexivity.
    + intros w1 T1 S1.
      apply (performs_bind _ _ w1 tt [] (Ret false) []);
        [apply performs_logger | intros w2 T2 S2; apply performs_ret].
  - simpl. rewrite !app_nil_r. reflexivity.
Qed.

(** X13.  With a [default_stt] that is none of the five names
    [recognize_audio] knows, and no collaborator raising, a capture cycle
    records the command but calls no recogniser; the renderer is told
    "recognized" with no text, the dispatch of the missing text makes only
    its opening calls and fails, and the callback returns normally: nothing
    is sent to the dialogue service and nothing is spoken. *)
Theorem unknown_stt_recognises_nothing env dev w :
  known_stt (default_stt w) = false ->
  (forall history e, raises env history e = None) ->
  exists w',
    hotword_detected_callback env dev w = (Ret tt, w') /\
    new_calls w w' =
      recording_calls dev ++
      (if has_renderer dev
       then [Renderer_receive_message "recognized" NoPayload] else []) ++
      opening_calls dev PNone None.
Proof.
  intros Hstt Hquiet.
  destruct (callback_performs env dev w (Ret tt)
              (fun _ =>
                 (if has_renderer dev
                  then [Renderer_receive_message "recognized" NoPayload] else []) ++
                 opening_calls dev PNone None)) as [audio Hrun].
  - intros history e _. apply Hquiet.
  - intros audio w1 T1 (Hstt1 & _). unfold recognize_and_answer.
    apply performs_try_ret. eapply performs_eq.
    + eapply performs_bind; [apply performs_logger | intros w2 T2 (Hstt2 & _)].
      eapply performs_bind.
      { apply recognize_audio_unknown_stt. rewrite Hstt2, Hstt1. exact Hstt. }
      intros w3 T3 S3.
      eapply performs_bind; [apply performs_logger | intros w4 T4 S4].
      eapply performs_bind; [apply performs_notify; apply Hquiet | intros w5 T5 S5].
      eapply performs_bind;
        [apply deal_with_answer_none_performs; exact Hquiet | intros w6 T6 S6].
      apply performs_logger.
    + simpl. rewrite !app_nil_r. reflexivity.
  - apply performs_result. exact Hrun.
Qed.

Lemma unknown_stt_recognises_nothing_witness :
  exists w',
    hotword_detected_callback (answering champions) raspberry kaldi = (Ret tt, w') /\
    new_calls kaldi w' =
      recording_calls raspberry ++
      (if has_renderer raspberry
       then [Renderer_receive_message "recognized" NoPayload] else []) ++
      opening_calls raspberry PNone None.
Proof.
  apply (unknown_stt_recognises_nothing (answering champions) raspberry kaldi).
  - reflexivity.
  - intros history e. reflexivity.
Defined.

(** * The claims about the reply fields *)

(** ** Blocks that complete *)

Lemma bind_through {A B} (m : M A) (k : A -> M B) w a w1 :
  m w = (Ret a, w1) -> bind m k w = k a w1.
Proof. intros H. unfold bind. rewrite H. reflexivity. Qed.

(** A computation that raises nothing and makes only calls an observation
    does not see returns, and the observation has not grown. *)
Lemma completes_silently {X} (obs : Ev -> list X) (allowed : Ev -> Prop)
    {T} (m : M T) w :
  throws (fun _ => False) m ->
  frames allowed m ->
  (forall e, allowed e -> obs e = []) ->
  exists a w1, m w = (Ret a, w1) /\ adds obs w w1 [].
Proof.
  intros Hthrows Hframes Hsilent.
  destruct (throws_nothing_returns m w Hthrows) as [a Ha].
  apply run_eq in Ha. exists a, (snd (m w)). split; [exact Ha |].
  apply (adds_silent obs allowed m w (Ret a) _ Hframes Hsilent Ha).
Qed.

Section DispatchCompletes.

Variable env : Env.
Variable dev : Device.
Variable quiet : Ev -> Prop.
Hypothesis Hquiet : forall history e, quiet e -> raises env history e = None.

Ltac hushed Hsub :=
  let h := fresh "h" in let x := fresh "x" in let Hx := fresh "Hx" in
  intros h x Hx; rewrite Hquiet in Hx;
  [discriminate Hx | apply Hsub; simpl; auto].

Lemma open_dispatch_completes payload :
  (forall e, opens_dispatch e -> quiet e) ->
  throws (fun _ => False) (open_dispatch env dev payload).
Proof.
  intros Hsub. unfold open_dispatch, obtain_reply, GPIO_if_present, notify_renderer.
  destruct payload; throws_tac; hushed Hsub.
Qed.

Lemma dispatch_planned_actions_completes reply :
  (forall e, scheduler_calls e -> quiet e) ->
  Forall schedulable (plans_of reply) ->
  throws (fun _ => False) (dispatch_planned_actions env reply).
Proof.
  intros Hsub. unfold dispatch_planned_actions, plans_of.
  destruct (planned_actions reply) as [plans |]; intros Hplans; throws_tac.
  apply throws_for_each. intros plan Hin.
  rewrite Forall_forall in Hplans.
  destruct (schedulable_seconds plan (Hplans plan Hin))
    as (delay & seconds & Hdelay & Hseconds).
  unfold schedule_plan. rewrite Hdelay, Hseconds.
  throws_tac; hushed Hsub.
Qed.

Lemma dispatch_volume_completes reply nan :
  (forall e, volume_calls e -> quiet e) ->
  throws (fun _ => False) (dispatch_volume env reply nan).
Proof. intros Hsub. unfold dispatch_volume. throws_tac; hushed Hsub. Qed.

Lemma dispatch_media_action_completes reply nan :
  (forall e, media_calls e -> quiet e) ->
  throws (fun _ => False) (dispatch_media_action env reply nan).
Proof. intros Hsub. unfold dispatch_media_action. throws_tac; hushed Hsub. Qed.

Lemma dispatch_stop_completes reply nan :
  (forall e, stop_calls e -> quiet e) ->
  throws (fun _ => False) (dispatch_stop env reply nan).
Proof.
  intros Hsub. unfold dispatch_stop. throws_tac.
  intros h x Hx. rewrite Hquiet in Hx; [discriminate Hx | apply Hsub; reflexivity].
Qed.

Lemma dispatch_answer_completes reply nan :
  (forall e, answer_calls e -> quiet e) ->
  throws (fun _ => False) (dispatch_answer env reply nan).
Proof.
  intros Hsub. unfold dispatch_answer, __speak. throws_tac; hushed Hsub.
Qed.

Lemma dispatch_language_completes reply :
  throws (fun _ => False) (dispatch_language reply).
Proof. unfold dispatch_language. throws_tac. Qed.

End DispatchCompletes.

(** The calls of a run, read off an observation. *)
Lemma observed_after {X} (obs : Ev -> list X) env dev payload w xs :
  adds obs w (snd (deal_with_answer env dev payload w)) xs ->
  flat_map obs (new_calls w (snd (deal_with_answer env dev payload w))) = xs.
Proof.
  intros Hadds.
  destruct (frames_calls any_call (deal_with_answer env dev payload) w
              (deal_with_answer_frames env dev payload)) as [l [Hl _]].
  rewrite (new_calls_app _ _ l Hl).
  apply (adds_new_calls obs w _ xs l Hl Hadds).
Qed.

Ltac unseen :=
  let e := fresh "e" in let H := fresh "H" in
  intros e H; destruct e as [[] | [] | [] | [] | | | | | | | | | |]; simpl in H |- *;
  first [ contradiction | discriminate H | reflexivity | tauto ].

Ltac unseen_by lem :=
  eapply frames_weaken; cycle 1; [apply lem | unseen].

(** ** The [stop] field *)

Section StopBlock.

Variable env : Env.
Variable dev : Device.
Hypothesis Hquiet : forall history e, before_stop e -> raises env history e = None.

Lemma dispatch_stop_stops reply nan w :
  stop reply = Some tt ->
  adds stopped_by w (snd (dispatch_stop env reply nan w)) [player_stop].
Proof.
  intros Hstop. unfold dispatch_stop. rewrite Hstop.
  unfold bind, call, call_for.
  destruct (raises env (trace w) (Player player_stop)); simpl;
    apply (adds_call stopped_by (Player player_stop) w).
Qed.

Lemma deal_with_answer_stops payload reply w :
  reply_of env payload w = Some reply ->
  stop reply = Some tt ->
  Forall schedulable (plans_of reply) ->
  adds stopped_by w (snd (deal_with_answer env dev payload w)) [player_stop].
Proof.
  intros Hreply Hstop Hplans.
  assert (HI : stable (fun e => stopped_by e = [])
                 (fun v => adds stopped_by w v [player_stop])).
  { split; try (intros; assumption).
    intros e v He Hv. apply adds_silent_call; assumption. }
  unfold deal_with_answer.
  apply (stable_after_try (fun e => stopped_by e = [])); [exact HI | |].
  - unfold deal_with_answer_try.
    destruct (completes_silently stopped_by preamble_calls
                (open_dispatch env dev payload) w) as (o & w0 & H0 & A0).
    { apply (open_dispatch_completes env dev before_stop Hquiet).
      intros e He. left. exact He. }
    { apply open_dispatch_frames. }
    { unseen. }
    rewrite (bind_through _ _ _ _ _ H0).
    rewrite (open_dispatch_value _ _ _ _ _ _ H0), Hreply.
    destruct (completes_silently stopped_by scheduler_calls
                (dispatch_planned_actions env reply) w0) as ([] & w1 & H1 & A1).
    { apply (dispatch_planned_actions_completes env before_stop Hquiet);
        [intros e He; right; left; exact He | exact Hplans]. }
    { apply dispatch_planned_actions_frames. }
    { unseen. }
    rewrite (bind_through _ _ _ _ _ H1).
    destruct (completes_silently stopped_by volume_calls
                (dispatch_volume env reply false) w1) as (n1 & w2 & H2 & A2).
    { apply (dispatch_volume_completes env before_stop Hquiet).
      intros e He. right. right. left. exact He. }
    { apply dispatch_volume_frames. }
    { unseen. }
    rewrite (bind_through _ _ _ _ _ H2).
    destruct (completes_silently stopped_by media_calls
                (dispatch_media_action env reply n1) w2) as (n2 & w3 & H3 & A3).
    { apply (dispatch_media_action_completes env before_stop Hquiet).
      intros e He. right. right. right. exact He. }
    { apply dispatch_media_action_frames. }
    { unseen. }
    rewrite (bind_through _ _ _ _ _ H3).
    apply (stable_after_bind (fun e => stopped_by e = [])); [exact HI | |].
    + pose proof (dispatch_stop_stops reply n2 w3 Hstop) as A4.
      pose proof (adds_trans stopped_by _ _ _ _ _
                    (adds_trans stopped_by _ _ _ _ _
                       (adds_trans stopped_by _ _ _ _ _ A0 A1) A2) A3) as A03.
      exact (adds_trans stopped_by _ _ _ _ _ A03 A4).
    + intros n3.
      apply frames_bind; [unseen_by (dispatch_answer_frames env reply n3) | intros _].
      apply frames_bind; [unseen_by (dispatch_language_frames reply) | intros _].
      apply frames_bind; [unseen_by (dispatch_identifier_frames env reply) | intros _].
      apply frames_bind; [unseen_by (dispatch_table_frames env reply) | intros _].
      apply frames_bind; [unseen_by (dispatch_rss_frames env reply) | intros _].
      apply frames_ret.
  - intros e h He. unfold deal_with_answer_except in He.
    destruct e; simpl in He; inversion He; subst; unfold to_error; frames_tac.
Qed.

End StopBlock.

(** C4.  For a reply that has the key [stop]: whatever the dispatch hands
    to the TTS provider, however it ends, is a text of the reply itself (its
    answer, a table cell, a feed title), so the fallback phrase is never put
    in.  When every planned action of the reply carries a delay that fits a
    float and no collaborator called before the [stop] block raises
    (dialogue service, GPIO, renderer, scheduler, volume and media
    operations), [player.stop()] is called, exactly once, whatever the other
    fields are and whatever happens afterwards. *)
Theorem stop_halts_playback_without_fallback env dev payload reply w :
  reply_of env payload w = Some reply ->
  stop reply = Some tt ->
  let w' := snd (deal_with_answer env dev payload w) in
  (forall text, In text (spoken (new_calls w w')) -> In text (own_texts reply)) /\
  (Forall schedulable (plans_of reply) ->
   (forall history e, before_stop e -> raises env history e = None) ->
   stops (new_calls w w') = [player_stop]).
Proof.
  intros Hreply Hstop w'. split.
  - intros text Hin.
    rewrite <- expected_speech_answered.
    + apply (spoken_expected env dev payload reply w text Hreply Hin).
    + unfold answered. rewrite Hstop. simpl. apply orb_true_r.
  - intros Hplans Hquiet. unfold stops.
    apply (observed_after stopped_by).
    apply (deal_with_answer_stops env dev Hquiet payload reply w Hreply Hstop Hplans).
Qed.

Lemma stop_halts_playback_without_fallback_witness :
  let w' := snd (deal_with_answer hoarse raspberry (PReply stop_and_more) boot) in
  (forall text,
     In text (spoken (new_calls boot w')) -> In text (own_texts stop_and_more)) /\
  stops (new_calls boot w') = [player_stop].
Proof.
  intros w'.
  destruct (stop_halts_playback_without_fallback hoarse raspberry
              (PReply stop_and_more) stop_and_more boot eq_refl eq_refl)
    as [Hspoken Hstops].
  split; [exact Hspoken |]. apply Hstops.
  - repeat constructor.
    + exists 2000%Z. split; [reflexivity |]. apply Z.ltb_lt. vm_compute. reflexivity.
    + exists 3500%Z. split; [reflexivity |]. apply Z.ltb_lt. vm_compute. reflexivity.
  - intros history e He. destruct e; try reflexivity.
    destruct He as [He | [He | [He | He]]]; contradiction.
Defined.

(** C4 as stated fails: a reply with [stop] whose planned action carries
    no [plan_delay] is abandoned at line 312, before the [stop] block, and
    so is any reply when GPIO line 27 cannot be set: [player.stop()] is not
    called. *)
Lemma stop_not_reached_after_failure :
  stops (new_calls boot
           (snd (deal_with_answer (answering (with_plans [no_reply] stop_music))
                   raspberry (PText "stop") boot))) = [] /\
  stops (new_calls boot
           (snd (deal_with_answer gpio_stuck raspberry (PReply stop_music) boot))) = [].
Proof. split; vm_compute; reflexivity. Qed.

(** ** A dispatch that completes *)

Section DispatchReturns.

Variable env : Env.
Variable dev : Device.
Hypothesis Hquiet : forall history e, raises env history e = None.

Lemma everything_quiet : forall history e, any_call e -> raises env history e = None.
Proof. intros history e _. apply Hquiet. Qed.

Ltac calm :=
  let h := fresh "h" in let x := fresh "x" in let Hx := fresh "Hx" in
  intros h x Hx; rewrite Hquiet in Hx; discriminate Hx.

Lemma dispatch_blocks_complete reply :
  Forall schedulable (plans_of reply) ->
  throws (fun _ => False)
    (dispatch_planned_actions env reply ;;
     no_answer_needed <- dispatch_volume env reply false ;;
     no_answer_needed <- dispatch_media_action env reply no_answer_needed ;;
     no_answer_needed <- dispatch_stop env reply no_answer_needed ;;
     dispatch_answer env reply no_answer_needed ;;
     dispatch_language reply ;;
     dispatch_identifier env reply ;;
     dispatch_table env reply ;;
     dispatch_rss env reply ;;
     ret true).
Proof.
  intros Hplans.
  apply throws_bind.
  { apply (dispatch_planned_actions_completes env any_call everything_quiet);
      [intros e _; exact I | exact Hplans]. }
  intros _. apply throws_bind.
  { apply (dispatch_volume_completes env any_call everything_quiet).
    intros e _. exact I. }
  intros n1. apply throws_bind.
  { apply (dispatch_media_action_completes env any_call everything_quiet).
    intros e _. exact I. }
  intros n2. apply throws_bind.
  { unfold dispatch_stop. throws_tac; calm. }
  intros n3. apply throws_bind.
  { unfold dispatch_answer, __speak. throws_tac; calm. }
  intros _. apply throws_bind.
  { unfold dispatch_language. throws_tac. }
  intros _. apply throws_bind.
  { unfold dispatch_identifier. throws_tac; calm. }
  intros _. apply throws_bind.
  { unfold dispatch_table, __speak. destruct (table reply); throws_tac.
    - apply throws_for_each. intros h _. throws_tac; calm.
    - apply throws_for_each. intros datum _. throws_tac.
      apply throws_for_each. intros value _. throws_tac; calm. }
  intros _. apply throws_bind.
  { unfold dispatch_rss, __speak. destruct (rss reply); throws_tac.
    apply throws_for_each. intros entity _. throws_tac; calm. }
  intros _. apply throws_ret.
Qed.

(** When no collaborator raises and every planned action can be scheduled,
    the dispatch of a reply runs to its end. *)
Lemma dispatch_completes payload reply w :
  reply_of env payload w = Some reply ->
  Forall schedulable (plans_of reply) ->
  exists w', deal_with_answer env dev payload w = (Ret true, w').
Proof.
  intros Hreply Hplans.
  destruct (throws_nothing_returns (open_dispatch env dev payload) w) as [o H0].
  { apply (open_dispatch_completes env dev any_call everything_quiet).
    intros e _. exact I. }
  apply run_eq in H0.
  pose proof (open_dispatch_value _ _ _ _ _ _ H0) as Ho. rewrite Hreply in Ho. subst o.
  destruct (throws_nothing_returns _ (snd (open_dispatch env dev payload w))
              (dispatch_blocks_complete reply Hplans)) as [b Hb].
  apply run_eq in Hb.
  assert (Htry : deal_with_answer_try env dev payload w =
                 (Ret b, snd (deal_with_answer_try env dev payload w))).
  { apply run_eq. unfold deal_with_answer_try.
    rewrite (bind_through _ _ _ _ _ H0). rewrite Hb. reflexivity. }
  destruct (deal_with_answer_try_Ret _ _ _ _ _ _ Htry) as [-> _].
  exists (snd (deal_with_answer_try env dev payload w)).
  unfold deal_with_answer, try_except. rewrite Htry. reflexivity.
Qed.

End DispatchReturns.

(** ** The fallback phrase *)

(** C5.  A reply without [answer], [identifier], [volume], [stop] and
    without a recognised [media_action], whose planned actions (if any) each
    carry a delay that fits a float, dispatched with one of the TTS
    providers [__speak] knows while no collaborator raises: the fallback
    phrase is spoken first and once, followed only by the table cells and
    feed titles of the reply. *)
Theorem fallback_spoken_once env dev payload reply w :
  reply_of env payload w = Some reply ->
  answer reply = None ->
  identifier reply = None ->
  volume reply = None ->
  stop reply = None ->
  recognized_media (media_action reply) = false ->
  Forall schedulable (plans_of reply) ->
  known_tts (default_tts w) = true ->
  (forall history e, raises env history e = None) ->
  spoken (new_calls w (snd (deal_with_answer env dev payload w))) =
    fallback_phrase :: table_speech reply ++ rss_speech reply.
Proof.
  intros Hreply Hanswer Hid Hvol Hstop Hmedia Hplans Htts Hquiet.
  destruct (dispatch_completes env dev Hquiet payload reply w Hreply Hplans)
    as [w' Hrun].
  rewrite Hrun. cbn [snd].
  rewrite (dispatch_spoken _ _ _ _ _ _ Hreply Hrun).
  unfold heard, expected_speech, lead_speech, answered.
  rewrite Htts, Hanswer, Hid, Hvol, Hstop, Hmedia. reflexivity.
Qed.

Lemma fallback_spoken_once_witness :
  spoken (new_calls boot
            (snd (deal_with_answer (answering rewind) raspberry (PText "rewind") boot)))
  = [fallback_phrase].
Proof.
  apply (fallback_spoken_once (answering rewind) raspberry (PText "rewind") rewind boot);
    try reflexivity.
  constructor.
Defined.

(** C5 as stated fails: with a planned action that has no [plan_delay] the
    dispatch is abandoned before the answer block, with a TTS provider
    [__speak] does not know nothing is handed to a provider, and when GPIO
    line 27 cannot be set the dispatch is abandoned at once: the fallback
    phrase is not spoken. *)
Lemma fallback_not_spoken_after_failure :
  spoken (new_calls boot
            (snd (deal_with_answer (answering rewind_after_plan) raspberry
                    (PText "rewind") boot))) = [] /\
  spoken (new_calls boot_espeak
            (snd (deal_with_answer (answering rewind) raspberry
                    (PText "rewind") boot_espeak))) = [] /\
  spoken (new_calls boot
            (snd (deal_with_answer gpio_stuck raspberry (PReply rewind) boot))) = [].
Proof. repeat split; vm_compute; reflexivity. Qed.

(** ** The [identifier] field *)

Section IdentifierBlock.

Variable env : Env.
Variable dev : Device.
Hypothesis Hquiet :
  forall history e, before_identifier e -> raises env history e = None.

Lemma dispatch_identifier_plays reply url w :
  identifier reply = Some url ->
  adds played_by w (snd (dispatch_identifier env reply w))
    [if str_take 3 url =? "ytd" then playytb (str_drop 4 url) else play url].
Proof.
  intros Hid. unfold dispatch_identifier. rewrite Hid.
  unfold bind, logger, modify, call, call_for.
  destruct (str_take 3 url =? "ytd"); cbn [fst snd];
    match goal with
    | |- context [raises env ?h ?e] =>
        destruct (raises env h e); cbn [fst snd];
        apply (adds_call played_by e (record_log DEBUG "Playing url" w))
    end.
Qed.

Lemma deal_with_answer_plays payload reply url w :
  reply_of env payload w = Some reply ->
  identifier reply = Some url ->
  Forall schedulable (plans_of reply) ->
  adds played_by w (snd (deal_with_answer env dev payload w))
    [if str_take 3 url =? "ytd" then playytb (str_drop 4 url) else play url].
Proof.
  intros Hreply Hid Hplans.
  set (medium := if str_take 3 url =? "ytd" then playytb (str_drop 4 url) else play url).
  assert (HI : stable (fun e => played_by e = [])
                 (fun v => adds played_by w v [medium])).
  { split; try (intros; assumption).
    intros e v He Hv. apply adds_silent_call; assumption. }
  assert (Hstop_class : forall e, before_stop e -> before_identifier e).
  { intros e He. left. exact He. }
  unfold deal_with_answer.
  apply (stable_after_try (fun e => played_by e = [])); [exact HI | |].
  - unfold deal_with_answer_try.
    destruct (completes_silently played_by preamble_calls
                (open_dispatch env dev payload) w) as (o & w0 & H0 & A0).
    { apply (open_dispatch_completes env dev before_identifier Hquiet).
      intros e He. left. left. exact He. }
    { apply open_dispatch_frames. }
    { unseen. }
    rewrite (bind_through _ _ _ _ _ H0).
    rewrite (open_dispatch_value _ _ _ _ _ _ H0), Hreply.
    destruct (completes_silently played_by scheduler_calls
                (dispatch_planned_actions env reply) w0) as ([] & w1 & H1 & A1).
    { apply (dispatch_planned_actions_completes env before_identifier Hquiet);
        [intros e He; left; right; left; exact He | exact Hplans]. }
    { apply dispatch_planned_actions_frames. }
    { unseen. }
    rewrite (bind_through _ _ _ _ _ H1).
    destruct (completes_silently played_by volume_calls
                (dispatch_volume env reply false) w1) as (n1 & w2 & H2 & A2).
    { apply (dispatch_volume_completes env before_identifier Hquiet).
      intros e He. left. right. right. left. exact He. }
    { apply dispatch_volume_frames. }
    { unseen. }
    rewrite (bind_through _ _ _ _ _ H2).
    destruct (completes_silently played_by media_calls
                (dispatch_media_action env reply n1) w2) as (n2 & w3 & H3 & A3).
    { apply (dispatch_media_action_completes env before_identifier Hquiet).
      intros e He. left. right. right. right. exact He. }
    { apply dispatch_media_action_frames. }
    { unseen. }
    rewrite (bind_through _ _ _ _ _ H3).
    destruct (completes_silently played_by stop_calls
                (dispatch_stop env reply n2) w3) as (n3 & w4 & H4 & A4).
    { apply (dispatch_stop_completes env before_identifier Hquiet).
      intros e He. right. left. exact He. }
    { apply dispatch_stop_frames. }
    { intros e ->. reflexivity. }
    rewrite (bind_through _ _ _ _ _ H4).
    destruct (completes_silently played_by (lights_or_says (lead_speech reply n3))
                (dispatch_answer env reply n3) w4) as ([] & w5 & H5 & A5).
    { apply (dispatch_answer_completes env before_identifier Hquiet).
      intros e He. right. right. exact He. }
    { apply dispatch_answer_frames. }
    { unseen. }
    rewrite (bind_through _ _ _ _ _ H5).
    destruct (completes_silently played_by (fun _ => False)
                (dispatch_language reply) w5) as ([] & w6 & H6 & A6).
    { apply dispatch_language_completes. }
    { apply dispatch_language_frames. }
    { intros e []. }
    rewrite (bind_through _ _ _ _ _ H6).
    apply (stable_after_bind (fun e => played_by e = [])); [exact HI | |].
    + pose proof (dispatch_identifier_plays reply url w6 Hid) as A7.
      fold medium in A7.
      pose proof (adds_trans played_by _ _ _ _ _ A0 A1) as B1.
      pose proof (adds_trans played_by _ _ _ _ _ B1 A2) as B2.
      pose proof (adds_trans played_by _ _ _ _ _ B2 A3) as B3.
      pose proof (adds_trans played_by _ _ _ _ _ B3 A4) as B4.
      pose proof (adds_trans played_by _ _ _ _ _ B4 A5) as B5.
      pose proof (adds_trans played_by _ _ _ _ _ B5 A6) as B6.
      exact (adds_trans played_by _ _ _ _ _ B6 A7).
    + intros _.
      apply frames_bind; [unseen_by (dispatch_table_frames env reply) | intros _].
      apply frames_bind; [unseen_by (dispatch_rss_frames env reply) | intros _].
      apply frames_ret.
  - intros e h He. unfold deal_with_answer_except in He.
    destruct e; simpl in He; inversion He; subst; unfold to_error; frames_tac.
Qed.

End IdentifierBlock.

(** C6.  A reply with an [identifier], whose planned actions (if any) each
    carry a delay that fits a float, dispatched while no collaborator called
    before the identifier block raises (dialogue service, GPIO, renderer,
    scheduler, the player's volume, media and stop operations, the lights,
    the TTS provider): exactly one medium is started, through
    [player.playytb] with the identifier from its fifth character on when
    its first three characters are ["ytd"], and through [player.play] with
    the whole identifier otherwise, whatever the later blocks do. *)
Theorem identifier_played env dev payload reply url w :
  reply_of env payload w = Some reply ->
  identifier reply = Some url ->
  Forall schedulable (plans_of reply) ->
  (forall history e, before_identifier e -> raises env history e = None) ->
  played (new_calls w (snd (deal_with_answer env dev payload w))) =
    [if str_take 3 url =? "ytd" then playytb (str_drop 4 url) else play url].
Proof.
  intros Hreply Hid Hplans Hquiet. unfold played.
  apply (observed_after played_by).
  apply (deal_with_answer_plays env dev Hquiet payload reply url w Hreply Hid Hplans).
Qed.

Lemma identifier_played_witness :
  played (new_calls boot
            (snd (deal_with_answer (answering champions) raspberry
                    (PText "play we are the champions") boot)))
    = [playytb "04854XqcfCY"] /\
  played (new_calls boot
            (snd (deal_with_answer (answering mp3) raspberry (PReply mp3) boot)))
    = [play "http://example/file.mp3"].
Proof.
  split.
  - apply (identifier_played (answering champions) raspberry
             (PText "play we are the champions") champions "ytd-04854XqcfCY" boot);
      try reflexivity.
    constructor.
  - apply (identifier_played (answering mp3) raspberry (PReply mp3) mp3
             "http://example/file.mp3" boot);
      try reflexivity.
    constructor.
Defined.

(** C6 as stated fails: with a planned action that has no [plan_delay], or
    with an answer the TTS provider fails to speak, the dispatch is
    abandoned before the identifier block and nothing is played. *)
Lemma identifier_not_played_after_failure :
  played (new_calls boot
            (snd (deal_with_answer (answering champions_after_plan) raspberry
                    (PText "play we are the champions") boot))) = [] /\
  played (new_calls boot
            (snd (deal_with_answer hoarse raspberry (PReply announced) boot))) = [].
Proof. split; vm_compute; reflexivity. Qed.

(** ** The [table] field *)

(** C7.  A reply with a [table], whose planned actions (if any) each carry
    a delay that fits a float, dispatched with one of the TTS providers
    [__speak] knows while no collaborator raises: after the answer or
    fallback and before the feed titles, every header cell is spoken once
    and in order, then the cells of the first four data rows row by row, and
    no cell of a later row. *)
Theorem table_spoken env dev payload reply t w :
  reply_of env payload w = Some reply ->
  table reply = Some t ->
  Forall schedulable (plans_of reply) ->
  known_tts (default_tts w) = true ->
  (forall history e, raises env history e = None) ->
  spoken (new_calls w (snd (deal_with_answer env dev payload w))) =
    lead_speech reply (answered reply) ++
    (head t ++ concat (firstn 4 (data t))) ++
    rss_speech reply.
Proof.
  intros Hreply Htable Hplans Htts Hquiet.
  destruct (dispatch_completes env dev Hquiet payload reply w Hreply Hplans)
    as [w' Hrun].
  rewrite Hrun. cbn [snd].
  rewrite (dispatch_spoken _ _ _ _ _ _ Hreply Hrun).
  unfold heard, expected_speech, table_speech. rewrite Htts, Htable. reflexivity.
Qed.

Lemma table_spoken_witness :
  spoken (new_calls boot
            (snd (deal_with_answer (answering five_rows) raspberry
                    (PReply five_rows) boot)))
  = [fallback_phrase; "A"; "B"; "1"; "2"; "3"; "4"; "5"; "6"; "7"; "8"].
Proof.
  apply (table_spoken (answering five_rows) raspberry (PReply five_rows) five_rows
           (mkTable ["A"; "B"]
                    [["1"; "2"]; ["3"; "4"]; ["5"; "6"]; ["7"; "8"]; ["9"; "10"]])
           boot);
    try reflexivity.
  constructor.
Defined.

(** C7 as stated fails: with a planned action that has no [plan_delay] the
    dispatch is abandoned before the table block, and with a TTS provider
    [__speak] does not know nothing is handed to a provider: no cell is
    spoken. *)
Lemma table_not_spoken_after_failure :
  spoken (new_calls boot
            (snd (deal_with_answer (answering five_rows_after_plan) raspberry
                    (PReply five_rows_after_plan) boot))) = [] /\
  spoken (new_calls boot_espeak
            (snd (deal_with_answer (answering five_rows) raspberry
                    (PReply five_rows) boot_espeak))) = [].
Proof. split; vm_compute; reflexivity. Qed.

(** ** Planned actions *)

Section PlansBlock.

Variable env : Env.
Variable dev : Device.
Hypothesis Hquiet :
  forall history e, opens_dispatch e \/ scheduler_calls e ->
                    raises env history e = None.



End PlansBlock.



